(** * go-musicforprogramming: feed loading, completion checking, tagging
      and the bounded episode pipeline.

    The repository holds three successive revisions of one program:
    - revision 1 (first part of [main.go]): completeness is a size comparison
      against a HEAD request ([fileComplete]);
    - revision 2 (second part of [main.go]): completeness is decided from the
      embedded metadata ([fileIsComplete]); the size check is commented out;
    - revision 3 ([unnamed/part_000]): an existing file with incomplete
      metadata is re-tagged instead of being downloaded again.
    Code shared verbatim by the revisions is embedded once; what differs lives
    in the modules [Rev1], [Rev2] and [Rev3].

    The program calls into the Go standard library ([regexp], [strconv],
    [os], [net/http], [path/filepath]) and into two dependencies named in
    [go.mod] ([gofeed], [id3v2]). None of them is part of the sources; the
    modules of the same names below model the calls the program makes, after
    the documented behaviour of those packages. *)

From Stdlib Require Import ZArith Ascii String List Lia Bool DecimalString.
From stdpp Require Import gmap strings list fin_maps sorting.

Local Open Scope string_scope.
Local Open Scope Z_scope.

(** ** Go strings: byte sequences *)

Fixpoint takeS (n : nat) (s : string) : string :=
  match n, s with
  | S n', String c s' => String c (takeS n' s')
  | _, _ => EmptyString
  end.

Fixpoint dropS (n : nat) (s : string) : string :=
  match n, s with
  | S n', String _ s' => dropS n' s'
  | _, _ => s
  end.

Fixpoint stripPrefix (p s : string) : option string :=
  match p, s with
  | EmptyString, _ => Some s
  | String a p', String b s' => if Ascii.eqb a b then stripPrefix p' s' else None
  | String _ _, EmptyString => None
  end.

(** ** package regexp: the fragment used by the title pattern

    Leftmost-first matching with greedy repetition, as Go's [regexp] package
    specifies it for patterns without alternation: a repetition first tries
    its longest run and gives characters back one at a time. *)
Module regexp.

(** [\s] is [[\t\n\f\r ]], [\d] is [[0-9]], [.] is any character but
    newline (no [s] flag). *)
Definition isSpace (c : ascii) : bool :=
  let n := nat_of_ascii c in
  (n =? 9)%nat || (n =? 10)%nat || (n =? 12)%nat || (n =? 13)%nat || (n =? 32)%nat.

Definition isDigit (c : ascii) : bool :=
  let n := nat_of_ascii c in (48 <=? n)%nat && (n <=? 57)%nat.

Definition isDot (c : ascii) : bool :=
  negb (nat_of_ascii c =? 10)%nat.

Inductive atom :=
| BeginText                                  (* ^  (no m flag) *)
| EndText                                    (* $  (no m flag) *)
| Lit (s : string)
| Rep (min : nat) (cls : ascii -> bool).     (* cls+ is Rep 1, cls* is Rep 0 *)

Record piece := { capture : bool; body : atom }.

Definition plain (a : atom) : piece := {| capture := false; body := a |}.
Definition group (a : atom) : piece := {| capture := true; body := a |}.

Definition Regexp := list piece.

(** Length of the longest prefix of [s] made of characters of [cls]. *)
Fixpoint span (cls : ascii -> bool) (s : string) : nat :=
  match s with
  | String c s' => if cls c then S (span cls s') else O
  | EmptyString => O
  end.

(** Greedy choice: the longest admissible length first. *)
Fixpoint greedy {A} (min k : nat) (try : nat -> option A) : option A :=
  if (k <? min)%nat then None
  else match try k with
       | Some r => Some r
       | None => match k with
                 | O => None
                 | S k' => greedy min k' try
                 end
       end.

Definition withCapture (p : piece) (text : string)
    (r : nat * list string) : nat * list string :=
  (String.length text + fst r, if capture p then text :: snd r else snd r)%nat.

(** [matchAt re pos s]: match [re] against [s], the input from offset
    [pos] on; gives the number of bytes consumed and the captured groups. *)
Fixpoint matchAt (re : Regexp) (pos : nat) (s : string)
    : option (nat * list string) :=
  match re with
  | [] => Some (O, [])
  | p :: re' =>
      match body p with
      | BeginText =>
          if (pos =? 0)%nat
          then withCapture p "" <$> matchAt re' pos s
          else None
      | EndText =>
          match s with
          | EmptyString => withCapture p "" <$> matchAt re' pos s
          | _ => None
          end
      | Lit l =>
          match stripPrefix l s with
          | Some rest =>
              withCapture p l <$> matchAt re' (pos + String.length l)%nat rest
          | None => None
          end
      | Rep min cls =>
          greedy min (span cls s)
            (fun k => withCapture p (takeS k s)
                        <$> matchAt re' (pos + k)%nat (dropS k s))
      end
  end.

(** Leftmost match: start offsets are tried in increasing order. *)
Fixpoint findFrom (re : Regexp) (pos : nat) (s : string)
    : option (string * list string) :=
  match matchAt re pos s with
  | Some (n, groups) => Some (takeS n s, groups)
  | None =>
      match s with
      | String _ s' => findFrom re (S pos) s'
      | EmptyString => None
      end
  end.

(** [FindStringSubmatch]: nil when there is no match, otherwise the whole
    match followed by the groups. *)
Definition FindStringSubmatch (re : Regexp) (s : string) : list string :=
  match findFrom re O s with
  | Some (whole, groups) => whole :: groups
  | None => []
  end.

End regexp.

(** ** package gofeed: what the loader reads of a parsed feed *)
Module gofeed.
Record Enclosure := { URL : string; Length : string; Type_ : string }.
Record Item := { Title : string; Enclosures : list Enclosure }.
Record Feed := { Items : list Item }.
End gofeed.

(** ** package strconv *)
Module strconv.

Definition int64_min : Z := - 2 ^ 63.
Definition int64_max : Z := 2 ^ 63 - 1.

(** The value of a string of decimal digits, most significant first. *)
Fixpoint decimal (s : string) (acc : Z) : option Z :=
  match s with
  | EmptyString => Some acc
  | String c s' =>
      if regexp.isDigit c
      then decimal s' (10 * acc + (Z.of_nat (nat_of_ascii c) - 48))
      else None
  end.

(** [strconv.ParseInt(s, 10, 64)]: an optional sign, then decimal digits;
    a value outside int64 is an error. *)
Definition ParseInt (s : string) : option Z :=
  let '(neg, digits) :=
    match s with
    | String "+" r => (false, r)
    | String "-" r => (true, r)
    | _ => (false, s)
    end in
  match digits with
  | EmptyString => None
  | _ =>
      match decimal digits 0 with
      | None => None
      | Some v =>
          let v := if neg : bool then - v else v in
          if (int64_min <=? v) && (v <=? int64_max) then Some v else None
      end
  end.

End strconv.

(** ** Errors and log lines *)

Inductive error :=
| ErrNotExist                       (* the file is not there *)
| ErrPermission                     (* the file or directory cannot be written *)
| ErrTransport                      (* the HTTP request failed *)
| ErrBody                           (* the response body broke off *)
| ErrFeed                           (* the feed could not be fetched or parsed *)
| ErrTag                            (* the ID3v2 container cannot be parsed *)
| ErrSmallHeaderSize                (* "size of tag header is less than expected" *)
| ErrMkdir                          (* mkdir of the empty path: no such file or directory *)
| Wrap (msg : string) (e : error).  (* fmt.Errorf("msg: %w", e) *)

(** One constructor per [log.Printf]/[log.Println]/[log.Fatalf] call of the
    program, with the arguments of its format string. *)
Inductive LogLine :=
| LogCoverDownloaded
| LogUnrecognizedTitle (title : string)
| LogFound (n : Z)
| LogAlreadyDownloaded (fileName : string)
| LogAlreadyComplete (fileName : string)
| LogErrorReadingMetadata (fileName : string) (e : error)
| LogMetadataIncomplete (fileName : string)
| LogErrorUpdatingMetadata (fileName : string) (e : error)
| LogMetadataUpdated (fileName : string)
| LogDownloading (fileName : string)
| LogErrorDownloading (fileName : string) (e : error)
| LogErrorTagging (fileName : string) (e : error)
| LogProcessed (fileName : string)
| LogFatalPrepare (e : error)
| LogFatalCover (e : error)
| LogFatalEpisodes (e : error).

(** ** Episodes and the title pattern *)

Record Episode := { Number : string; Title : string; URL : string }.

(** [^Episode\s+(\d+):\s*(.+)$] *)
Definition titleRe : regexp.Regexp :=
  [ regexp.plain regexp.BeginText;
    regexp.plain (regexp.Lit "Episode");
    regexp.plain (regexp.Rep 1 regexp.isSpace);
    regexp.group (regexp.Rep 1 regexp.isDigit);
    regexp.plain (regexp.Lit ":");
    regexp.plain (regexp.Rep 0 regexp.isSpace);
    regexp.group (regexp.Rep 1 regexp.isDot);
    regexp.plain regexp.EndText ].

(** The slice reversal at the end of [loadEpisodes]:
    [for i, j := 0, len(s)-1; i < j; i, j = i+1, j-1 { s[i], s[j] = s[j], s[i] }].
    Indices are Go [int]s, so [j] starts at [-1] on the empty slice. Inside
    the loop [0 <= i < j < len(s)], so no index is ever out of range. *)
Definition swap {A} (i j : Z) (s : list A) : list A :=
  match s !! Z.to_nat i, s !! Z.to_nat j with
  | Some x, Some y => <[Z.to_nat j := x]> (<[Z.to_nat i := y]> s)
  | _, _ => s
  end.

Fixpoint reverseLoop {A} (fuel : nat) (i j : Z) (s : list A) : list A :=
  match fuel with
  | O => s
  | S fuel' =>
      if i <? j then reverseLoop fuel' (i + 1) (j - 1) (swap i j s) else s
  end.

Definition reverseInPlace {A} (s : list A) : list A :=
  reverseLoop (length s) 0 (Z.of_nat (length s) - 1) s.

(** ** The environment: file system, network, metadata library

    Files are seen the way the ID3v2 reader sees them: a metadata region in
    front (absent, parsed, or unreadable) and the audio bytes behind it. *)

Definition bytes := list Byte.byte.

Definition Result (A : Type) : Type := A + error.

(** *** package id3v2 (github.com/bogem/id3v2 v1.2.0), as the program uses it

    [Open] with [Parse: true] reads every frame of the file into the tag and
    [Save] writes every frame of the tag back: frames the program does not
    set are carried along. *)
Module id3v2.

Inductive Encoding := EncodingISO | EncodingUTF16 | EncodingUTF16BE | EncodingUTF8.

Definition PTFrontCover : Z := 3.

Record PictureFrame := {
  Encoding_ : Encoding;
  MimeType : string;
  PictureType : Z;
  Description : string;
  Picture : bytes
}.

(** A tag: its text frames by frame id, its attached pictures in order, and
    the frames of other kinds, which the program never looks at. *)
Record Tag := {
  text : gmap string string;
  pictures : list PictureFrame;
  other : list (string * bytes)
}.

Definition emptyTag : Tag := {| text := ∅; pictures := []; other := [] |}.

Inductive Framer :=
| FPicture (pf : PictureFrame)
| FText (s : string)
| FUnknown (body : bytes).

(** [PictureFrame.UniqueIdentifier] of the required version 1.2.0: the
    description alone, whatever the picture type. *)
Definition UniqueIdentifier (pf : PictureFrame) : string :=
  Description pf.

(** The tag header: ten bytes in front of the frames. *)
Definition tagHeaderSize : nat := 10.

(** Frames that may occur several times are kept in a sequence; a frame
    added to it replaces the one with the same unique identifier, and is
    appended when there is none. *)
Fixpoint addToSequence (pf : PictureFrame) (s : list PictureFrame) : list PictureFrame :=
  match s with
  | [] => [pf]
  | ff :: s' =>
      if String.eqb (UniqueIdentifier pf) (UniqueIdentifier ff)
      then pf :: s'
      else ff :: addToSequence pf s'
  end.

(** Parsing adds the frames of the file one by one, so of two pictures
    with the same unique identifier the later one stays. *)
Definition parse (onDisk : Tag) : Tag :=
  {| text := text onDisk;
     pictures := fold_left (fun s pf => addToSequence pf s) (pictures onDisk) [];
     other := other onDisk |}.

Definition Album (t : Tag) : string := default "" (text t !! "TALB").

Definition SetAlbum (t : Tag) (album : string) : Tag :=
  {| text := <["TALB" := album]> (text t); pictures := pictures t; other := other t |}.

Definition AddAttachedPicture (t : Tag) (pf : PictureFrame) : Tag :=
  {| text := text t; pictures := addToSequence pf (pictures t); other := other t |}.

Definition GetFrames (t : Tag) (id : string) : list Framer :=
  if String.eqb id "APIC" then FPicture <$> pictures t
  else match text t !! id with
       | Some s => [FText s]
       | None => (fun p => FUnknown (snd p)) <$> filter (fun p => fst p = id) (other t)
       end.

End id3v2.

(** *** [flag], for a program that defines no flag *)
Module flag.

(** What [flag.Parse] makes of the command line: the arguments left for
    [flag.Args], or the error at the first argument that has the form of a
    flag. With [flag.ExitOnError] the process ends there, with status 0
    after [ErrHelp] and with status 2 otherwise. *)
Inductive Parsed :=
| Args (positional : list string)
| ErrHelp                          (* -h, -help, also with a value *)
| BadSyntax                        (* "bad flag syntax" *)
| NotDefined.                      (* "flag provided but not defined" *)

(** The name of a flag: what stands before the first equals sign behind
    its first character. *)
Fixpoint upToEquals (s : string) : string :=
  match s with
  | EmptyString => EmptyString
  | String c s' => if Ascii.eqb c "=" then EmptyString else String c (upToEquals s')
  end.

(** [parseOne] on the first argument, and with it the whole of [Parse]: an
    argument that is no flag ends the parsing, [--] ends it and is taken
    away, and every flag is an error since none is defined. *)
Definition Parse (args : list string) : Parsed :=
  match args with
  | [] => Args []
  | s :: rest =>
      match s with
      | String c0 (String c1 s2) =>
          if negb (Ascii.eqb c0 "-") then Args args
          else if Ascii.eqb c1 "-" && String.eqb s2 "" then Args rest
          else
            match (if Ascii.eqb c1 "-" then s2 else String c1 s2) with
            | EmptyString => BadSyntax
            | String c name' =>
                if Ascii.eqb c "-" || Ascii.eqb c "=" then BadSyntax
                else
                  let name := String c (upToEquals name') in
                  if String.eqb name "help" || String.eqb name "h" then ErrHelp
                  else NotDefined
            end
      | _ => Args args
      end
  end.

End flag.

Inductive Container :=
| NoTag                            (* no ID3v2 header in front of the audio *)
| Tagged (t : id3v2.Tag)           (* a header with the frames [t], in file order *)
| Unreadable (raw : bytes).        (* a header the reader rejects *)

Record FileData := { container : Container; audio : bytes }.

Definition emptyFile : FileData := {| container := NoTag; audio := [] |}.

Module http.
(** What arrives for a request: the declared length ([-1] when the server
    gives none), the bytes received, and whether the body broke off. *)
Record Response := { ContentLength : Z; Body : FileData; BodyErr : bool }.
End http.

(** What a run cannot change: the network, the paths that refuse writes
    (for lack of permission or of a directory to hold them), and the byte
    encoding the ID3v2 writer gives a tag (left abstract). *)
Record Env := {
  tagBytes : id3v2.Tag -> bytes;
  remote : gmap string http.Response;
  feeds : gmap string gofeed.Feed;
  readonly : gset string
}.

(** The file system: regular files by path. *)
Abbreviation FS := (gmap string FileData).

Definition fileBytes (env : Env) (f : FileData) : bytes :=
  match container f with
  | NoTag => audio f
  | Tagged t => (tagBytes env t ++ audio f)%list
  | Unreadable raw => (raw ++ audio f)%list
  end.

(** *** [path/filepath] on a system whose separator is the slash *)

(** The fields of a path between its slashes, the empty ones included. *)
Fixpoint splitSlash (s : string) : list string :=
  match s with
  | EmptyString => [EmptyString]
  | String c s' =>
      if Ascii.eqb c "/" then EmptyString :: splitSlash s'
      else match splitSlash s' with
           | f :: fs => String c f :: fs
           | [] => [String c EmptyString]
           end
  end.

Fixpoint joinSlash (l : list string) : string :=
  match l with
  | [] => EmptyString
  | [x] => x
  | x :: l' => x ++ "/" ++ joinSlash l'
  end.

Definition isRooted (path : string) : bool :=
  match path with
  | String c _ => Ascii.eqb c "/"
  | EmptyString => false
  end.

(** One path element met by [Clean]; the elements kept so far are held
    with the latest in front. Empty elements and [.] are dropped; [..]
    takes the element before it away, is dropped at the root, and stays at
    the front of a relative path. *)
Definition cleanPush (rooted : bool) (kept : list string) (elem : string) : list string :=
  if String.eqb elem "" || String.eqb elem "." then kept
  else if String.eqb elem ".." then
    match kept with
    | top :: below => if String.eqb top ".." then elem :: kept else below
    | [] => if rooted then [] else [elem]
    end
  else elem :: kept.

Definition cleanElements (path : string) : list string :=
  fold_left (cleanPush (isRooted path)) (splitSlash path) [].

(** [filepath.Clean(path)] *)
Definition Clean (path : string) : string :=
  let out := joinSlash (rev (cleanElements path)) in
  if isRooted path then "/" ++ out
  else if String.eqb out "" then "." else out.

(** [filepath.Join(dir, name)]: the non-empty ones of the two joined by a
    slash and cleaned; the empty string when both are empty. The cleaned
    paths serve as keys of the file system. *)
Definition Join (dir name : string) : string :=
  match dir, name with
  | EmptyString, EmptyString => EmptyString
  | EmptyString, _ => Clean name
  | _, EmptyString => Clean dir
  | _, _ => Clean (dir ++ "/" ++ name)
  end.

Module os.
(** [os.Stat(path)]: the size of the file, or an error when it is absent. *)
Definition Stat (env : Env) (fs : FS) (path : string) : Result Z :=
  match fs !! path with
  | Some f => inl (Z.of_nat (length (fileBytes env f)))
  | None => inr ErrNotExist
  end.

Definition ReadFile (env : Env) (fs : FS) (path : string) : Result bytes :=
  match fs !! path with
  | Some f => inl (fileBytes env f)
  | None => inr ErrNotExist
  end.

(** [os.Create(path)]: the file is created or truncated. *)
Definition Create (env : Env) (fs : FS) (path : string) : FS * option error :=
  if decide (path ∈ readonly env) then (fs, Some ErrPermission)
  else (<[path := emptyFile]> fs, None).

(** [os.MkdirAll(path, 0755)]: fails on the empty path and on a path that,
    cleaned, is a regular file or refuses writes. Directories are not
    tracked. *)
Definition MkdirAll (env : Env) (fs : FS) (path : string) : option error :=
  if String.eqb path "" then Some ErrMkdir
  else if decide (Clean path ∈ readonly env) then Some ErrPermission
  else match fs !! Clean path with
       | Some _ => Some ErrPermission
       | None => None
       end.
End os.

Definition isNil {A} (r : Result A) : bool :=
  match r with inl _ => true | inr _ => false end.

(** [id3v2.Open(path, id3v2.Options{Parse: true})]. The reader asks for
    the ten bytes of a tag header: an empty file, and a file of ten bytes
    or more that does not start with one, are read as a file without tag;
    a file without tag that is shorter than the header is an error. *)
Definition id3v2_Open (fs : FS) (path : string) : Result id3v2.Tag :=
  match fs !! path with
  | None => inr ErrNotExist
  | Some f =>
      match container f with
      | NoTag =>
          let n := length (audio f) in
          if (0 <? n)%nat && (n <? id3v2.tagHeaderSize)%nat
          then inr ErrSmallHeaderSize
          else inl id3v2.emptyTag
      | Tagged t => inl (id3v2.parse t)
      | Unreadable _ => inr ErrTag
      end
  end.

(** [tag.Save()]: the file is rewritten with the tag in front of the audio it
    already had. *)
Definition id3v2_Save (env : Env) (fs : FS) (path : string) (t : id3v2.Tag)
    : FS * option error :=
  match fs !! path with
  | None => (fs, Some ErrNotExist)
  | Some f =>
      if decide (path ∈ readonly env) then (fs, Some ErrPermission)
      else (<[path := {| container := Tagged t; audio := audio f |}]> fs, None)
  end.

(** ** Code shared by the three revisions *)

Definition albumName : string := "Music For Programming".

Record Downloader := {
  OutputDir : string;
  FeedURL : string;
  CoverURL : string;
  Episodes : list Episode
}.

Definition newDownloader (outDir feedURL coverURL : string) : Downloader :=
  {| OutputDir := outDir; FeedURL := feedURL; CoverURL := coverURL; Episodes := [] |}.

Definition setEpisodes (d : Downloader) (eps : list Episode) : Downloader :=
  {| OutputDir := OutputDir d; FeedURL := FeedURL d; CoverURL := CoverURL d;
     Episodes := eps |}.

Definition prepareOutput (env : Env) (fs : FS) (d : Downloader) : option error :=
  os.MkdirAll env fs (OutputDir d).

(** [downloadFile(url, dest)] *)
Definition downloadFile (env : Env) (fs : FS) (url dest : string) : FS * option error :=
  match remote env !! url with
  | None => (fs, Some ErrTransport)
  | Some resp =>
      match os.Create env fs dest with
      | (fs', Some err) => (fs', Some err)
      | (fs', None) =>
          (<[dest := http.Body resp]> fs',
           if http.BodyErr resp then Some ErrBody else None)
      end
  end.

(** [fetchCover()] *)
Definition fetchCover (env : Env) (fs : FS) (d : Downloader)
    : FS * option error * list LogLine :=
  let coverPath := Join (OutputDir d) "cover.jpg" in
  if isNil (os.Stat env fs coverPath) then (fs, None, [])
  else
    match remote env !! CoverURL d with
    | None => (fs, Some (Wrap "failed to fetch cover" ErrTransport), [])
    | Some resp =>
        match os.Create env fs coverPath with
        | (fs', Some err) => (fs', Some (Wrap "failed to create cover file" err), [])
        | (fs', None) =>
            let fs'' := <[coverPath := http.Body resp]> fs' in
            if http.BodyErr resp
            then (fs'', Some (Wrap "failed to write cover file" ErrBody), [])
            else (fs'', None, [LogCoverDownloaded])
        end
    end.

(** [tagEpisode(mp3Path, coverPath)] *)
Definition coverFrame (cover : bytes) : id3v2.PictureFrame :=
  {| id3v2.Encoding_ := id3v2.EncodingUTF8;
     id3v2.MimeType := "image/jpeg";
     id3v2.PictureType := id3v2.PTFrontCover;
     id3v2.Description := "Cover";
     id3v2.Picture := cover |}.

Definition tagEpisode (env : Env) (fs : FS) (mp3Path coverPath : string)
    : FS * option error :=
  match id3v2_Open fs mp3Path with
  | inr err => (fs, Some err)
  | inl tag =>
      let tag := id3v2.SetAlbum tag albumName in
      match os.ReadFile env fs coverPath with
      | inr err => (fs, Some err)
      | inl cover =>
          let pic := coverFrame cover in
          let tag := id3v2.AddAttachedPicture tag pic in
          id3v2_Save env fs mp3Path tag
      end
  end.

(** [metadataComplete(mp3Path)] (revisions 2 and 3) *)
Definition metadataComplete (fs : FS) (mp3Path : string) : bool * option error :=
  match id3v2_Open fs mp3Path with
  | inr err => (false, Some err)
  | inl tag =>
      if negb (String.eqb (id3v2.Album tag) albumName) then (false, None)
      else
        let frames := id3v2.GetFrames tag "APIC" in
        if (length frames =? 0)%nat then (false, None)
        else (true, None)
  end.

(** [fmt.Sprintf("%s - %s.mp3", ep.Number, ep.Title)] *)
Definition fileNameOf (ep : Episode) : string :=
  Number ep ++ " - " ++ Title ep ++ ".mp3".

(** The body of the [for _, item := range feed.Items] loop of [loadEpisodes]
    (revisions 1 and 3). *)
Definition loadItem (acc : list Episode * list LogLine) (item : gofeed.Item)
    : list Episode * list LogLine :=
  let '(eps, log) := acc in
  if (length (gofeed.Enclosures item) =? 0)%nat then (eps, log)
  else
    let matches := regexp.FindStringSubmatch titleRe (gofeed.Title item) in
    if negb (length matches =? 3)%nat
    then (eps, (log ++ [LogUnrecognizedTitle (gofeed.Title item)])%list)
    else
      match matches, gofeed.Enclosures item with
      | [_; m1; m2], e0 :: _ =>
          let ep := {| Number := m1; Title := m2; URL := gofeed.URL e0 |} in
          ((eps ++ [ep])%list, log)
      | _, _ => (eps, log)   (* unreachable: both lengths were checked *)
      end.

(** [loadEpisodes()] (revisions 1 and 3) *)
Definition loadEpisodes (env : Env) (d : Downloader)
    : Downloader * option error * list LogLine :=
  match feeds env !! FeedURL d with
  | None => (d, Some (Wrap "failed to parse feed" ErrFeed), [])
  | Some feed =>
      let '(eps, log) := fold_left loadItem (gofeed.Items feed) (Episodes d, []) in
      let eps := reverseInPlace eps in
      (setEpisodes d eps, None, (log ++ [LogFound (Z.of_nat (length eps))])%list)
  end.

(** What a worker does, in order: its log lines and its calls of the File
    Fetcher and of the Tagger. *)
Inductive Event :=
| EvLog (l : LogLine)
| EvDownload (url dest : string)
| EvTag (mp3Path coverPath : string).

(** ** Revision 1: completeness by size *)
Module Rev1.

(** [fileComplete(url, path)] *)
Definition fileComplete (env : Env) (fs : FS) (url path : string) : bool :=
  match os.Stat env fs path with
  | inr _ => false
  | inl size =>
      match remote env !! url with
      | None => false
      | Some resp => size =? http.ContentLength resp
      end
  end.

(** The goroutine body of [downloadAndTagEpisodes]. *)
Definition worker (env : Env) (d : Downloader) (ep : Episode) (fs : FS)
    : FS * list Event :=
  let fileName := fileNameOf ep in
  let targetPath := Join (OutputDir d) fileName in
  if fileComplete env fs (URL ep) targetPath
  then (fs, [EvLog (LogAlreadyDownloaded fileName)])
  else
    let pre := [EvLog (LogDownloading fileName); EvDownload (URL ep) targetPath] in
    match downloadFile env fs (URL ep) targetPath with
    | (fs1, Some err) => (fs1, pre ++ [EvLog (LogErrorDownloading fileName err)])%list
    | (fs1, None) =>
        let coverPath := Join (OutputDir d) "cover.jpg" in
        match tagEpisode env fs1 targetPath coverPath with
        | (fs2, Some err) =>
            (fs2, pre ++ [EvTag targetPath coverPath;
                          EvLog (LogErrorTagging fileName err)])%list
        | (fs2, None) =>
            (fs2, pre ++ [EvTag targetPath coverPath;
                          EvLog (LogProcessed fileName)])%list
        end
    end.

End Rev1.

(** ** Revision 2: completeness by metadata, incomplete files fetched again *)
Module Rev2.

Record Episode := {
  Number : string;
  Title : string;
  URL : string;
  ExpectedSize : Z
}.

Definition loadItem (acc : list Episode * list LogLine) (item : gofeed.Item)
    : list Episode * list LogLine :=
  let '(eps, log) := acc in
  if (length (gofeed.Enclosures item) =? 0)%nat then (eps, log)
  else
    let matches := regexp.FindStringSubmatch titleRe (gofeed.Title item) in
    if negb (length matches =? 3)%nat
    then (eps, (log ++ [LogUnrecognizedTitle (gofeed.Title item)])%list)
    else
      match matches, gofeed.Enclosures item with
      | [_; m1; m2], e0 :: _ =>
          let expSize :=
            let sizeStr := gofeed.Length e0 in
            if negb (String.eqb sizeStr "")
            then match strconv.ParseInt sizeStr with
                 | Some size => size
                 | None => 0
                 end
            else 0 in
          let ep := {| Number := m1; Title := m2; URL := gofeed.URL e0;
                       ExpectedSize := expSize |} in
          ((eps ++ [ep])%list, log)
      | _, _ => (eps, log)   (* unreachable: both lengths were checked *)
      end.

(** [loadEpisodes()]: the episode slice starts out as [eps0]. *)
Definition loadEpisodes (env : Env) (feedURL : string) (eps0 : list Episode)
    : list Episode * option error * list LogLine :=
  match feeds env !! feedURL with
  | None => (eps0, Some (Wrap "failed to parse feed" ErrFeed), [])
  | Some feed =>
      let '(eps, log) := fold_left loadItem (gofeed.Items feed) (eps0, []) in
      let eps := reverseInPlace eps in
      (eps, None, (log ++ [LogFound (Z.of_nat (length eps))])%list)
  end.

(** [fileIsComplete(url, path, expectedSize)]: the size check is commented
    out in the source; only the metadata decides. *)
Definition fileIsComplete (fs : FS) (url path : string) (expectedSize : Z) : bool :=
  let '(metaOk, err) := metadataComplete fs path in
  if negb (bool_decide (err = None)) || negb metaOk then false else true.

Definition fileNameOf (ep : Episode) : string :=
  Number ep ++ " - " ++ Title ep ++ ".mp3".

(** The goroutine body of [downloadAndTagEpisodes]. *)
Definition worker (env : Env) (outputDir : string) (ep : Episode) (fs : FS)
    : FS * list Event :=
  let fileName := fileNameOf ep in
  let targetPath := Join outputDir fileName in
  if fileIsComplete fs (URL ep) targetPath (ExpectedSize ep)
  then (fs, [EvLog (LogAlreadyComplete fileName)])
  else
    let pre := [EvLog (LogDownloading fileName); EvDownload (URL ep) targetPath] in
    match downloadFile env fs (URL ep) targetPath with
    | (fs1, Some err) => (fs1, pre ++ [EvLog (LogErrorDownloading fileName err)])%list
    | (fs1, None) =>
        let coverPath := Join outputDir "cover.jpg" in
        match tagEpisode env fs1 targetPath coverPath with
        | (fs2, Some err) =>
            (fs2, pre ++ [EvTag targetPath coverPath;
                          EvLog (LogErrorTagging fileName err)])%list
        | (fs2, None) =>
            (fs2, pre ++ [EvTag targetPath coverPath;
                          EvLog (LogProcessed fileName)])%list
        end
    end.

End Rev2.

(** ** Revision 3: incomplete files are re-tagged in place *)
Module Rev3.

(** The goroutine body of [downloadAndTagEpisodes], start to return. *)
Definition worker (env : Env) (d : Downloader) (coverPath : string)
    (ep : Episode) (fs : FS) : FS * list Event :=
  let fileName := fileNameOf ep in
  let targetPath := Join (OutputDir d) fileName in
  if isNil (os.Stat env fs targetPath) then
    let '(metaOk, err) := metadataComplete fs targetPath in
    let readLog :=
      match err with
      | Some e => [EvLog (LogErrorReadingMetadata fileName e)]
      | None => []
      end in
    if metaOk then (fs, readLog ++ [EvLog (LogAlreadyComplete fileName)])%list
    else
      let pre := (readLog ++ [EvLog (LogMetadataIncomplete fileName);
                              EvTag targetPath coverPath])%list in
      match tagEpisode env fs targetPath coverPath with
      | (fs1, Some e) => (fs1, pre ++ [EvLog (LogErrorUpdatingMetadata fileName e)])%list
      | (fs1, None) => (fs1, pre ++ [EvLog (LogMetadataUpdated fileName)])%list
      end
  else
    let pre := [EvLog (LogDownloading fileName); EvDownload (URL ep) targetPath] in
    match downloadFile env fs (URL ep) targetPath with
    | (fs1, Some e) => (fs1, pre ++ [EvLog (LogErrorDownloading fileName e)])%list
    | (fs1, None) =>
        match tagEpisode env fs1 targetPath coverPath with
        | (fs2, Some e) =>
            (fs2, pre ++ [EvTag targetPath coverPath;
                          EvLog (LogErrorTagging fileName e)])%list
        | (fs2, None) =>
            (fs2, pre ++ [EvTag targetPath coverPath;
                          EvLog (LogProcessed fileName)])%list
        end
    end.

(** *** The same body, one blocking operation at a time

    The phases are those of the per-episode state machine: the check, the
    fetch, the tagging, and the return of the body with its outcome. *)
Inductive Outcome := Complete | Done | Failed.

Inductive Phase :=
| Checking
| Fetching
| Tagging (retag : bool)
| Finished (o : Outcome).

Definition workerStep (env : Env) (d : Downloader) (coverPath : string)
    (ep : Episode) (ph : Phase) (fs : FS) : Phase * FS * list Event :=
  let fileName := fileNameOf ep in
  let targetPath := Join (OutputDir d) fileName in
  match ph with
  | Checking =>
      if isNil (os.Stat env fs targetPath) then
        let '(metaOk, err) := metadataComplete fs targetPath in
        let readLog :=
          match err with
          | Some e => [EvLog (LogErrorReadingMetadata fileName e)]
          | None => []
          end in
        if metaOk
        then (Finished Complete, fs, readLog ++ [EvLog (LogAlreadyComplete fileName)])%list
        else (Tagging true, fs, readLog ++ [EvLog (LogMetadataIncomplete fileName)])%list
      else (Fetching, fs, [EvLog (LogDownloading fileName)])
  | Fetching =>
      match downloadFile env fs (URL ep) targetPath with
      | (fs1, Some e) =>
          (Finished Failed, fs1,
           [EvDownload (URL ep) targetPath; EvLog (LogErrorDownloading fileName e)])
      | (fs1, None) => (Tagging false, fs1, [EvDownload (URL ep) targetPath])
      end
  | Tagging retag =>
      match tagEpisode env fs targetPath coverPath with
      | (fs1, Some e) =>
          (Finished Failed, fs1,
           [EvTag targetPath coverPath;
            EvLog (if retag then LogErrorUpdatingMetadata fileName e
                   else LogErrorTagging fileName e)])
      | (fs1, None) =>
          (Finished Done, fs1,
           [EvTag targetPath coverPath;
            EvLog (if retag then LogMetadataUpdated fileName
                   else LogProcessed fileName)])
      end
  | Finished o => (Finished o, fs, [])
  end.

Fixpoint workerRun (env : Env) (d : Downloader) (coverPath : string)
    (ep : Episode) (n : nat) (ph : Phase) (fs : FS) : Phase * FS * list Event :=
  match n with
  | O => (ph, fs, [])
  | S n' =>
      let '(ph1, fs1, ev1) := workerStep env d coverPath ep ph fs in
      let '(ph2, fs2, ev2) := workerRun env d coverPath ep n' ph1 fs1 in
      (ph2, fs2, (ev1 ++ ev2)%list)
  end.

(** *** [downloadAndTagEpisodes]: dispatcher, semaphore, wait group

    An interleaving semantics. [sem] is the number of tokens in the
    buffered channel of capacity 3, [wg] the counter of the wait group.
    A goroutine returns through its deferred calls, last registered first:
    [<-sem], then [wg.Done()]. *)
Definition semCap : nat := 3.

Inductive Goroutine :=
| Running (ph : Phase)          (* inside the body; holds its token *)
| Released (o : Outcome)        (* [<-sem] done, [wg.Done()] pending *)
| Exited (o : Outcome).

Inductive Dispatcher :=
| Loop (rest : list Episode)            (* at the loop head; [wg.Wait()] when [rest] is empty *)
| Send (ep : Episode) (rest : list Episode)   (* [wg.Add(1)] done, at [sem <- struct{}{}] *)
| Returned.

Record State := {
  files : FS;
  disp : Dispatcher;
  workers : list (Episode * Goroutine);
  sem : nat;
  wg : nat;
  trace : list Event
}.

Definition init (d : Downloader) (fs : FS) : State :=
  {| files := fs; disp := Loop (Episodes d); workers := []; sem := 0; wg := 0;
     trace := [] |}.

Section Steps.
Variable env : Env.
Variable d : Downloader.

Definition coverPath : string := Join (OutputDir d) "cover.jpg".

Inductive step : State -> State -> Prop :=
| step_add s ep rest :
    disp s = Loop (ep :: rest) ->
    step s {| files := files s; disp := Send ep rest; workers := workers s;
              sem := sem s; wg := S (wg s); trace := trace s |}
| step_send s ep rest :
    disp s = Send ep rest ->
    (sem s < semCap)%nat ->
    step s {| files := files s; disp := Loop rest;
              workers := (workers s ++ [(ep, Running Checking)])%list;
              sem := S (sem s); wg := wg s; trace := trace s |}
| step_work s i ep ph ph' fs' evs :
    workers s !! i = Some (ep, Running ph) ->
    (forall o, ph <> Finished o) ->
    workerStep env d coverPath ep ph (files s) = (ph', fs', evs) ->
    step s {| files := fs'; disp := disp s;
              workers := <[i := (ep, Running ph')]> (workers s);
              sem := sem s; wg := wg s; trace := (trace s ++ evs)%list |}
| step_release s i ep o :
    workers s !! i = Some (ep, Running (Finished o)) ->
    (0 < sem s)%nat ->
    step s {| files := files s; disp := disp s;
              workers := <[i := (ep, Released o)]> (workers s);
              sem := pred (sem s); wg := wg s; trace := trace s |}
| step_done s i ep o :
    workers s !! i = Some (ep, Released o) ->
    (0 < wg s)%nat ->
    step s {| files := files s; disp := disp s;
              workers := <[i := (ep, Exited o)]> (workers s);
              sem := sem s; wg := pred (wg s); trace := trace s |}
| step_wait s :
    disp s = Loop [] ->
    wg s = O ->
    step s {| files := files s; disp := Returned; workers := workers s;
              sem := sem s; wg := wg s; trace := trace s |}.

Inductive reachable (s0 : State) : State -> Prop :=
| reach_init : reachable s0 s0
| reach_step s s' : reachable s0 s -> step s s' -> reachable s0 s'.

End Steps.

(** Counting goroutines by what they are doing. *)
Definition holdsToken (w : Episode * Goroutine) : bool :=
  match snd w with Running _ => true | _ => false end.

Definition isActive (w : Episode * Goroutine) : bool :=
  match snd w with
  | Running Fetching | Running (Tagging _) => true
  | _ => false
  end.

Definition notExited (w : Episode * Goroutine) : bool :=
  match snd w with Exited _ => false | _ => true end.

Definition isTerminal (w : Episode * Goroutine) : bool :=
  match snd w with Exited _ => true | _ => false end.

Definition pending (dp : Dispatcher) : list Episode :=
  match dp with
  | Loop rest => rest
  | Send ep rest => ep :: rest
  | Returned => []
  end.

(** *** [main]: the exit status *)

(** Exit status 0, 1 ([log.Fatalf]) and 2 ([flag.Parse] on a flag it does
    not know). *)
Inductive ExitStatus := ExitOK | ExitFatal | ExitUsage.

(** What ends [main] before [downloadAndTagEpisodes]. *)
Inductive Abort :=
| Fatal (l : LogLine)     (* log.Fatalf *)
| BadFlag                 (* flag.Parse: message, usage, os.Exit(2) *)
| HelpShown.              (* flag.Parse on -h or -help: usage, os.Exit(0) *)

Definition defaultFeedURL : string := "https://musicforprogramming.net/rss.php".
Definition defaultCoverURL : string := "https://musicforprogramming.net/img/folder.jpg".

(** [main] up to the call of [downloadAndTagEpisodes], on the arguments of
    the command line (without the program name): [flag.Parse] ends the
    process on a flag, [log.Fatalf] ends it with status 1. *)
Definition mainSetup (env : Env) (fs : FS) (args : list string)
    : (Downloader * FS) + Abort :=
  match flag.Parse args with
  | flag.BadSyntax | flag.NotDefined => inr BadFlag
  | flag.ErrHelp => inr HelpShown
  | flag.Args positional =>
      let outputDir := match positional with a :: _ => a | [] => "downloaded_music" end in
      let d := newDownloader outputDir defaultFeedURL defaultCoverURL in
      match prepareOutput env fs d with
      | Some err => inr (Fatal (LogFatalPrepare err))
      | None =>
          match fetchCover env fs d with
          | (_, Some err, _) => inr (Fatal (LogFatalCover err))
          | (fs1, None, _) =>
              match loadEpisodes env d with
              | (_, Some err, _) => inr (Fatal (LogFatalEpisodes err))
              | (d1, None, _) => inl (d1, fs1)
              end
          end
      end
  end.

(** A run of [main]: ended by [flag.Parse], fatal during the set-up, or
    back from [downloadAndTagEpisodes] and out with status 0. *)
Inductive mainRun (env : Env) (fs : FS) (args : list string) : ExitStatus -> Prop :=
| main_usage :
    mainSetup env fs args = inr BadFlag -> mainRun env fs args ExitUsage
| main_help :
    mainSetup env fs args = inr HelpShown -> mainRun env fs args ExitOK
| main_fatal l :
    mainSetup env fs args = inr (Fatal l) -> mainRun env fs args ExitFatal
| main_ok d fs1 s :
    mainSetup env fs args = inl (d, fs1) ->
    reachable env d (init d fs1) s ->
    disp s = Returned ->
    mainRun env fs args ExitOK.

End Rev3.

(** ** Vocabulary of the properties *)

(** The episode number an episode declares, as a number. *)
Definition episodeNumber (ep : Episode) : Z :=
  default 0 (strconv.decimal (Number ep) 0).

(** A title matches the pattern when [FindStringSubmatch] finds a match. *)
Definition titleMatches (title : string) : Prop :=
  regexp.FindStringSubmatch titleRe title <> [].

(** The record a feed item stands for: none without an enclosure or with a
    title that does not match. *)
Definition itemEpisode (item : gofeed.Item) : option Episode :=
  match gofeed.Enclosures item, regexp.FindStringSubmatch titleRe (gofeed.Title item) with
  | e0 :: _, [_; number; title] =>
      Some {| Number := number; Title := title; URL := gofeed.URL e0 |}
  | _, _ => None
  end.

Definition itemEpisode2 (item : gofeed.Item) : option Rev2.Episode :=
  match gofeed.Enclosures item, regexp.FindStringSubmatch titleRe (gofeed.Title item) with
  | e0 :: _, [_; number; title] =>
      Some {| Rev2.Number := number; Rev2.Title := title; Rev2.URL := gofeed.URL e0;
              Rev2.ExpectedSize :=
                match strconv.ParseInt (gofeed.Length e0) with
                | Some size => size
                | None => 0
                end |}
  | _, _ => None
  end.

Definition countGroups (re : regexp.Regexp) : nat :=
  length (List.filter regexp.capture re).

Definition optionList {A} (o : option A) : list A :=
  match o with Some x => [x] | None => [] end.

Definition descending (l : list Z) : Prop := StronglySorted Z.gt l.
Definition ascending (l : list Z) : Prop := StronglySorted Z.lt l.

(** The feed item of the example. *)
Definition ep07 : Episode :=
  {| Number := "07"; Title := "Night Drive"; URL := "https://host/ep07.mp3" |}.

(** The episode slice of [loadEpisodes] as it is before the reversal, when it
    started out empty. *)
Definition collected (items : list gofeed.Item) : list Episode :=
  fst (fold_left loadItem items ([], [])).

(** ** Concrete environments for the examples *)

Definition noBytes : id3v2.Tag -> bytes := fun _ => [].

Definition mkEnv (net : gmap string http.Response) (fds : gmap string gofeed.Feed) : Env :=
  {| tagBytes := noBytes; remote := net; feeds := fds; readonly := ∅ |}.

Definition enclosure (url : string) : gofeed.Enclosure :=
  {| gofeed.URL := url; gofeed.Length := ""; gofeed.Type_ := "audio/mpeg" |}.

Definition item07 : gofeed.Item :=
  {| gofeed.Title := "Episode 07: Night Drive";
     gofeed.Enclosures := [enclosure "https://host/ep07.mp3"] |}.

Definition item08 : gofeed.Item :=
  {| gofeed.Title := "Episode 08: Low Tide";
     gofeed.Enclosures := [enclosure "https://host/ep08.mp3";
                           enclosure "https://mirror/ep08.ogg"] |}.

Definition itemNews : gofeed.Item :=
  {| gofeed.Title := "Site news"; gofeed.Enclosures := [enclosure "https://host/news.mp3"] |}.

Definition exampleDownloader : Downloader :=
  newDownloader "out" Rev3.defaultFeedURL Rev3.defaultCoverURL.

Definition feedEnv (items : list gofeed.Item) : Env :=
  mkEnv ∅ {[ Rev3.defaultFeedURL := {| gofeed.Items := items |} ]}.

(** A file is complete when it exists, its album frame (TALB) holds the
    album constant, and it carries at least one attached picture (APIC). *)
Definition isComplete (fs : FS) (path : string) : Prop :=
  exists f t,
    fs !! path = Some f
    /\ container f = Tagged t
    /\ id3v2.text t !! "TALB" = Some albumName
    /\ id3v2.pictures t <> [].

(** The APIC frames the reader finds in a file: what
    [tag.GetFrames("APIC")] holds once the file is opened. *)
Definition coverFramesOf (fs : FS) (path : string) : list id3v2.PictureFrame :=
  match id3v2_Open fs path with
  | inl t => id3v2.pictures t
  | inr _ => []
  end.


(** The unique identifiers of a sequence of picture frames. *)
Definition ids (s : list id3v2.PictureFrame) : list string :=
  map id3v2.UniqueIdentifier s.

Definition count {A} (p : A -> bool) (l : list A) : nat :=
  length (List.filter p l).

Definition someAudio : bytes :=
  [Byte.xff; Byte.xfb; Byte.x90; Byte.x64; Byte.x00; Byte.x0f;
   Byte.xf0; Byte.x00; Byte.x00; Byte.x69; Byte.x00; Byte.x00].
Definition otherAudio : bytes :=
  [Byte.xff; Byte.xfb; Byte.x92; Byte.x44; Byte.x4c; Byte.x41;
   Byte.x4d; Byte.x45; Byte.x33; Byte.x2e; Byte.x39; Byte.x39].
Definition jpegBytes : bytes := [Byte.xff; Byte.xd8; Byte.xff; Byte.xe0].

Definition target07 : string := "out/07 - Night Drive.mp3".
Definition cover07 : string := "out/cover.jpg".

Definition coverFile : FileData := {| container := NoTag; audio := jpegBytes |}.
Definition untagged : FileData := {| container := NoTag; audio := someAudio |}.

Definition untaggedFS : FS := {[ target07 := untagged; cover07 := coverFile ]}.

Definition response07 : http.Response :=
  {| http.ContentLength := 12;
     http.Body := {| container := NoTag; audio := otherAudio |};
     http.BodyErr := false |}.

Definition netEnv : Env := mkEnv {[ "https://host/ep07.mp3" := response07 ]} ∅.

Definition artistPhoto : id3v2.PictureFrame :=
  {| id3v2.Encoding_ := id3v2.EncodingISO;
     id3v2.MimeType := "image/png";
     id3v2.PictureType := 0;
     id3v2.Description := "Artist";
     id3v2.Picture := [Byte.x89; Byte.x50] |}.

Definition photoFile : FileData :=
  {| container := Tagged {| id3v2.text := ∅; id3v2.pictures := [artistPhoto];
                            id3v2.other := [] |};
     audio := someAudio |}.

Definition photoFS : FS := {[ target07 := photoFile; cover07 := coverFile ]}.

Definition taggedOnceFS : FS := fst (tagEpisode netEnv untaggedFS target07 cover07).

Definition isDownload (ev : Event) : bool :=
  match ev with EvDownload _ _ => true | _ => false end.

Definition isTag (ev : Event) : bool :=
  match ev with EvTag _ _ => true | _ => false end.

Definition ep07r2 : Rev2.Episode :=
  {| Rev2.Number := "07"; Rev2.Title := "Night Drive";
     Rev2.URL := "https://host/ep07.mp3"; Rev2.ExpectedSize := 0 |}.

Definition brokenFile : FileData :=
  {| container := Unreadable [Byte.x49; Byte.x44; Byte.x33; Byte.x02];
     audio := someAudio |}.

Definition brokenFS : FS := {[ target07 := brokenFile; cover07 := coverFile ]}.

(** ** Measures and invariants of the pipeline *)

Definition b2n (b : bool) : nat := if b then 1%nat else 0%nat.

Definition total {A} (f : A -> nat) (l : list A) : nat := sum_list_with f l.

Definition phaseRank (ph : Rev3.Phase) : nat :=
  match ph with
  | Rev3.Checking => 3
  | Rev3.Fetching => 2
  | Rev3.Tagging _ => 1
  | Rev3.Finished _ => 0
  end.

Definition goroutineRank (w : Episode * Rev3.Goroutine) : nat :=
  match snd w with
  | Rev3.Running ph => 2 + phaseRank ph
  | Rev3.Released _ => 1
  | Rev3.Exited _ => 0
  end.

Definition dispRank (dp : Rev3.Dispatcher) : nat :=
  match dp with
  | Rev3.Loop rest => 7 * length rest + 1
  | Rev3.Send _ rest => 7 * length rest + 7
  | Rev3.Returned => 0
  end.

(** The number of steps a state has left, at most. *)
Definition measure (s : Rev3.State) : nat :=
  dispRank (Rev3.disp s) + total goroutineRank (Rev3.workers s).

Definition sending (dp : Rev3.Dispatcher) : nat :=
  match dp with Rev3.Send _ _ => 1 | _ => 0 end.

(** What holds in every state of a run over the episodes [eps]: the tokens
    in the channel are those of the goroutines inside their body, the wait
    group counts the goroutines that have not exited (and the one about to
    start), and every episode is either dispatched or still in the loop. *)
Definition Inv (eps : list Episode) (s : Rev3.State) : Prop :=
  Rev3.sem s = count Rev3.holdsToken (Rev3.workers s)
  /\ (Rev3.sem s <= Rev3.semCap)%nat
  /\ Rev3.wg s = (count Rev3.notExited (Rev3.workers s) + sending (Rev3.disp s))%nat
  /\ (Rev3.disp s = Rev3.Returned -> Rev3.wg s = 0%nat)
  /\ ((fst <$> Rev3.workers s) ++ Rev3.pending (Rev3.disp s))%list = eps.

Definition coverResponse : http.Response :=
  {| http.ContentLength := 4;
     http.Body := coverFile;
     http.BodyErr := false |}.

Definition fullEnv : Env :=
  mkEnv {[ Rev3.defaultCoverURL := coverResponse; "https://host/ep07.mp3" := response07 ]}
        {[ Rev3.defaultFeedURL := {| gofeed.Items := [item08; itemNews; item07] |} ]}.

Definition loadedDownloader : Downloader :=
  setEpisodes (newDownloader "out" Rev3.defaultFeedURL Rev3.defaultCoverURL)
    [ ep07;
      {| Number := "08"; Title := "Low Tide"; URL := "https://host/ep08.mp3" |} ].

Definition coverOnlyFS : FS := {[ cover07 := coverFile ]}.

(** ** One schedule of the pipeline, to run it

    The dispatcher moves whenever it can; otherwise the first goroutine that
    has not exited does. *)
Fixpoint firstLive (ws : list (Episode * Rev3.Goroutine)) (i : nat)
    : option (nat * Episode * Rev3.Goroutine) :=
  match ws with
  | [] => None
  | (_, Rev3.Exited _) :: ws' => firstLive ws' (S i)
  | (ep, g) :: _ => Some (i, ep, g)
  end.

Definition scheduleWorker (env : Env) (d : Downloader) (s : Rev3.State)
    : option Rev3.State :=
  match firstLive (Rev3.workers s) 0 with
  | Some (i, ep, Rev3.Running (Rev3.Finished o)) =>
      if (0 <? Rev3.sem s)%nat
      then Some {| Rev3.files := Rev3.files s; Rev3.disp := Rev3.disp s;
                   Rev3.workers := <[i := (ep, Rev3.Released o)]> (Rev3.workers s);
                   Rev3.sem := pred (Rev3.sem s); Rev3.wg := Rev3.wg s;
                   Rev3.trace := Rev3.trace s |}
      else None
  | Some (i, ep, Rev3.Running ph) =>
      let '(ph', fs', evs) :=
        Rev3.workerStep env d (Rev3.coverPath d) ep ph (Rev3.files s) in
      Some {| Rev3.files := fs'; Rev3.disp := Rev3.disp s;
              Rev3.workers := <[i := (ep, Rev3.Running ph')]> (Rev3.workers s);
              Rev3.sem := Rev3.sem s; Rev3.wg := Rev3.wg s;
              Rev3.trace := (Rev3.trace s ++ evs)%list |}
  | Some (i, ep, Rev3.Released o) =>
      if (0 <? Rev3.wg s)%nat
      then Some {| Rev3.files := Rev3.files s; Rev3.disp := Rev3.disp s;
                   Rev3.workers := <[i := (ep, Rev3.Exited o)]> (Rev3.workers s);
                   Rev3.sem := Rev3.sem s; Rev3.wg := pred (Rev3.wg s);
                   Rev3.trace := Rev3.trace s |}
      else None
  | _ => None
  end.

Definition schedule (env : Env) (d : Downloader) (s : Rev3.State) : option Rev3.State :=
  match Rev3.disp s with
  | Rev3.Loop (ep :: rest) =>
      Some {| Rev3.files := Rev3.files s; Rev3.disp := Rev3.Send ep rest;
              Rev3.workers := Rev3.workers s; Rev3.sem := Rev3.sem s;
              Rev3.wg := S (Rev3.wg s); Rev3.trace := Rev3.trace s |}
  | Rev3.Send ep rest =>
      if (Rev3.sem s <? Rev3.semCap)%nat
      then Some {| Rev3.files := Rev3.files s; Rev3.disp := Rev3.Loop rest;
                   Rev3.workers := (Rev3.workers s ++ [(ep, Rev3.Running Rev3.Checking)])%list;
                   Rev3.sem := S (Rev3.sem s); Rev3.wg := Rev3.wg s;
                   Rev3.trace := Rev3.trace s |}
      else scheduleWorker env d s
  | Rev3.Loop [] =>
      if (Rev3.wg s =? 0)%nat
      then Some {| Rev3.files := Rev3.files s; Rev3.disp := Rev3.Returned;
                   Rev3.workers := Rev3.workers s; Rev3.sem := Rev3.sem s;
                   Rev3.wg := Rev3.wg s; Rev3.trace := Rev3.trace s |}
      else scheduleWorker env d s
  | Rev3.Returned => None
  end.

Fixpoint runSchedule (env : Env) (d : Downloader) (n : nat) (s : Rev3.State) : Rev3.State :=
  match n with
  | O => s
  | S n' =>
      match schedule env d s with
      | Some s' => runSchedule env d n' s'
      | None => s
      end
  end.


Definition fourEpisodes : Downloader :=
  setEpisodes (newDownloader "out" Rev3.defaultFeedURL Rev3.defaultCoverURL)
    [ {| Number := "05"; Title := "Abe Mangger"; URL := "https://host/ep05.mp3" |};
      {| Number := "06"; Title := "Gabriel"; URL := "https://host/ep06.mp3" |};
      ep07;
      {| Number := "08"; Title := "Low Tide"; URL := "https://host/ep08.mp3" |} ].

(** Three tasks started, the dispatcher at its send for the fourth. *)
Definition busyState : Rev3.State :=
  runSchedule fullEnv fourEpisodes 7 (Rev3.init fourEpisodes coverOnlyFS).

(** ** Further vocabulary: strings and titles *)

Fixpoint allOf (cls : ascii -> bool) (s : string) : bool :=
  match s with
  | EmptyString => true
  | String c s' => cls c && allOf cls s'
  end.

Fixpoint lastChar (s : string) : option ascii :=
  match s with
  | EmptyString => None
  | String c EmptyString => Some c
  | String _ s' => lastChar s'
  end.

(** A title of the shape [Episode<spaces>N:<spaces>T]. *)
Definition titleShape (title number rest : string) : Prop :=
  exists ws ws',
    title = "Episode" ++ ws ++ number ++ ":" ++ ws' ++ rest
    /\ ws <> "" /\ allOf regexp.isSpace ws = true
    /\ allOf regexp.isSpace ws' = true.

(** An episode number of one or more digits, a title of one or more
    characters, none of them a newline. *)
Definition wellFormed (ep : Episode) : Prop :=
  Number ep <> "" /\ allOf regexp.isDigit (Number ep) = true
  /\ Title ep <> "" /\ allOf regexp.isDot (Title ep) = true.

Definition targetOf (d : Downloader) (ep : Episode) : string :=
  Join (OutputDir d) (fileNameOf ep).

(** What one atom of a pattern accepts: the text it consumes at offset
    [pos], with [rest] behind it. *)
Definition atomAccepts (a : regexp.atom) (pos : nat) (text rest : string) : Prop :=
  match a with
  | regexp.BeginText => pos = 0%nat /\ text = ""
  | regexp.EndText => text = "" /\ rest = ""
  | regexp.Lit l => text = l
  | regexp.Rep min cls => (min <= String.length text)%nat /\ allOf cls text = true
  end.

(** The log line, if any, that [loadEpisodes] writes for a feed item. *)
Definition itemLog (item : gofeed.Item) : option LogLine :=
  match gofeed.Enclosures item with
  | [] => None
  | _ :: _ =>
      match regexp.FindStringSubmatch titleRe (gofeed.Title item) with
      | [] => Some (LogUnrecognizedTitle (gofeed.Title item))
      | _ => None
      end
  end.

Definition noEnclosure (item : gofeed.Item) : bool :=
  match gofeed.Enclosures item with [] => true | _ => false end.

(** A revision 2 episode without its expected size. *)
Definition forget (ep : Rev2.Episode) : Episode :=
  {| Number := Rev2.Number ep; Title := Rev2.Title ep; URL := Rev2.URL ep |}.

(** ** Further environments for the examples *)

Definition brokenResponse : http.Response :=
  {| http.ContentLength := 4;
     http.Body := {| container := NoTag; audio := [Byte.x4c] |};
     http.BodyErr := true |}.

Definition brokenEnv : Env :=
  mkEnv {[ Rev3.defaultCoverURL := brokenResponse; "https://host/ep07.mp3" := brokenResponse ]}
        {[ Rev3.defaultFeedURL := {| gofeed.Items := [item07] |} ]}.

Definition offlineEnv : Env := mkEnv ∅ ∅.

(** ** Further vocabulary: the set-up of [main] *)



(** An encoding that gives every tag the ten bytes of a header. *)
Definition headerEnv : Env :=
  {| tagBytes := fun _ => [Byte.x49; Byte.x44; Byte.x33; Byte.x04; Byte.x00;
                           Byte.x00; Byte.x00; Byte.x00; Byte.x00; Byte.x00];
     remote := {[ "https://host/ep07.mp3" :=
                    {| http.ContentLength := 12;
                       http.Body := {| container := NoTag; audio := otherAudio |};
                       http.BodyErr := false |} ]};
     feeds := ∅;
     readonly := ∅ |}.

(** The first task has failed in its fetch and stands before its deferred
    calls. *)
Definition finishedState : Rev3.State :=
  runSchedule fullEnv fourEpisodes 9 (Rev3.init fourEpisodes coverOnlyFS).

Definition response07' : http.Response :=
  {| http.ContentLength := 12;
     http.Body := {| container := NoTag; audio := otherAudio |};
     http.BodyErr := false |}.

(** A server that declares no content length. *)
Definition chunkedEnv : Env :=
  mkEnv {[ "https://host/ep07.mp3" :=
             {| http.ContentLength := -1;
                http.Body := {| container := NoTag; audio := otherAudio |};
                http.BodyErr := false |} ]} ∅.


(** ** Further vocabulary: the pictures of a file *)

(** The APIC frames a file holds, in file order, several of one description
    included; none when the file has no tag the reader accepts. *)
Definition diskPictures (fs : FS) (path : string) : list id3v2.PictureFrame :=
  match fs !! path with
  | Some f => match container f with
              | Tagged t => id3v2.pictures t
              | _ => []
              end
  | None => []
  end.

(** The last frame of a list with a given description. *)
Definition lastDescribed (desc : string) (l : list id3v2.PictureFrame)
    : option id3v2.PictureFrame :=
  last (List.filter (fun pf => String.eqb (id3v2.Description pf) desc) l).

(** The descriptions other than the Tagger's that occur in a list of
    picture frames, each of them once. *)
Definition otherDescriptions (l : list id3v2.PictureFrame) : list string :=
  remove_dups (List.filter (fun x => negb (String.eqb x "Cover"))
                           (map id3v2.Description l)).

(** The text frames and the audio of a file as it lies on disk. *)
Definition diskText (f : FileData) : gmap string string :=
  match container f with
  | Tagged t => id3v2.text t
  | _ => ∅
  end.

(** A file the metadata library opens: one with a tag it accepts, an empty
    one, or one without tag that is no shorter than a tag header. *)
Definition opens (f : FileData) : bool :=
  match container f with
  | NoTag => negb ((0 <? length (audio f))%nat
                   && (length (audio f) <? id3v2.tagHeaderSize)%nat)
  | Tagged _ => true
  | Unreadable _ => false
  end.

(** A file without tag that is shorter than a tag header and not empty. *)
Definition shortOfHeader (f : FileData) : Prop :=
  container f = NoTag
  /\ (0 < length (audio f) < id3v2.tagHeaderSize)%nat.

(** Runs of the revision 3 worker on one episode, one after the other, each
    in the environment of its day. *)
Fixpoint laterRuns (d : Downloader) (coverPath : string) (ep : Episode)
    (envs : list Env) (fs : FS) : FS * list Event :=
  match envs with
  | [] => (fs, [])
  | env :: envs' =>
      let '(fs1, evs) := Rev3.worker env d coverPath ep fs in
      let '(fs2, evs') := laterRuns d coverPath ep envs' fs1 in
      (fs2, (evs ++ evs')%list)
  end.

(** ** Further vocabulary: paths *)

Definition noSlash (s : string) : bool :=
  allOf (fun c => negb (Ascii.eqb c "/")) s.

(** What [Clean] leaves in front of the last element of [p/c] when it keeps
    that element: the cleaned directory and a slash. *)
Definition cleanDir (p : string) : string :=
  let rooted := isRooted (p ++ "/") in
  let kept := fold_left (cleanPush rooted) (splitSlash p) [] in
  (if rooted then "/" else "")
  ++ match kept with
     | [] => ""
     | _ => joinSlash (rev kept) ++ "/"
     end.

(** A file with three pictures: two described [Artist], and between them a
    back cover described [Cover]. *)
Definition backCover : id3v2.PictureFrame :=
  {| id3v2.Encoding_ := id3v2.EncodingISO;
     id3v2.MimeType := "image/png";
     id3v2.PictureType := 4;
     id3v2.Description := "Cover";
     id3v2.Picture := [Byte.x89; Byte.x51] |}.

Definition laterPhoto : id3v2.PictureFrame :=
  {| id3v2.Encoding_ := id3v2.EncodingISO;
     id3v2.MimeType := "image/png";
     id3v2.PictureType := 8;
     id3v2.Description := "Artist";
     id3v2.Picture := [Byte.x89; Byte.x52] |}.

Definition crowdedFile : FileData :=
  {| container := Tagged {| id3v2.text := ∅;
                            id3v2.pictures := [artistPhoto; backCover; laterPhoto];
                            id3v2.other := [] |};
     audio := someAudio |}.

Definition crowdedFS : FS := {[ target07 := crowdedFile; cover07 := coverFile ]}.
(** ** The slice reversal *)

Local Open Scope list_scope.

Lemma swap_ends {A} (pre mid post : list A) (x y : A) :
  swap (Z.of_nat (length pre)) (Z.of_nat (length pre) + Z.of_nat (length (x :: mid ++ [y])) - 1)
       (pre ++ (x :: mid ++ [y]) ++ post)
  = ((pre ++ [y]) ++ mid ++ (x :: post))%list.
Proof.
  unfold swap.
  replace (Z.to_nat (Z.of_nat (length pre))) with (length pre) by lia.
  replace (Z.to_nat (Z.of_nat (length pre) + Z.of_nat (length (x :: mid ++ [y])) - 1))
    with (length (pre ++ x :: mid))
    by (cbn [length]; rewrite !length_app; cbn [length]; lia).
  assert (E1 : (pre ++ (x :: mid ++ [y]) ++ post)%list = (pre ++ x :: (mid ++ y :: post))%list).
  { cbn [app]. rewrite <- app_assoc. reflexivity. }
  assert (E2 : (pre ++ (x :: mid ++ [y]) ++ post)%list = ((pre ++ x :: mid) ++ y :: post)%list).
  { rewrite E1, <- app_assoc. reflexivity. }
  rewrite E1 at 1. rewrite list_lookup_middle by reflexivity.
  rewrite E2 at 1. rewrite list_lookup_middle by reflexivity.
  rewrite E1.
  rewrite (insert_app_r_alt pre) by lia.
  rewrite Nat.sub_diag. cbn [insert list_insert].
  replace (pre ++ y :: mid ++ y :: post)%list with ((pre ++ y :: mid) ++ y :: post)%list
    by (rewrite <- app_assoc; reflexivity).
  rewrite (insert_app_r_alt (pre ++ y :: mid)) by (rewrite !length_app; cbn [length]; lia).
  replace (length (pre ++ x :: mid) - length (pre ++ y :: mid))%nat with 0%nat
    by (rewrite !length_app; cbn [length]; lia).
  cbn [insert list_insert].
  rewrite <- !app_assoc. reflexivity.
Qed.

Lemma reverseLoop_middle {A} (fuel : nat) :
  forall (pre mid post : list A),
    (length mid <= 2 * fuel)%nat ->
    reverseLoop fuel (Z.of_nat (length pre))
                (Z.of_nat (length pre) + Z.of_nat (length mid) - 1)
                (pre ++ mid ++ post)
    = (pre ++ rev mid ++ post)%list.
Proof.
  induction fuel as [|fuel IH]; intros pre mid post Hlen.
  - destruct mid; [reflexivity | cbn in Hlen; lia].
  - cbn [reverseLoop].
    destruct mid as [|x mid].
    { cbn [length]. replace (_ <? _) with false by (symmetry; apply Z.ltb_ge; lia).
      reflexivity. }
    destruct mid as [|y mid _] using rev_ind.
    { cbn [length]. replace (_ <? _) with false by (symmetry; apply Z.ltb_ge; lia).
      reflexivity. }
    replace (_ <? _) with true
      by (symmetry; apply Z.ltb_lt; cbn [length]; rewrite length_app; cbn; lia).
    rewrite swap_ends.
    replace (Z.of_nat (length pre) + 1) with (Z.of_nat (length (pre ++ [y])))
      by (rewrite length_app; cbn; lia).
    replace (Z.of_nat (length pre) + Z.of_nat (length (x :: mid ++ [y])) - 1 - 1)
      with (Z.of_nat (length (pre ++ [y])) + Z.of_nat (length mid) - 1)
      by (cbn [length]; rewrite !length_app; cbn; lia).
    rewrite IH.
    + cbn [rev]. rewrite rev_app_distr. cbn [rev app].
      rewrite <- !app_assoc. reflexivity.
    + cbn [length] in Hlen. rewrite length_app in Hlen. cbn in Hlen. lia.
Qed.

(** The loop reverses the slice. *)
Lemma reverseInPlace_rev {A} (s : list A) : reverseInPlace s = rev s.
Proof.
  unfold reverseInPlace.
  pose proof (reverseLoop_middle (length s) [] s [] ltac:(lia)) as H.
  cbn [length app] in H. rewrite !app_nil_r in H.
  replace (Z.of_nat (length s) - 1) with (Z.of_nat 0 + Z.of_nat (length s) - 1) by lia.
  exact H.
Qed.

(** ** The title pattern *)

Lemma greedy_Some {A} (min k : nat) (try : nat -> option A) (r : A) :
  regexp.greedy min k try = Some r -> exists j, try j = Some r.
Proof.
  induction k as [|k IH]; cbn [regexp.greedy].
  - destruct (0 <? min)%nat; [discriminate|].
    destruct (try 0%nat) eqn:E; [|discriminate].
    intros [= <-]. eauto.
  - destruct (S k <? min)%nat; [discriminate|].
    destruct (try (S k)) eqn:E.
    + intros [= <-]. eauto.
    + exact IH.
Qed.

(** A match yields one string per capturing group. *)
Lemma matchAt_groups (re : regexp.Regexp) :
  forall pos s n groups,
    regexp.matchAt re pos s = Some (n, groups) ->
    length groups = countGroups re.
Proof.
  unfold countGroups.
  induction re as [|p re IH]; intros pos s n groups; cbn [regexp.matchAt].
  - intros [= <- <-]. reflexivity.
  - assert (Hwc : forall text r pos' s',
               regexp.withCapture p text <$> regexp.matchAt re pos' s' = Some r ->
               length (snd r) = length (List.filter regexp.capture (p :: re))).
    { intros text r pos' s' H.
      destruct (regexp.matchAt re pos' s') as [[n' g']|] eqn:E; [|discriminate].
      cbn in H. injection H as <-. apply IH in E.
      unfold regexp.withCapture. cbn [snd List.filter].
      destruct (regexp.capture p); cbn [length]; congruence. }
    destruct (regexp.body p) as [| |l|min cls].
    + destruct (pos =? 0)%nat; [|discriminate].
      intros H. apply Hwc in H. exact H.
    + destruct s; [|discriminate]. intros H. apply Hwc in H. exact H.
    + destruct (stripPrefix l s); [|discriminate]. intros H. apply Hwc in H. exact H.
    + intros H. apply greedy_Some in H as [j H]. apply Hwc in H. exact H.
Qed.

Lemma findFrom_groups (re : regexp.Regexp) (s : string) :
  forall pos whole groups,
    regexp.findFrom re pos s = Some (whole, groups) ->
    length groups = countGroups re.
Proof.
  induction s as [|c s IH]; intros pos whole groups; cbn [regexp.findFrom].
  - destruct (regexp.matchAt re pos "") as [[n g]|] eqn:E; [|discriminate].
    intros [= <- <-]. eapply matchAt_groups; eassumption.
  - destruct (regexp.matchAt re pos (String c s)) as [[n g]|] eqn:E.
    + intros [= <- <-]. eapply matchAt_groups; eassumption.
    + apply IH.
Qed.

(** [FindStringSubmatch] on the title pattern gives nil or three strings. *)
Lemma titleRe_submatch (title : string) :
  regexp.FindStringSubmatch titleRe title = []
  \/ exists whole number rest,
       regexp.FindStringSubmatch titleRe title = [whole; number; rest].
Proof.
  unfold regexp.FindStringSubmatch.
  destruct (regexp.findFrom titleRe 0 title) as [[whole groups]|] eqn:E; [|by left].
  right. apply findFrom_groups in E. cbn in E.
  destruct groups as [|g1 [|g2 [|g3 groups]]]; try discriminate.
  eauto.
Qed.

Example title_example :
  regexp.FindStringSubmatch titleRe "Episode 07: Night Drive"
  = ["Episode 07: Night Drive"; "07"; "Night Drive"].
Proof. reflexivity. Qed.

(** [\s*] gives back one space so that [(.+)] has something to match. *)
Example title_only_spaces :
  regexp.FindStringSubmatch titleRe "Episode 07:   " = ["Episode 07:   "; "07"; " "].
Proof. reflexivity. Qed.

Example title_lower_case : regexp.FindStringSubmatch titleRe "episode 7: x" = [].
Proof. reflexivity. Qed.

Example title_no_title : regexp.FindStringSubmatch titleRe "Episode 7:" = [].
Proof. reflexivity. Qed.

Example ParseInt_examples :
  strconv.ParseInt "52428800" = Some 52428800
  /\ strconv.ParseInt "-5" = Some (-5)
  /\ strconv.ParseInt "" = None
  /\ strconv.ParseInt "+" = None
  /\ strconv.ParseInt "1_0" = None
  /\ strconv.ParseInt "9223372036854775807" = Some (2 ^ 63 - 1)
  /\ strconv.ParseInt "9223372036854775808" = None.
Proof. repeat split; reflexivity. Qed.

(** ** The feed loader *)

Lemma loadItem_fst (eps : list Episode) (log : list LogLine) (item : gofeed.Item) :
  fst (loadItem (eps, log) item) = (eps ++ optionList (itemEpisode item))%list.
Proof.
  unfold loadItem, itemEpisode.
  destruct (gofeed.Enclosures item) as [|e0 more]; cbn [length Nat.eqb].
  { cbn. by rewrite app_nil_r. }
  destruct (titleRe_submatch (gofeed.Title item)) as [-> | (w & n & t & ->)]; cbn.
  - by rewrite app_nil_r.
  - reflexivity.
Qed.

Lemma loadItems_fst (items : list gofeed.Item) :
  forall eps log,
    fst (fold_left loadItem items (eps, log)) = (eps ++ omap itemEpisode items)%list.
Proof.
  induction items as [|item items IH]; intros eps log; cbn [fold_left omap list_omap].
  - by rewrite app_nil_r.
  - destruct (loadItem (eps, log) item) as [eps1 log1] eqn:E.
    rewrite IH. pose proof (loadItem_fst eps log item) as H. rewrite E in H.
    cbn [fst] in H. subst eps1. rewrite <- app_assoc. f_equal.
    destruct (itemEpisode item); reflexivity.
Qed.

Lemma loadEpisodes_spec (env : Env) (d : Downloader) (feed : gofeed.Feed) :
  feeds env !! FeedURL d = Some feed ->
  exists log,
    loadEpisodes env d
    = (setEpisodes d (rev (Episodes d ++ omap itemEpisode (gofeed.Items feed))), None, log).
Proof.
  intros Hfeed. unfold loadEpisodes. rewrite Hfeed.
  destruct (fold_left loadItem (gofeed.Items feed) (Episodes d, [])) as [eps log] eqn:E.
  pose proof (loadItems_fst (gofeed.Items feed) (Episodes d) []) as H.
  rewrite E in H. cbn [fst] in H. subst eps.
  rewrite reverseInPlace_rev. eauto.
Qed.

Lemma loadItem2_fst (eps : list Rev2.Episode) (log : list LogLine) (item : gofeed.Item) :
  fst (Rev2.loadItem (eps, log) item) = (eps ++ optionList (itemEpisode2 item))%list.
Proof.
  unfold Rev2.loadItem, itemEpisode2.
  destruct (gofeed.Enclosures item) as [|e0 more]; cbn [length Nat.eqb].
  { cbn. by rewrite app_nil_r. }
  destruct (titleRe_submatch (gofeed.Title item)) as [-> | (w & n & t & ->)]; cbn.
  - by rewrite app_nil_r.
  - do 2 f_equal.
    destruct (String.eqb (gofeed.Length e0) "") eqn:El; cbn [negb]; [|reflexivity].
    apply String.eqb_eq in El. rewrite El. reflexivity.
Qed.

Lemma loadItems2_fst (items : list gofeed.Item) :
  forall eps log,
    fst (fold_left Rev2.loadItem items (eps, log)) = (eps ++ omap itemEpisode2 items)%list.
Proof.
  induction items as [|item items IH]; intros eps log; cbn [fold_left omap list_omap].
  - by rewrite app_nil_r.
  - destruct (Rev2.loadItem (eps, log) item) as [eps1 log1] eqn:E.
    rewrite IH. pose proof (loadItem2_fst eps log item) as H. rewrite E in H.
    cbn [fst] in H. subst eps1. rewrite <- app_assoc. f_equal.
    destruct (itemEpisode2 item); reflexivity.
Qed.

Lemma loadEpisodes2_spec (env : Env) (url : string) (eps0 : list Rev2.Episode)
    (feed : gofeed.Feed) :
  feeds env !! url = Some feed ->
  exists log,
    Rev2.loadEpisodes env url eps0
    = (rev (eps0 ++ omap itemEpisode2 (gofeed.Items feed)), None, log).
Proof.
  intros Hfeed. unfold Rev2.loadEpisodes. rewrite Hfeed.
  destruct (fold_left Rev2.loadItem (gofeed.Items feed) (eps0, [])) as [eps log] eqn:E.
  pose proof (loadItems2_fst (gofeed.Items feed) eps0 []) as H.
  rewrite E in H. cbn [fst] in H. subst eps.
  rewrite reverseInPlace_rev. eauto.
Qed.

Lemma descending_rev (l : list Z) : descending l -> ascending (rev l).
Proof.
  unfold descending, ascending.
  induction l as [|x l IH]; cbn [rev]; intros H.
  - constructor.
  - apply StronglySorted_cons in H as [Hx Hl].
    apply StronglySorted_app. split; [|split]; [|by apply IH|repeat constructor].
    intros a b Ha Hb. apply list_elem_of_singleton in Hb as ->.
    apply list_elem_of_In in Ha. apply in_rev in Ha. apply list_elem_of_In in Ha.
    rewrite Forall_forall in Hx. specialize (Hx a Ha). lia.
Qed.

Lemma itemEpisode_excluded (item : gofeed.Item) :
  gofeed.Enclosures item = [] \/ ~ titleMatches (gofeed.Title item) ->
  itemEpisode item = None /\ itemEpisode2 item = None.
Proof.
  unfold itemEpisode, itemEpisode2, titleMatches. intros [-> | Hno]; [done|].
  destruct (regexp.FindStringSubmatch titleRe (gofeed.Title item)) as [|w l].
  - by destruct (gofeed.Enclosures item).
  - exfalso. apply Hno. discriminate.
Qed.

Lemma collected_omap (items : list gofeed.Item) :
  collected items = omap itemEpisode items.
Proof. unfold collected. by rewrite loadItems_fst. Qed.

(** C5: when the episode numbers of the items the loader collects are
    strictly descending in feed order, the loader succeeds and its episode
    list is the reversal of the collected list, strictly ascending by episode
    number. *)
Theorem loadEpisodes_ascending (env : Env) (d : Downloader) (feed : gofeed.Feed) :
  feeds env !! FeedURL d = Some feed ->
  Episodes d = [] ->
  descending (episodeNumber <$> collected (gofeed.Items feed)) ->
  exists d' log,
    loadEpisodes env d = (d', None, log)
    /\ Episodes d' = rev (collected (gofeed.Items feed))
    /\ ascending (episodeNumber <$> Episodes d').
Proof.
  intros Hfeed Hnil Hdesc.
  destruct (loadEpisodes_spec env d feed Hfeed) as [log Hload].
  rewrite Hnil in Hload. cbn [app] in Hload. rewrite <- collected_omap in Hload.
  eexists _, log. split; [exact Hload|]. cbn [Episodes setEpisodes].
  split; [reflexivity|].
  change (episodeNumber <$> rev (collected (gofeed.Items feed)))
    with (map episodeNumber (rev (collected (gofeed.Items feed)))).
  rewrite map_rev. by apply descending_rev.
Qed.

Lemma loadEpisodes_ascending_witness :
  exists d' log,
    loadEpisodes (feedEnv [item08; itemNews; item07]) exampleDownloader = (d', None, log)
    /\ Episodes d' = rev (collected [item08; itemNews; item07])
    /\ ascending (episodeNumber <$> Episodes d').
Proof.
  apply (loadEpisodes_ascending (feedEnv [item08; itemNews; item07]) exampleDownloader
           {| gofeed.Items := [item08; itemNews; item07] |}).
  - reflexivity.
  - reflexivity.
  - vm_compute. repeat constructor.
Defined.

(** C6: a feed item without an enclosure, or with a title the pattern does
    not match, leaves no record: the load succeeds with exactly the episode
    list that the feed without that item gives. *)
Theorem loadEpisodes_skips_item (env : Env) (d : Downloader)
    (before after : list gofeed.Item) (bad : gofeed.Item) :
  feeds env !! FeedURL d = Some {| gofeed.Items := before ++ bad :: after |} ->
  gofeed.Enclosures bad = [] \/ ~ titleMatches (gofeed.Title bad) ->
  exists d' log,
    loadEpisodes env d = (d', None, log)
    /\ Episodes d' = rev (Episodes d ++ collected (before ++ after))
    /\ forall env',
         feeds env' !! FeedURL d = Some {| gofeed.Items := before ++ after |} ->
         exists log', loadEpisodes env' d = (d', None, log').
Proof.
  intros Hfeed Hbad.
  destruct (loadEpisodes_spec env d _ Hfeed) as [log Hload].
  cbn [gofeed.Items] in Hload.
  assert (Hsame : omap itemEpisode (before ++ bad :: after)
                  = omap itemEpisode (before ++ after)).
  { rewrite !omap_app. cbn [omap list_omap].
    destruct (itemEpisode_excluded bad Hbad) as [-> _]. reflexivity. }
  rewrite Hsame in Hload.
  eexists _, log. split; [exact Hload|]. cbn [Episodes setEpisodes].
  split; [by rewrite collected_omap|].
  intros env' Hfeed'. exact (loadEpisodes_spec env' d _ Hfeed').
Qed.

Lemma loadEpisodes_skips_item_witness :
  exists d' log,
    loadEpisodes (feedEnv [item08; itemNews; item07]) exampleDownloader = (d', None, log)
    /\ Episodes d' = rev (Episodes exampleDownloader ++ collected ([item08] ++ [item07]))
    /\ forall env',
         feeds env' !! FeedURL exampleDownloader
           = Some {| gofeed.Items := [item08] ++ [item07] |} ->
         exists log', loadEpisodes env' exampleDownloader = (d', None, log').
Proof.
  apply (loadEpisodes_skips_item (feedEnv [item08; itemNews; item07]) exampleDownloader
           [item08] [item07] itemNews).
  - reflexivity.
  - right. unfold titleMatches. vm_compute. intros H. apply H. reflexivity.
Defined.

(** C8: the feed item "Episode 07: Night Drive" with the enclosure
    https://host/ep07.mp3 loads as the episode with number "07", title
    "Night Drive" and that URL, and its file name is "07 - Night Drive.mp3". *)
Theorem night_drive_example (env : Env) (d : Downloader)
    (e0 : gofeed.Enclosure) (more : list gofeed.Enclosure) :
  feeds env !! FeedURL d
    = Some {| gofeed.Items := [ {| gofeed.Title := "Episode 07: Night Drive";
                                   gofeed.Enclosures := e0 :: more |} ] |} ->
  gofeed.URL e0 = "https://host/ep07.mp3" ->
  Episodes d = [] ->
  exists d' log,
    loadEpisodes env d = (d', None, log)
    /\ Episodes d'
       = [ {| Number := "07"; Title := "Night Drive"; URL := "https://host/ep07.mp3" |} ]
    /\ Forall (fun ep => fileNameOf ep = "07 - Night Drive.mp3") (Episodes d').
Proof.
  intros Hfeed Hurl Hnil.
  destruct (loadEpisodes_spec env d _ Hfeed) as [log Hload].
  rewrite Hnil in Hload. cbn [app gofeed.Items omap list_omap] in Hload.
  assert (Hitem : itemEpisode {| gofeed.Title := "Episode 07: Night Drive";
                                 gofeed.Enclosures := e0 :: more |} = Some ep07).
  { unfold itemEpisode. cbn [gofeed.Enclosures gofeed.Title].
    replace (regexp.FindStringSubmatch titleRe "Episode 07: Night Drive")
      with ["Episode 07: Night Drive"; "07"; "Night Drive"] by (vm_compute; reflexivity).
    rewrite Hurl. reflexivity. }
  rewrite Hitem in Hload. cbn [rev app] in Hload.
  eexists _, log. split; [exact Hload|]. cbn [Episodes setEpisodes].
  split; [reflexivity|]. repeat constructor.
Qed.

Lemma night_drive_example_witness :
  exists d' log,
    loadEpisodes (feedEnv [item07]) exampleDownloader = (d', None, log)
    /\ Episodes d'
       = [ {| Number := "07"; Title := "Night Drive"; URL := "https://host/ep07.mp3" |} ]
    /\ Forall (fun ep => fileNameOf ep = "07 - Night Drive.mp3") (Episodes d').
Proof.
  apply (night_drive_example (feedEnv [item07]) exampleDownloader
           (enclosure "https://host/ep07.mp3") []).
  - reflexivity.
  - reflexivity.
  - reflexivity.
Defined.

(** C9: for an item with at least one enclosure and a matching title, the
    episode's URL is that of the first enclosure, in the loaders of all
    revisions; whatever enclosures follow the first make no difference. *)
Theorem first_enclosure_only (item : gofeed.Item)
    (e0 : gofeed.Enclosure) (more : list gofeed.Enclosure)
    (eps : list Episode) (eps2 : list Rev2.Episode) (log : list LogLine) :
  gofeed.Enclosures item = e0 :: more ->
  titleMatches (gofeed.Title item) ->
  exists ep ep2,
    loadItem (eps, log) item = ((eps ++ [ep])%list, log)
    /\ URL ep = gofeed.URL e0
    /\ Rev2.loadItem (eps2, log) item = ((eps2 ++ [ep2])%list, log)
    /\ Rev2.URL ep2 = gofeed.URL e0
    /\ forall more',
         let item' := {| gofeed.Title := gofeed.Title item;
                         gofeed.Enclosures := e0 :: more' |} in
         loadItem (eps, log) item' = loadItem (eps, log) item
         /\ Rev2.loadItem (eps2, log) item' = Rev2.loadItem (eps2, log) item.
Proof.
  intros Henc Hmatch. unfold titleMatches in Hmatch.
  destruct (titleRe_submatch (gofeed.Title item)) as [E | (w & n & t & E)]; [done|].
  unfold loadItem, Rev2.loadItem. cbn [gofeed.Title gofeed.Enclosures].
  rewrite Henc, E. cbn [length Nat.eqb negb].
  eexists _, _. repeat split.
Qed.

Lemma first_enclosure_only_witness :
  exists ep ep2,
    loadItem ([], []) item08 = (([] ++ [ep])%list, [])
    /\ URL ep = gofeed.URL (enclosure "https://host/ep08.mp3")
    /\ Rev2.loadItem ([], []) item08 = (([] ++ [ep2])%list, [])
    /\ Rev2.URL ep2 = gofeed.URL (enclosure "https://host/ep08.mp3")
    /\ forall more',
         let item' := {| gofeed.Title := gofeed.Title item08;
                         gofeed.Enclosures := enclosure "https://host/ep08.mp3" :: more' |} in
         loadItem ([], []) item' = loadItem ([], []) item08
         /\ Rev2.loadItem ([], []) item' = Rev2.loadItem ([], []) item08.
Proof.
  apply (first_enclosure_only item08 (enclosure "https://host/ep08.mp3")
           [enclosure "https://mirror/ep08.ogg"] [] [] []).
  - reflexivity.
  - unfold titleMatches. vm_compute. discriminate.
Defined.

(** ** The metadata library: sequences of picture frames *)

Lemma addToSequence_fresh (pf : id3v2.PictureFrame) (s : list id3v2.PictureFrame) :
  id3v2.UniqueIdentifier pf ∉ ids s ->
  id3v2.addToSequence pf s = s ++ [pf].
Proof.
  induction s as [|ff s IH]; cbn [id3v2.addToSequence ids map app]; intros Hnot.
  - reflexivity.
  - apply not_elem_of_cons in Hnot as [Hne Hnot].
    destruct (String.eqb_spec (id3v2.UniqueIdentifier pf) (id3v2.UniqueIdentifier ff));
      [done|].
    by rewrite IH.
Qed.

Lemma addToSequence_ids (pf : id3v2.PictureFrame) (s : list id3v2.PictureFrame) :
  ids (id3v2.addToSequence pf s)
  = if decide (id3v2.UniqueIdentifier pf ∈ ids s) then ids s
    else ids s ++ [id3v2.UniqueIdentifier pf].
Proof.
  induction s as [|ff s IH]; cbn [id3v2.addToSequence ids map app].
  - case_decide as H; [by apply elem_of_nil in H | reflexivity].
  - destruct (String.eqb_spec (id3v2.UniqueIdentifier pf) (id3v2.UniqueIdentifier ff))
      as [E|E].
    + cbn [map]. rewrite E. rewrite decide_True by left. reflexivity.
    + cbn [map]. change (map id3v2.UniqueIdentifier) with ids. rewrite IH.
      destruct (decide (id3v2.UniqueIdentifier pf ∈ ids s)) as [H1|H1].
      * rewrite decide_True by (by right). reflexivity.
      * rewrite decide_False; [reflexivity|].
        intros [?|?]%elem_of_cons; done.
Qed.

Lemma addToSequence_NoDup (pf : id3v2.PictureFrame) (s : list id3v2.PictureFrame) :
  NoDup (ids s) -> NoDup (ids (id3v2.addToSequence pf s)).
Proof.
  intros Hnd. rewrite addToSequence_ids. case_decide as H; [done|].
  apply NoDup_app. split; [done|]. split; [|apply NoDup_singleton].
  intros x Hx Hx'. apply list_elem_of_singleton in Hx' as ->. done.
Qed.

Lemma addToSequence_length (pf : id3v2.PictureFrame) (s : list id3v2.PictureFrame) :
  length (id3v2.addToSequence pf s)
  = if decide (id3v2.UniqueIdentifier pf ∈ ids s) then length s else S (length s).
Proof.
  pose proof (f_equal length (addToSequence_ids pf s)) as H.
  unfold ids in H at 1. rewrite length_map in H. rewrite H.
  case_decide; unfold ids; rewrite ?length_app, length_map; cbn [length]; lia.
Qed.



(** Parsing: the frames of the file, added one by one. *)
Lemma parse_NoDup_from (l s : list id3v2.PictureFrame) :
  NoDup (ids s) ->
  NoDup (ids (fold_left (fun s pf => id3v2.addToSequence pf s) l s)).
Proof.
  revert s. induction l as [|pf l IH]; intros s Hs; cbn [fold_left]; [done|].
  apply IH. by apply addToSequence_NoDup.
Qed.

Lemma parse_NoDup (t : id3v2.Tag) : NoDup (ids (id3v2.pictures (id3v2.parse t))).
Proof. apply parse_NoDup_from. constructor. Qed.

Lemma parse_fixed_from (l s : list id3v2.PictureFrame) :
  NoDup (ids (s ++ l)) ->
  fold_left (fun s pf => id3v2.addToSequence pf s) l s = s ++ l.
Proof.
  revert s. induction l as [|pf l IH]; intros s Hnd; cbn [fold_left].
  - by rewrite app_nil_r.
  - rewrite addToSequence_fresh.
    + rewrite IH; rewrite <- app_assoc; [reflexivity | exact Hnd].
    + unfold ids in *. rewrite map_app in Hnd. apply NoDup_app in Hnd as (_ & Hd & _).
      intros Hin. apply (Hd _ Hin). cbn [map]. left.
Qed.

(** A sequence without repeated identifiers is read back as it was written. *)
Lemma parse_fixed (t : id3v2.Tag) :
  NoDup (ids (id3v2.pictures t)) -> id3v2.parse t = t.
Proof.
  intros Hnd. destruct t as [tx ps ot]. unfold id3v2.parse. cbn [id3v2.text id3v2.pictures id3v2.other] in *.
  by rewrite (parse_fixed_from ps []).
Qed.

Lemma parse_nonempty (t : id3v2.Tag) :
  id3v2.pictures (id3v2.parse t) <> [] <-> id3v2.pictures t <> [].
Proof.
  destruct t as [tx ps ot]. unfold id3v2.parse. cbn [id3v2.text id3v2.pictures id3v2.other].
  destruct ps as [|pf ps]; cbn [fold_left]; [done|].
  split; [done|]. intros _ Hnil.
  assert (Hlen : forall l s, (length s <= length (fold_left (fun s pf => id3v2.addToSequence pf s) l s))%nat).
  { induction l as [|x l IH]; intros s; cbn [fold_left]; [lia|].
    etransitivity; [|apply IH]. rewrite addToSequence_length. case_decide; lia. }
  specialize (Hlen ps (id3v2.addToSequence pf [])). rewrite Hnil in Hlen.
  cbn in Hlen. lia.
Qed.




(** ** The completion checker *)

Lemma GetFrames_APIC (t : id3v2.Tag) :
  id3v2.GetFrames t "APIC" = id3v2.FPicture <$> id3v2.pictures t.
Proof. reflexivity. Qed.

Lemma Album_is (t : id3v2.Tag) :
  String.eqb (id3v2.Album t) albumName = true
  <-> id3v2.text t !! "TALB" = Some albumName.
Proof.
  unfold id3v2.Album. rewrite String.eqb_eq.
  destruct (id3v2.text t !! "TALB") as [a|]; simpl.
  - split; [intros -> | intros [= ->]]; reflexivity.
  - split; discriminate.
Qed.

Lemma metadataComplete_Open (fs : FS) (path : string) :
  fst (metadataComplete fs path) = true
  <-> exists t, id3v2_Open fs path = inl t
                /\ id3v2.text t !! "TALB" = Some albumName
                /\ id3v2.pictures t <> [].
Proof.
  unfold metadataComplete.
  destruct (id3v2_Open fs path) as [t|e]; cbn [fst].
  2:{ split; [discriminate | by intros (t & ? & _)]. }
  rewrite GetFrames_APIC, length_fmap.
  destruct (String.eqb (id3v2.Album t) albumName) eqn:Ea; cbn [negb fst].
  - apply Album_is in Ea.
    destruct (id3v2.pictures t) as [|pf ps] eqn:Ep; cbn [length Nat.eqb fst].
    + split; [discriminate|]. intros (t' & [= <-] & _ & Hp). by rewrite Ep in Hp.
    + split; [|done]. intros _. exists t. rewrite Ep. done.
  - split; [discriminate|]. intros (t' & [= <-] & Ha & _).
    apply Album_is in Ha. congruence.
Qed.

Lemma metadataComplete_iff (fs : FS) (path : string) :
  fst (metadataComplete fs path) = true <-> isComplete fs path.
Proof.
  rewrite metadataComplete_Open. unfold isComplete, id3v2_Open.
  destruct (fs !! path) as [f|].
  2:{ split; [by intros (t & ? & _) | by intros (f & t & ? & _)]. }
  destruct (container f) as [|t|raw] eqn:Ec.
  - split.
    + intros (t & Ht & Ha & _). cbv zeta in Ht.
      destruct (_ && _) in Ht; [done|]. injection Ht as <-.
      cbn [id3v2.emptyTag id3v2.text] in Ha.
      by rewrite lookup_empty in Ha.
    + intros (f' & t & [= <-] & ? & _). congruence.
  - split.
    + intros (t' & [= <-] & Ha & Hp). exists f, t.
      apply (proj1 (parse_nonempty t)) in Hp. done.
    + intros (f' & t' & [= <-] & Ec' & Ha & Hp). rewrite Ec in Ec'. injection Ec' as <-.
      exists (id3v2.parse t). apply (proj2 (parse_nonempty t)) in Hp. done.
  - split.
    + by intros (t & ? & _).
    + intros (f' & t & [= <-] & ? & _). congruence.
Qed.

Lemma metadataComplete_error (fs : FS) (path : string) (e : error) :
  snd (metadataComplete fs path) = Some e -> fst (metadataComplete fs path) = false.
Proof.
  unfold metadataComplete. destruct (id3v2_Open fs path); [|done].
  destruct (negb _); [done|]. destruct (_ =? _)%nat; done.
Qed.

Lemma fileIsComplete_iff (fs : FS) (url path : string) (expectedSize : Z) :
  Rev2.fileIsComplete fs url path expectedSize = true <-> isComplete fs path.
Proof.
  rewrite <- metadataComplete_iff. unfold Rev2.fileIsComplete.
  pose proof (metadataComplete_error fs path) as Herr.
  destruct (metadataComplete fs path) as [metaOk err]. cbn [fst snd] in *.
  destruct err as [e|].
  - rewrite (Herr e eq_refl). done.
  - rewrite bool_decide_eq_true_2 by done. cbn [negb orb]. by destruct metaOk.
Qed.

Lemma Stat_isNil (env : Env) (fs : FS) (path : string) :
  isNil (os.Stat env fs path) = true <-> is_Some (fs !! path).
Proof.
  unfold os.Stat. destruct (fs !! path); cbn [isNil]; split; try done.
Qed.

Lemma checking_complete_iff (env : Env) (d : Downloader) (cover : string)
    (ep : Episode) (fs : FS) :
  fst (fst (Rev3.workerStep env d cover ep Rev3.Checking fs)) = Rev3.Finished Rev3.Complete
  <-> isComplete fs (Join (OutputDir d) (fileNameOf ep)).
Proof.
  rewrite <- metadataComplete_iff. cbn [Rev3.workerStep].
  set (target := Join (OutputDir d) (fileNameOf ep)).
  destruct (isNil (os.Stat env fs target)) eqn:Es.
  - destruct (metadataComplete fs target) as [metaOk err]. cbn [fst].
    destruct metaOk; cbn [fst]; split; done.
  - cbn [fst]. split; [done|]. intros Hc. apply metadataComplete_iff in Hc.
    destruct Hc as (f & t & Hf & _).
    assert (isNil (os.Stat env fs target) = true) by (apply Stat_isNil; eauto).
    congruence.
Qed.

Lemma fileComplete_iff (env : Env) (fs : FS) (url path : string) :
  Rev1.fileComplete env fs url path = true
  <-> exists f resp,
        fs !! path = Some f
        /\ remote env !! url = Some resp
        /\ Z.of_nat (length (fileBytes env f)) = http.ContentLength resp.
Proof.
  unfold Rev1.fileComplete, os.Stat.
  destruct (fs !! path) as [f|]; [|split; [done | by intros (? & ? & ? & _)]].
  destruct (remote env !! url) as [resp|]; [|split; [done | by intros (? & ? & _ & ? & _)]].
  rewrite Z.eqb_eq. split.
  - intros H. eauto.
  - intros (f' & resp' & [= <-] & [= <-] & H). exact H.
Qed.

(** C1 (as the code has it): in revisions 2 and 3 the checker judges a file
    complete exactly when it exists, its album frame holds the album constant
    and it carries at least one APIC frame; the checker of revision 1 judges
    by size alone: the file exists, the HEAD request succeeds, and the size
    of the file equals the declared content length. *)
Theorem completion_checker (env : Env) (d : Downloader) (cover : string)
    (ep : Episode) (fs : FS) (url path : string) (expectedSize : Z) :
  (fst (metadataComplete fs path) = true <-> isComplete fs path)
  /\ (Rev2.fileIsComplete fs url path expectedSize = true <-> isComplete fs path)
  /\ (fst (fst (Rev3.workerStep env d cover ep Rev3.Checking fs))
        = Rev3.Finished Rev3.Complete
      <-> isComplete fs (Join (OutputDir d) (fileNameOf ep)))
  /\ (Rev1.fileComplete env fs url path = true
      <-> exists f resp,
            fs !! path = Some f
            /\ remote env !! url = Some resp
            /\ Z.of_nat (length (fileBytes env f)) = http.ContentLength resp).
Proof.
  split; [apply metadataComplete_iff|].
  split; [apply fileIsComplete_iff|].
  split; [apply checking_complete_iff | apply fileComplete_iff].
Qed.

(** C1 fails for revision 1: a file without any tag, of the size the server
    declares, is judged complete. *)
Lemma fileComplete_untagged :
  Rev1.fileComplete netEnv untaggedFS "https://host/ep07.mp3" target07 = true
  /\ ~ isComplete untaggedFS target07.
Proof.
  split; [reflexivity|].
  intros (f & t & Hf & Hc & _).
  assert (Hu : untaggedFS !! target07 = Some untagged) by reflexivity.
  rewrite Hu in Hf. injection Hf as <-. discriminate.
Qed.

(** ** The tagger *)

Lemma Open_NoDup (fs : FS) (path : string) (t : id3v2.Tag) :
  id3v2_Open fs path = inl t -> NoDup (ids (id3v2.pictures t)).
Proof.
  unfold id3v2_Open. destruct (fs !! path) as [f|]; [|done].
  destruct (container f) as [|t0|raw]; [| intros [= <-]; apply parse_NoDup | done].
  cbv zeta. destruct (_ && _); [done|]. intros [= <-]. constructor.
Qed.

(** The pictures the reader finds are those of the file, added one by one. *)
Lemma Open_pictures (fs : FS) (path : string) (t : id3v2.Tag) :
  id3v2_Open fs path = inl t ->
  id3v2.pictures t
  = fold_left (fun s pf => id3v2.addToSequence pf s) (diskPictures fs path) [].
Proof.
  unfold id3v2_Open, diskPictures. destruct (fs !! path) as [f|]; [|done].
  destruct (container f) as [|t0|raw]; [| by intros [= <-] | done].
  cbv zeta. destruct (_ && _); [done|]. by intros [= <-].
Qed.

Lemma addToSequence_In (pf x : id3v2.PictureFrame) (s : list id3v2.PictureFrame) :
  NoDup (ids s) ->
  pf ∈ id3v2.addToSequence x s
  <-> pf = x \/ (pf ∈ s /\ id3v2.UniqueIdentifier pf <> id3v2.UniqueIdentifier x).
Proof.
  induction s as [|g s IH]; intros Hnd; cbn [id3v2.addToSequence].
  - rewrite list_elem_of_singleton. split; [by left|].
    intros [?|[H _]]; [done|]. by apply not_elem_of_nil in H.
  - cbn [ids map] in Hnd. apply NoDup_cons in Hnd as [Hg Hnd].
    destruct (String.eqb_spec (id3v2.UniqueIdentifier x) (id3v2.UniqueIdentifier g)) as [E|E].
    + rewrite !elem_of_cons. split.
      * intros [?|Hin]; [by left|]. right. split; [by right|].
        intros Heq. apply Hg. rewrite <- E, <- Heq.
        apply list_elem_of_fmap. by exists pf.
      * intros [?|[[->|Hin] Hne]]; [by left | congruence | by right].
    + rewrite !elem_of_cons, (IH Hnd). split.
      * intros [->|[?|[Hin Hne]]]; [|by left|].
        -- right. split; [by left | congruence].
        -- right. split; [by right | done].
      * intros [?|[[->|Hin] Hne]]; [right; by left | by left |].
        right. right. done.
Qed.

Lemma filter_described_nil (k : string) (l : list id3v2.PictureFrame) :
  List.filter (fun pf => String.eqb (id3v2.Description pf) k) l = []
  <-> k ∉ map id3v2.Description l.
Proof.
  induction l as [|x l IH]; cbn [List.filter map].
  - split; [intros _; apply not_elem_of_nil | done].
  - rewrite not_elem_of_cons.
    destruct (String.eqb_spec (id3v2.Description x) k) as [E|E].
    + split; [done | intros [Hne _]; congruence].
    + rewrite IH. split; [intros ?; split; [congruence | done] | by intros [_ ?]].
Qed.

(** Of the frames added one by one the last of each description stays;
    a frame that was there before stays when none of its description is
    added. *)
Lemma fold_addToSequence_In (l s : list id3v2.PictureFrame) (pf : id3v2.PictureFrame) :
  NoDup (ids s) ->
  pf ∈ fold_left (fun s pf => id3v2.addToSequence pf s) l s
  <-> lastDescribed (id3v2.Description pf) l = Some pf
      \/ ((id3v2.Description pf ∉ map id3v2.Description l) /\ pf ∈ s).
Proof.
  revert s. induction l as [|x l IH]; intros s Hnd; cbn [fold_left].
  - unfold lastDescribed. cbn [List.filter last map]. split.
    + intros H. right. split; [apply not_elem_of_nil | done].
    + intros [?|[_ ?]]; done.
  - rewrite (IH _ (addToSequence_NoDup _ _ Hnd)), (addToSequence_In _ _ _ Hnd).
    unfold lastDescribed. cbn [List.filter map]. rewrite not_elem_of_cons.
    change (id3v2.UniqueIdentifier pf) with (id3v2.Description pf).
    change (id3v2.UniqueIdentifier x) with (id3v2.Description x).
    pose proof (filter_described_nil (id3v2.Description pf) l) as Hnil.
    destruct (String.eqb_spec (id3v2.Description x) (id3v2.Description pf)) as [E|E].
    + destruct (List.filter _ l) as [|y F] eqn:EF.
      * cbn [last]. split.
        -- intros [?|[_ [->|[_ Hne]]]]; [done | by left | congruence].
        -- intros [[= <-]|[[Hne _] _]]; [|congruence].
           right. split; [by apply Hnil | by left].
      * change (last (x :: y :: F)) with (last (y :: F)). split.
        -- intros [?|[Hno _]]; [by left|]. by apply Hnil in Hno.
        -- intros [?|[[Hne _] _]]; [by left | congruence].
    + split.
      * intros [?|[Hno [->|[Hin _]]]]; [by left | congruence |].
        right. split; [split; [congruence | done] | done].
      * intros [?|[[_ Hno] Hin]]; [by left|].
        right. split; [done|]. right. split; [done | congruence].
Qed.



Lemma Open_is_Some (fs : FS) (path : string) (t : id3v2.Tag) :
  id3v2_Open fs path = inl t -> is_Some (fs !! path).
Proof. unfold id3v2_Open. destruct (fs !! path); [eauto | done]. Qed.

(** What a successful [tagEpisode] has done. *)
Lemma tagEpisode_ok (env : Env) (fs fs1 : FS) (mp3Path coverPath : string) :
  tagEpisode env fs mp3Path coverPath = (fs1, None) ->
  exists f t cover,
    fs !! mp3Path = Some f
    /\ id3v2_Open fs mp3Path = inl t
    /\ os.ReadFile env fs coverPath = inl cover
    /\ (mp3Path ∉ readonly env)
    /\ fs1 = <[mp3Path :=
                {| container :=
                     Tagged (id3v2.AddAttachedPicture (id3v2.SetAlbum t albumName)
                                                      (coverFrame cover));
                   audio := audio f |}]> fs.
Proof.
  unfold tagEpisode.
  destruct (id3v2_Open fs mp3Path) as [t|e] eqn:Eo; [|done].
  destruct (os.ReadFile env fs coverPath) as [cover|e] eqn:Er; [|done].
  unfold id3v2_Save.
  destruct (Open_is_Some _ _ _ Eo) as [f Ef]. rewrite Ef.
  destruct (decide (mp3Path ∈ readonly env)); [done|].
  intros [= <-]. exists f, t, cover. done.
Qed.

Lemma tagEpisode_run (env : Env) (fs : FS) (mp3Path coverPath : string)
    (f : FileData) (t : id3v2.Tag) (cover : bytes) :
  fs !! mp3Path = Some f ->
  id3v2_Open fs mp3Path = inl t ->
  os.ReadFile env fs coverPath = inl cover ->
  mp3Path ∉ readonly env ->
  tagEpisode env fs mp3Path coverPath
  = (<[mp3Path :=
         {| container :=
              Tagged (id3v2.AddAttachedPicture (id3v2.SetAlbum t albumName)
                                               (coverFrame cover));
            audio := audio f |}]> fs, None).
Proof.
  intros Hf Ho Hr Hw. unfold tagEpisode, id3v2_Save.
  rewrite Ho, Hr, Hf. by rewrite decide_False.
Qed.

(** A tag written by the library is read back unchanged. *)
Lemma Open_written (fs : FS) (path : string) (t : id3v2.Tag) (a : bytes) :
  NoDup (ids (id3v2.pictures t)) ->
  id3v2_Open (<[path := {| container := Tagged t; audio := a |}]> fs) path = inl t.
Proof.
  intros Hnd. unfold id3v2_Open. rewrite lookup_insert_eq. cbn [container].
  by rewrite parse_fixed.
Qed.

Lemma tagged_pictures (t : id3v2.Tag) (cover : bytes) :
  id3v2.pictures (id3v2.AddAttachedPicture (id3v2.SetAlbum t albumName) (coverFrame cover))
  = id3v2.addToSequence (coverFrame cover) (id3v2.pictures t).
Proof. reflexivity. Qed.


Lemma metadataComplete_pair (fs : FS) (path : string) :
  fst (metadataComplete fs path) = true -> metadataComplete fs path = (true, None).
Proof.
  unfold metadataComplete. destruct (id3v2_Open fs path); [|done].
  destruct (negb _); [done|]. destruct (_ =? _)%nat; done.
Qed.





(** Of three pictures two are left after the tagging: the later of the two
    described [Artist], in the place of the earlier, and the Tagger's cover,
    which has taken the place of the back cover described [Cover]. *)
Lemma tagEpisode_crowded :
  coverFramesOf (fst (tagEpisode netEnv crowdedFS target07 cover07)) target07
  = [laterPhoto; coverFrame jpegBytes]
  /\ otherDescriptions (diskPictures crowdedFS target07) = ["Artist"%string]
  /\ lastDescribed "Artist" (diskPictures crowdedFS target07) = Some laterPhoto.
Proof. repeat split. Qed.

(** ** The worker of revision 3 *)

(** [tagEpisode] touches nothing but the metadata of its file. *)
Lemma tagEpisode_frame (env : Env) (fs fs' : FS) (mp3Path coverPath : string)
    (r : option error) :
  tagEpisode env fs mp3Path coverPath = (fs', r) ->
  audio <$> fs' !! mp3Path = audio <$> fs !! mp3Path
  /\ forall p, p <> mp3Path -> fs' !! p = fs !! p.
Proof.
  unfold tagEpisode, id3v2_Save.
  destruct (id3v2_Open fs mp3Path) as [t|e]; [|by intros [= <- <-]].
  destruct (os.ReadFile env fs coverPath) as [cover|e]; [|by intros [= <- <-]].
  destruct (fs !! mp3Path) as [f|] eqn:Ef; [|intros [= <- <-]; by rewrite Ef].
  destruct (decide (mp3Path ∈ readonly env)); intros [= <- <-]; [by rewrite Ef|].
  split.
  - by rewrite lookup_insert_eq.
  - intros p Hp. by rewrite lookup_insert_ne.
Qed.

Ltac run_phases :=
  repeat first
    [ progress cbn [Rev3.workerRun Rev3.workerStep]
    | match goal with
      | H : ?l = _ |- context [?l] => rewrite H
      end ].

(** The body is the run of its phases: check, fetch, tag. *)
Lemma worker_phases (env : Env) (d : Downloader) (cover : string)
    (ep : Episode) (fs : FS) :
  exists o,
    Rev3.workerRun env d cover ep 3 Rev3.Checking fs
    = (Rev3.Finished o, fst (Rev3.worker env d cover ep fs),
       snd (Rev3.worker env d cover ep fs)).
Proof.
  unfold Rev3.worker.
  destruct (isNil (os.Stat env fs (Join (OutputDir d) (fileNameOf ep)))) eqn:Es.
  - destruct (metadataComplete fs (Join (OutputDir d) (fileNameOf ep)))
      as [[|] err] eqn:Em.
    + eexists. run_phases. cbn [fst snd]. by rewrite !app_nil_r.
    + destruct (tagEpisode env fs (Join (OutputDir d) (fileNameOf ep)) cover)
        as [fs1 [e|]] eqn:Et;
        eexists; run_phases; cbn [fst snd]; rewrite <- ?app_assoc; reflexivity.
  - destruct (downloadFile env fs (URL ep) (Join (OutputDir d) (fileNameOf ep)))
      as [fs1 [e|]] eqn:Ed.
    + eexists. run_phases. reflexivity.
    + destruct (tagEpisode env fs1 (Join (OutputDir d) (fileNameOf ep)) cover)
        as [fs2 [e|]] eqn:Et;
        eexists; run_phases; reflexivity.
Qed.

Lemma rev2_worker_fetches (env : Env) (outputDir : string) (ep : Rev2.Episode) (fs : FS) :
  ~ isComplete fs (Join outputDir (Rev2.fileNameOf ep)) ->
  List.filter isDownload (snd (Rev2.worker env outputDir ep fs))
  = [EvDownload (Rev2.URL ep) (Join outputDir (Rev2.fileNameOf ep))].
Proof.
  intros Hinc. unfold Rev2.worker.
  rewrite <- (fileIsComplete_iff fs (Rev2.URL ep) _ (Rev2.ExpectedSize ep)) in Hinc.
  apply not_true_is_false in Hinc. rewrite Hinc.
  destruct (downloadFile _ _ _ _) as [fs1 [e|]]; [reflexivity|].
  destruct (tagEpisode _ _ _ _) as [fs2 [e|]]; reflexivity.
Qed.

Lemma rev1_worker_fetches (env : Env) (d : Downloader) (ep : Episode) (fs : FS) :
  Rev1.fileComplete env fs (URL ep) (Join (OutputDir d) (fileNameOf ep)) = false ->
  List.filter isDownload (snd (Rev1.worker env d ep fs))
  = [EvDownload (URL ep) (Join (OutputDir d) (fileNameOf ep))].
Proof.
  intros Hinc. unfold Rev1.worker. rewrite Hinc.
  destruct (downloadFile _ _ _ _) as [fs1 [e|]]; [reflexivity|].
  destruct (tagEpisode _ _ _ _) as [fs2 [e|]]; reflexivity.
Qed.

(** C3 (as the code has it): in revision 3, for an episode whose target file
    exists and is not complete, the worker goes from the check straight to
    the tagging: it calls the Tagger once and the File Fetcher never, and
    leaves the audio bytes of the file, and every other file, as they were.
    The workers of revisions 1 and 2 have no such branch: on every file
    system, whether the target file exists there or not, a target their
    checker does not judge complete is fetched. *)
Theorem retag_without_fetch (env : Env) (d : Downloader) (cover : string) (ep : Episode) :
  let target := Join (OutputDir d) (fileNameOf ep) in
  (forall fs : FS,
      is_Some (fs !! target) ->
      ~ isComplete fs target ->
      exists fs' evs,
        Rev3.worker env d cover ep fs = (fs', evs)
        /\ fst (fst (Rev3.workerStep env d cover ep Rev3.Checking fs)) = Rev3.Tagging true
        /\ List.filter isTag evs = [EvTag target cover]
        /\ List.filter isDownload evs = []
        /\ audio <$> fs' !! target = audio <$> fs !! target
        /\ forall p, p <> target -> fs' !! p = fs !! p)
  /\ (forall (fs : FS) (ep2 : Rev2.Episode),
        Rev2.fileNameOf ep2 = fileNameOf ep ->
        ~ isComplete fs target ->
        List.filter isDownload (snd (Rev2.worker env (OutputDir d) ep2 fs))
        = [EvDownload (Rev2.URL ep2) target])
  /\ (forall fs : FS,
        Rev1.fileComplete env fs (URL ep) target = false ->
        List.filter isDownload (snd (Rev1.worker env d ep fs))
        = [EvDownload (URL ep) target]).
Proof.
  intros target. split; [|split].
  2:{ intros fs ep2 Hname Hinc. unfold target. rewrite <- Hname.
      apply rev2_worker_fetches. by rewrite Hname. }
  2:{ intros fs. apply rev1_worker_fetches. }
  intros fs Hex Hinc.
  apply (Stat_isNil env) in Hex.
  rewrite <- metadataComplete_iff in Hinc. apply not_true_is_false in Hinc.
  unfold Rev3.worker. cbn [Rev3.workerStep]. fold target. rewrite Hex.
  destruct (metadataComplete fs target) as [metaOk err]. cbn [fst] in Hinc. subst metaOk.
  destruct (tagEpisode env fs target cover) as [fs1 r] eqn:Et.
  destruct (tagEpisode_frame _ _ _ _ _ _ Et) as [Ha Hp].
  destruct r as [e|]; eexists _, _; (split; [reflexivity|]);
    (split; [reflexivity|]); (split; [|split; [|split; [exact Ha | exact Hp]]]);
    destruct err; reflexivity.
Qed.

Lemma retag_without_fetch_witness :
  (exists fs' evs,
    Rev3.worker headerEnv exampleDownloader cover07 ep07 untaggedFS = (fs', evs)
    /\ fst (fst (Rev3.workerStep headerEnv exampleDownloader cover07 ep07 Rev3.Checking
                   untaggedFS)) = Rev3.Tagging true
    /\ List.filter isTag evs = [EvTag target07 cover07]
    /\ List.filter isDownload evs = []
    /\ audio <$> fs' !! target07 = audio <$> untaggedFS !! target07
    /\ forall p, p <> target07 -> fs' !! p = untaggedFS !! p)
  /\ List.filter isDownload (snd (Rev2.worker headerEnv (OutputDir exampleDownloader)
                                    ep07r2 untaggedFS))
     = [EvDownload (Rev2.URL ep07r2) target07]
  /\ List.filter isDownload (snd (Rev1.worker headerEnv exampleDownloader ep07 ∅))
     = [EvDownload (URL ep07) target07]
  /\ List.filter isDownload (snd (Rev1.worker headerEnv exampleDownloader ep07 photoFS))
     = [EvDownload (URL ep07) target07].
Proof.
  destruct (retag_without_fetch headerEnv exampleDownloader cover07 ep07)
    as (Hrev3 & Hrev2 & Hrev1).
  split; [|split; [|split]].
  - apply Hrev3.
    + vm_compute. eauto.
    + intros (f & t & Hf & Hc & _). vm_compute in Hf. injection Hf as <-. discriminate.
  - apply Hrev2; [reflexivity|].
    intros (f & t & Hf & Hc & _). vm_compute in Hf. injection Hf as <-. discriminate.
  - apply Hrev1. reflexivity.
  - apply Hrev1. reflexivity.
Defined.

(** C3 fails for revision 2: a target file that exists without a tag is
    fetched again, and its audio bytes are replaced by the download. *)
Lemma rev2_fetches_again :
  is_Some (untaggedFS !! target07)
  /\ ~ isComplete untaggedFS target07
  /\ exists fs',
       Rev2.worker netEnv "out" ep07r2 untaggedFS
       = (fs', [EvLog (LogDownloading "07 - Night Drive.mp3");
                EvDownload "https://host/ep07.mp3" target07;
                EvTag target07 cover07;
                EvLog (LogProcessed "07 - Night Drive.mp3")])
       /\ audio <$> untaggedFS !! target07 = Some someAudio
       /\ audio <$> fs' !! target07 = Some otherAudio.
Proof.
  split; [vm_compute; eauto|]. split.
  - intros (f & t & Hf & Hc & _). vm_compute in Hf. injection Hf as <-. discriminate.
  - eexists. split; [reflexivity|]. split; reflexivity.
Qed.

(** C10: when the target file exists and its metadata cannot be read, the
    worker of revision 3 logs the read error, then the "metadata incomplete"
    line, and calls the Tagger on the file; it neither fetches the file nor
    returns before the tagging attempt. *)
Theorem unreadable_metadata_retag (env : Env) (d : Downloader) (cover : string)
    (ep : Episode) (fs : FS) (e : error) :
  let target := Join (OutputDir d) (fileNameOf ep) in
  let name := fileNameOf ep in
  is_Some (fs !! target) ->
  snd (metadataComplete fs target) = Some e ->
  exists fs' last,
    Rev3.worker env d cover ep fs
    = (fs', [EvLog (LogErrorReadingMetadata name e);
             EvLog (LogMetadataIncomplete name);
             EvTag target cover;
             EvLog last])
    /\ (last = LogMetadataUpdated name
        \/ exists e', last = LogErrorUpdatingMetadata name e').
Proof.
  intros target name Hex Herr.
  apply (Stat_isNil env) in Hex.
  pose proof (metadataComplete_error _ _ _ Herr) as Hfalse.
  unfold Rev3.worker. fold target name. rewrite Hex.
  destruct (metadataComplete fs target) as [metaOk err]. cbn [fst snd] in *.
  subst metaOk err.
  destruct (tagEpisode env fs target cover) as [fs1 [e'|]];
    eexists _, _; (split; [reflexivity|]); eauto.
Qed.

Lemma unreadable_metadata_retag_witness :
  exists fs' last,
    Rev3.worker netEnv exampleDownloader cover07 ep07 brokenFS
    = (fs', [EvLog (LogErrorReadingMetadata (fileNameOf ep07) ErrTag);
             EvLog (LogMetadataIncomplete (fileNameOf ep07));
             EvTag target07 cover07;
             EvLog last])
    /\ (last = LogMetadataUpdated (fileNameOf ep07)
        \/ exists e', last = LogErrorUpdatingMetadata (fileNameOf ep07) e').
Proof.
  apply (unreadable_metadata_retag netEnv exampleDownloader cover07 ep07 brokenFS ErrTag).
  - vm_compute. eauto.
  - reflexivity.
Defined.

(** ** The pipeline: counting *)

Lemma count_total {A} (p : A -> bool) (l : list A) :
  count p l = total (fun x => b2n (p x)) l.
Proof.
  unfold count, total. induction l as [|x l IH]; cbn; [reflexivity|].
  destruct (p x); cbn; lia.
Qed.

Lemma total_app {A} (f : A -> nat) (l1 l2 : list A) :
  total f (l1 ++ l2) = (total f l1 + total f l2)%nat.
Proof. apply sum_list_with_app. Qed.

Lemma total_insert {A} (f : A -> nat) (l : list A) (i : nat) (x y : A) :
  l !! i = Some x ->
  (total f (<[i := y]> l) + f x = total f l + f y)%nat.
Proof.
  intros Hi.
  pose proof (lookup_lt_Some _ _ _ Hi) as Hlt.
  rewrite insert_take_drop by done.
  rewrite <- (take_drop_middle l i x Hi) at 3.
  rewrite !total_app. unfold total. cbn. lia.
Qed.

Lemma count_app {A} (p : A -> bool) (l1 l2 : list A) :
  count p (l1 ++ l2) = (count p l1 + count p l2)%nat.
Proof. rewrite !count_total. apply total_app. Qed.

Lemma count_insert {A} (p : A -> bool) (l : list A) (i : nat) (x y : A) :
  l !! i = Some x ->
  (count p (<[i := y]> l) + b2n (p x) = count p l + b2n (p y))%nat.
Proof.
  intros Hi. rewrite !count_total. by apply (total_insert (fun x => b2n (p x))).
Qed.

Lemma count_pos {A} (p : A -> bool) (l : list A) :
  (0 < count p l)%nat -> exists i x, l !! i = Some x /\ p x = true.
Proof.
  unfold count. induction l as [|x l IH]; cbn [List.filter length]; [lia|].
  destruct (p x) eqn:E.
  - intros _. exists 0%nat, x. done.
  - intros H. destruct (IH H) as (i & y & Hi & Hy). exists (S i), y. done.
Qed.

Lemma count_zero_Forall {A} (p : A -> bool) (l : list A) :
  count p l = 0%nat -> Forall (fun x => p x = false) l.
Proof.
  unfold count. induction l as [|x l IH]; cbn [List.filter length]; [constructor|].
  destruct (p x) eqn:E; cbn [length]; [discriminate|].
  intros H. constructor; auto.
Qed.

Lemma count_le {A} (p q : A -> bool) (l : list A) :
  (forall x, p x = true -> q x = true) -> (count p l <= count q l)%nat.
Proof.
  intros Hpq. unfold count. induction l as [|x l IH]; cbn [List.filter length]; [lia|].
  destruct (p x) eqn:E.
  - rewrite (Hpq x E). cbn. lia.
  - destruct (q x); cbn; lia.
Qed.

Lemma fst_insert_same (l : list (Episode * Rev3.Goroutine)) (i : nat)
    (ep : Episode) (g g' : Rev3.Goroutine) :
  l !! i = Some (ep, g) ->
  fst <$> <[i := (ep, g')]> l = fst <$> l.
Proof.
  intros Hi. rewrite list_fmap_insert. apply list_insert_id.
  by rewrite list_lookup_fmap, Hi.
Qed.

(** ** The pipeline: the invariant *)

Lemma Inv_init (d : Downloader) (fs : FS) : Inv (Episodes d) (Rev3.init d fs).
Proof. unfold Inv, Rev3.init, Rev3.semCap. cbn. repeat split; try lia; done. Qed.

Lemma Inv_step (env : Env) (d : Downloader) (eps : list Episode) (s s' : Rev3.State) :
  Inv eps s -> Rev3.step env d s s' -> Inv eps s'.
Proof.
  intros (Hsem & Hcap & Hwg & Hret & Heps) Hstep.
  destruct Hstep as [s ep rest Hd | s ep rest Hd Hfree | s i ep ph ph' fs' evs Hi Hph Hw
                     | s i ep o Hi Hpos | s i ep o Hi Hpos | s Hd Hz];
    unfold Inv; cbn [Rev3.sem Rev3.wg Rev3.disp Rev3.workers Rev3.files].
  - rewrite Hd in *. cbn [sending Rev3.pending] in *.
    repeat split; try done; lia.
  - rewrite Hd in *. cbn [sending Rev3.pending] in *.
    rewrite !count_app. cbn. rewrite fmap_app, <- app_assoc. cbn.
    repeat split; try done; lia.
  - pose proof (count_insert Rev3.holdsToken _ i _ (ep, Rev3.Running ph') Hi) as H1.
    pose proof (count_insert Rev3.notExited _ i _ (ep, Rev3.Running ph') Hi) as H2.
    cbn in H1, H2. rewrite (fst_insert_same _ _ _ _ _ Hi).
    repeat split; try done; lia.
  - pose proof (count_insert Rev3.holdsToken _ i _ (ep, Rev3.Released o) Hi) as H1.
    pose proof (count_insert Rev3.notExited _ i _ (ep, Rev3.Released o) Hi) as H2.
    cbn in H1, H2. rewrite (fst_insert_same _ _ _ _ _ Hi).
    repeat split; try done; lia.
  - pose proof (count_insert Rev3.holdsToken _ i _ (ep, Rev3.Exited o) Hi) as H1.
    pose proof (count_insert Rev3.notExited _ i _ (ep, Rev3.Exited o) Hi) as H2.
    cbn in H1, H2. rewrite (fst_insert_same _ _ _ _ _ Hi).
    repeat split; try done; try lia.
    intros Hr. specialize (Hret Hr). lia.
  - rewrite Hd in *. cbn [sending Rev3.pending] in *.
    repeat split; try done; lia.
Qed.

Lemma Inv_reachable (env : Env) (d : Downloader) (fs : FS) (s : Rev3.State) :
  Rev3.reachable env d (Rev3.init d fs) s -> Inv (Episodes d) s.
Proof.
  induction 1 as [|s s' _ IH Hstep]; [apply Inv_init | by eapply Inv_step].
Qed.

(** ** Running the pipeline under one schedule *)

Lemma firstLive_lookup (ws : list (Episode * Rev3.Goroutine)) :
  forall k i ep g,
    firstLive ws k = Some (i, ep, g) ->
    exists j, i = (k + j)%nat /\ ws !! j = Some (ep, g).
Proof.
  induction ws as [|[ep0 g0] ws IH]; intros k i ep g; cbn [firstLive]; [done|].
  destruct g0 as [ph|o|o].
  - intros [= <- <- <-]. exists 0%nat. split; [lia|done].
  - intros [= <- <- <-]. exists 0%nat. split; [lia|done].
  - intros H. destruct (IH _ _ _ _ H) as (j & -> & Hj). exists (S j). split; [lia|done].
Qed.

Lemma scheduleWorker_sound (env : Env) (d : Downloader) (s s' : Rev3.State) :
  scheduleWorker env d s = Some s' -> Rev3.step env d s s'.
Proof.
  unfold scheduleWorker.
  destruct (firstLive (Rev3.workers s) 0) as [[[i ep] g]|] eqn:E; [|done].
  apply firstLive_lookup in E as (j & -> & Hj). cbn [Nat.add].
  destruct g as [ph|o|o]; [| |done].
  - destruct ph as [| |retag|o].
    + destruct (Rev3.workerStep _ _ _ _ _ _) as [[ph' fs'] evs] eqn:Ew.
      intros [= <-]. eapply Rev3.step_work; [exact Hj | done | exact Ew].
    + destruct (Rev3.workerStep _ _ _ _ _ _) as [[ph' fs'] evs] eqn:Ew.
      intros [= <-]. eapply Rev3.step_work; [exact Hj | done | exact Ew].
    + destruct (Rev3.workerStep _ _ _ _ _ _) as [[ph' fs'] evs] eqn:Ew.
      intros [= <-]. eapply Rev3.step_work; [exact Hj | done | exact Ew].
    + destruct (0 <? Rev3.sem s)%nat eqn:El; [|done].
      intros [= <-]. apply Nat.ltb_lt in El. by eapply Rev3.step_release.
  - destruct (0 <? Rev3.wg s)%nat eqn:El; [|done].
    intros [= <-]. apply Nat.ltb_lt in El. by eapply Rev3.step_done.
Qed.

Lemma schedule_sound (env : Env) (d : Downloader) (s s' : Rev3.State) :
  schedule env d s = Some s' -> Rev3.step env d s s'.
Proof.
  unfold schedule.
  destruct (Rev3.disp s) as [[|ep rest]|ep rest|] eqn:Hd; [| | |done].
  - destruct (Rev3.wg s =? 0)%nat eqn:Ez.
    + intros [= <-]. apply Nat.eqb_eq in Ez. by apply Rev3.step_wait.
    + apply scheduleWorker_sound.
  - intros [= <-]. by eapply Rev3.step_add.
  - destruct (Rev3.sem s <? Rev3.semCap)%nat eqn:El.
    + intros [= <-]. apply Nat.ltb_lt in El. by eapply Rev3.step_send.
    + apply scheduleWorker_sound.
Qed.

Lemma runSchedule_reachable (env : Env) (d : Downloader) (s0 : Rev3.State) (n : nat) :
  forall s, Rev3.reachable env d s0 s -> Rev3.reachable env d s0 (runSchedule env d n s).
Proof.
  induction n as [|n IH]; intros s Hs; cbn [runSchedule]; [done|].
  destruct (schedule env d s) as [s'|] eqn:E; [|done].
  apply IH. eapply Rev3.reach_step; [exact Hs|]. by apply schedule_sound.
Qed.

(** C4: in every state of a run at most three goroutines hold a token of the
    semaphore, so at most three episodes are being fetched or tagged; the
    dispatcher, once at its send, can start the next task exactly when fewer
    than three tokens are held, and a step that starts a task finds a free
    slot. *)
Theorem at_most_three_active (env : Env) (d : Downloader) (fs : FS) (s : Rev3.State) :
  Rev3.reachable env d (Rev3.init d fs) s ->
  (count Rev3.isActive (Rev3.workers s) <= 3)%nat
  /\ (count Rev3.holdsToken (Rev3.workers s) <= 3)%nat
  /\ (forall ep rest,
        Rev3.disp s = Rev3.Send ep rest ->
        ((exists s', Rev3.step env d s s' /\ Rev3.disp s' = Rev3.Loop rest)
         <-> (count Rev3.holdsToken (Rev3.workers s) < 3)%nat))
  /\ (forall s',
        Rev3.step env d s s' ->
        (length (Rev3.workers s) < length (Rev3.workers s'))%nat ->
        (count Rev3.holdsToken (Rev3.workers s) < 3)%nat).
Proof.
  intros Hreach.
  destruct (Inv_reachable _ _ _ _ Hreach) as (Hsem & Hcap & _).
  unfold Rev3.semCap in Hcap. rewrite Hsem in Hcap.
  split; [|split; [exact Hcap|split]].
  - etransitivity; [|exact Hcap]. apply count_le.
    intros [ep [[| | |]| |]]; cbn; done.
  - intros ep rest Hd. split.
    + intros (s' & Hstep & Hd').
      destruct Hstep as [s ep1 rest1 Hd1 | s ep1 rest1 Hd1 Hfree | s i ep1 ph ph' fs' evs Hi Hph Hw
                         | s i ep1 o Hi Hpos | s i ep1 o Hi Hpos | s Hd1 Hz];
        cbn [Rev3.disp] in Hd'; try congruence.
      unfold Rev3.semCap in Hfree. lia.
    + intros Hlt. eexists. split.
      * apply (Rev3.step_send env d s ep rest Hd). unfold Rev3.semCap. lia.
      * reflexivity.
  - intros s' Hstep Hgrow.
    destruct Hstep as [s ep1 rest1 Hd1 | s ep1 rest1 Hd1 Hfree | s i ep1 ph ph' fs' evs Hi Hph Hw
                       | s i ep1 o Hi Hpos | s i ep1 o Hi Hpos | s Hd1 Hz];
      cbn [Rev3.workers] in Hgrow; rewrite ?length_insert in Hgrow; try lia.
    unfold Rev3.semCap in Hfree. lia.
Qed.

Lemma at_most_three_active_witness :
  (count Rev3.isActive (Rev3.workers busyState) <= 3)%nat
  /\ (count Rev3.holdsToken (Rev3.workers busyState) <= 3)%nat
  /\ (forall ep rest,
        Rev3.disp busyState = Rev3.Send ep rest ->
        ((exists s', Rev3.step fullEnv fourEpisodes busyState s'
                     /\ Rev3.disp s' = Rev3.Loop rest)
         <-> (count Rev3.holdsToken (Rev3.workers busyState) < 3)%nat))
  /\ (forall s',
        Rev3.step fullEnv fourEpisodes busyState s' ->
        (length (Rev3.workers busyState) < length (Rev3.workers s'))%nat ->
        (count Rev3.holdsToken (Rev3.workers busyState) < 3)%nat).
Proof.
  apply (at_most_three_active fullEnv fourEpisodes coverOnlyFS busyState).
  apply runSchedule_reachable, Rev3.reach_init.
Defined.

(** ** The pipeline: progress and termination *)

Lemma workerStep_rank (env : Env) (d : Downloader) (cover : string) (ep : Episode)
    (ph ph' : Rev3.Phase) (fs fs' : FS) (evs : list Event) :
  (forall o, ph <> Rev3.Finished o) ->
  Rev3.workerStep env d cover ep ph fs = (ph', fs', evs) ->
  (phaseRank ph' < phaseRank ph)%nat.
Proof.
  intros Hph. destruct ph as [| |retag|o]; cbn [Rev3.workerStep].
  - destruct (isNil _).
    + destruct (metadataComplete _ _) as [[|] err]; intros [= <- _ _]; cbn; lia.
    + intros [= <- _ _]. cbn. lia.
  - destruct (downloadFile _ _ _ _) as [fs1 [e|]]; intros [= <- _ _]; cbn; lia.
  - destruct (tagEpisode _ _ _ _) as [fs1 [e|]]; intros [= <- _ _]; cbn; lia.
  - by destruct (Hph o).
Qed.

Lemma step_measure (env : Env) (d : Downloader) (s s' : Rev3.State) :
  Rev3.step env d s s' -> (measure s' < measure s)%nat.
Proof.
  intros Hstep. unfold measure.
  destruct Hstep as [s ep rest Hd | s ep rest Hd Hfree | s i ep ph ph' fs' evs Hi Hph Hw
                     | s i ep o Hi Hpos | s i ep o Hi Hpos | s Hd Hz];
    cbn [Rev3.disp Rev3.workers].
  - rewrite Hd. cbn [dispRank length]. lia.
  - rewrite Hd. cbn [dispRank]. rewrite total_app. cbn. lia.
  - pose proof (total_insert goroutineRank _ i _ (ep, Rev3.Running ph') Hi) as H.
    pose proof (workerStep_rank _ _ _ _ _ _ _ _ _ Hph Hw) as Hr.
    cbn in H. lia.
  - pose proof (total_insert goroutineRank _ i _ (ep, Rev3.Released o) Hi) as H.
    cbn in H. lia.
  - pose proof (total_insert goroutineRank _ i _ (ep, Rev3.Exited o) Hi) as H.
    cbn in H. lia.
  - rewrite Hd. cbn [dispRank length]. lia.
Qed.

(** A goroutine that has not exited can take a step. *)
Lemma goroutine_progress (env : Env) (d : Downloader) (s : Rev3.State)
    (i : nat) (w : Episode * Rev3.Goroutine) :
  Rev3.workers s !! i = Some w ->
  Rev3.notExited w = true ->
  (0 < Rev3.wg s)%nat ->
  (Rev3.holdsToken w = true -> 0 < Rev3.sem s)%nat ->
  exists s', Rev3.step env d s s'.
Proof.
  intros Hi Hne Hwg Hsem. destruct w as [ep [ph|o|o]]; [| |done].
  - destruct ph as [| |retag|o].
    + destruct (Rev3.workerStep env d (Rev3.coverPath d) ep Rev3.Checking (Rev3.files s))
        as [[ph' fs'] evs] eqn:E.
      eexists. eapply Rev3.step_work; [exact Hi | done | exact E].
    + destruct (Rev3.workerStep env d (Rev3.coverPath d) ep Rev3.Fetching (Rev3.files s))
        as [[ph' fs'] evs] eqn:E.
      eexists. eapply Rev3.step_work; [exact Hi | done | exact E].
    + destruct (Rev3.workerStep env d (Rev3.coverPath d) ep (Rev3.Tagging retag) (Rev3.files s))
        as [[ph' fs'] evs] eqn:E.
      eexists. eapply Rev3.step_work; [exact Hi | done | exact E].
    + eexists. eapply Rev3.step_release; [exact Hi | by apply Hsem].
  - eexists. eapply Rev3.step_done; [exact Hi | exact Hwg].
Qed.

Lemma pipeline_progress (env : Env) (d : Downloader) (eps : list Episode)
    (s : Rev3.State) :
  Inv eps s -> Rev3.disp s <> Rev3.Returned -> exists s', Rev3.step env d s s'.
Proof.
  intros (Hsem & Hcap & Hwg & Hret & Heps) Hnr.
  destruct (Rev3.disp s) as [[|ep rest]|ep rest|] eqn:Hd; [| | |done].
  - destruct (Rev3.wg s) as [|n] eqn:Ewg.
    + eexists. by apply Rev3.step_wait.
    + cbn [sending] in Hwg.
      destruct (count_pos Rev3.notExited (Rev3.workers s)) as (i & w & Hi & Hw); [lia|].
      apply (goroutine_progress env d s i w Hi Hw); [lia|].
      intros Hh. rewrite Hsem.
      pose proof (count_insert Rev3.holdsToken _ i _ w Hi) as H.
      destruct (count Rev3.holdsToken (Rev3.workers s)) eqn:Ec; [|lia].
      apply count_zero_Forall in Ec. rewrite Forall_forall in Ec.
      specialize (Ec w (list_elem_of_lookup_2 _ _ _ Hi)). congruence.
  - eexists. by eapply Rev3.step_add.
  - destruct (decide (Rev3.sem s < Rev3.semCap)%nat) as [Hlt|Hge].
    + eexists. by eapply Rev3.step_send.
    + unfold Rev3.semCap in Hge.
      destruct (count_pos Rev3.holdsToken (Rev3.workers s)) as (i & w & Hi & Hw); [lia|].
      apply (goroutine_progress env d s i w Hi); [|cbn [sending] in Hwg; lia|lia].
      destruct w as [ep' [ph|o|o]]; done.
Qed.

(** From every reachable state the run can be continued to the return of
    [wg.Wait()]. *)
Lemma run_to_barrier (env : Env) (d : Downloader) (fs : FS) (n : nat) :
  forall s,
    Rev3.reachable env d (Rev3.init d fs) s ->
    (measure s <= n)%nat ->
    exists s', Rev3.reachable env d (Rev3.init d fs) s' /\ Rev3.disp s' = Rev3.Returned.
Proof.
  induction n as [|n IH]; intros s Hreach Hm.
  - destruct (Rev3.disp s) as [rest|ep rest|] eqn:Hd; [| |eauto];
      unfold measure in Hm; rewrite Hd in Hm; cbn [dispRank] in Hm; lia.
  - assert (Hdec : Rev3.disp s = Rev3.Returned \/ Rev3.disp s <> Rev3.Returned)
      by (destruct (Rev3.disp s); auto; right; discriminate).
    destruct Hdec as [Hr|Hr]; [eauto|].
    destruct (pipeline_progress env d _ s (Inv_reachable _ _ _ _ Hreach) Hr) as [s1 Hstep].
    apply (IH s1).
    + by eapply Rev3.reach_step.
    + pose proof (step_measure _ _ _ _ Hstep). lia.
Qed.

(** A step that changes a task, be it a failure or not, changes that task
    alone: the dispatcher and all other tasks stay as they were. *)
Lemma task_step_is_local (env : Env) (d : Downloader) (s s' : Rev3.State)
    (i : nat) (w : Episode * Rev3.Goroutine) :
  Rev3.step env d s s' ->
  Rev3.workers s !! i = Some w ->
  Rev3.workers s' !! i <> Some w ->
  Rev3.disp s' = Rev3.disp s
  /\ forall j, j <> i -> Rev3.workers s' !! j = Rev3.workers s !! j.
Proof.
  intros Hstep Hw Hchg.
  destruct Hstep as [s ep1 rest Hd | s ep1 rest Hd Hfree | s i0 ep1 ph ph' fs' evs Hi Hph Hws
                     | s i0 ep1 o Hi Hpos | s i0 ep1 o Hi Hpos | s Hd Hz];
    cbn [Rev3.disp Rev3.workers] in *; try done.
  - exfalso. apply Hchg. rewrite lookup_app_l; [done|]. by eapply lookup_lt_Some.
  - destruct (decide (i = i0)) as [->|Hne].
    + split; [done|]. intros j Hj. by rewrite list_lookup_insert_ne.
    + exfalso. apply Hchg. by rewrite list_lookup_insert_ne.
  - destruct (decide (i = i0)) as [->|Hne].
    + split; [done|]. intros j Hj. by rewrite list_lookup_insert_ne.
    + exfalso. apply Hchg. by rewrite list_lookup_insert_ne.
  - destruct (decide (i = i0)) as [->|Hne].
    + split; [done|]. intros j Hj. by rewrite list_lookup_insert_ne.
    + exfalso. apply Hchg. by rewrite list_lookup_insert_ne.
Qed.

Lemma barrier_all_terminal (d : Downloader) (s : Rev3.State) :
  Inv (Episodes d) s ->
  Rev3.disp s = Rev3.Returned ->
  Forall (fun w => Rev3.isTerminal w = true) (Rev3.workers s)
  /\ fst <$> Rev3.workers s = Episodes d.
Proof.
  intros (Hsem & Hcap & Hwg & Hret & Heps) Hd.
  specialize (Hret Hd). rewrite Hd in *. cbn [sending Rev3.pending] in *.
  rewrite app_nil_r in Heps. split; [|exact Heps].
  assert (Hz : count Rev3.notExited (Rev3.workers s) = 0%nat) by lia.
  apply count_zero_Forall in Hz. eapply Forall_impl; [exact Hz|].
  intros [ep [ph|o|o]]; cbn; done.
Qed.

(** C7: once the set-up of [main] has succeeded, the exit status is 0 and
    never the fatal one, whatever happens to the episodes. In every state of
    the run each further step brings the run closer to its end, some step is
    possible until [wg.Wait()] has returned, and when it has, every episode
    of the list has a task and every task has exited. A step of one task,
    a failing one included, leaves the dispatcher and all other tasks as they
    were. *)
Theorem failures_stay_local (env : Env) (fs0 : FS) (args : list string)
    (d : Downloader) (fs1 : FS) :
  Rev3.mainSetup env fs0 args = inl (d, fs1) ->
  Rev3.mainRun env fs0 args Rev3.ExitOK
  /\ ~ Rev3.mainRun env fs0 args Rev3.ExitFatal
  /\ forall s,
       Rev3.reachable env d (Rev3.init d fs1) s ->
       (forall s', Rev3.step env d s s' -> (measure s' < measure s)%nat)
       /\ (Rev3.disp s <> Rev3.Returned -> exists s', Rev3.step env d s s')
       /\ (Rev3.disp s = Rev3.Returned ->
           Forall (fun w => Rev3.isTerminal w = true) (Rev3.workers s)
           /\ fst <$> Rev3.workers s = Episodes d)
       /\ (forall s' i w,
             Rev3.step env d s s' ->
             Rev3.workers s !! i = Some w ->
             Rev3.workers s' !! i <> Some w ->
             Rev3.disp s' = Rev3.disp s
             /\ forall j, j <> i -> Rev3.workers s' !! j = Rev3.workers s !! j).
Proof.
  intros Hsetup. split; [|split].
  - destruct (run_to_barrier env d fs1 (measure (Rev3.init d fs1)) (Rev3.init d fs1))
      as (s & Hreach & Hret); [apply Rev3.reach_init | lia |].
    by eapply Rev3.main_ok.
  - intros Hrun. inversion Hrun as [| | l Hl | ]. congruence.
  - intros s Hreach. pose proof (Inv_reachable _ _ _ _ Hreach) as Hinv.
    split; [|split; [|split]].
    + intros s'. apply step_measure.
    + by eapply pipeline_progress.
    + by apply barrier_all_terminal.
    + intros s' i w. apply task_step_is_local.
Qed.

Lemma failures_stay_local_witness :
  Rev3.mainRun fullEnv ∅ ["out"] Rev3.ExitOK
  /\ ~ Rev3.mainRun fullEnv ∅ ["out"] Rev3.ExitFatal
  /\ forall s,
       Rev3.reachable fullEnv loadedDownloader (Rev3.init loadedDownloader coverOnlyFS) s ->
       (forall s', Rev3.step fullEnv loadedDownloader s s' -> (measure s' < measure s)%nat)
       /\ (Rev3.disp s <> Rev3.Returned -> exists s', Rev3.step fullEnv loadedDownloader s s')
       /\ (Rev3.disp s = Rev3.Returned ->
           Forall (fun w => Rev3.isTerminal w = true) (Rev3.workers s)
           /\ fst <$> Rev3.workers s = Episodes loadedDownloader)
       /\ (forall s' i w,
             Rev3.step fullEnv loadedDownloader s s' ->
             Rev3.workers s !! i = Some w ->
             Rev3.workers s' !! i <> Some w ->
             Rev3.disp s' = Rev3.disp s
             /\ forall j, j <> i -> Rev3.workers s' !! j = Rev3.workers s !! j).
Proof.
  apply (failures_stay_local fullEnv ∅ ["out"] loadedDownloader coverOnlyFS).
  vm_compute. reflexivity.
Defined.

(** ** Runs with failures *)

(** A run in which one episode is fetched and tagged while the fetch of the
    other fails: both tasks exit and [wg.Wait()] returns. *)
Lemma run_with_a_failure :
  let s := runSchedule fullEnv loadedDownloader 20
             (Rev3.init loadedDownloader coverOnlyFS) in
  Rev3.reachable fullEnv loadedDownloader (Rev3.init loadedDownloader coverOnlyFS) s
  /\ Rev3.disp s = Rev3.Returned
  /\ snd <$> Rev3.workers s = [Rev3.Exited Rev3.Done; Rev3.Exited Rev3.Failed]
  /\ isComplete (Rev3.files s) target07.
Proof.
  split; [apply runSchedule_reachable, Rev3.reach_init|].
  split; [vm_compute; reflexivity|].
  split; [vm_compute; reflexivity|].
  apply metadataComplete_iff. vm_compute. reflexivity.
Qed.

(** With four episodes, the dispatcher has started three tasks and stands at
    its send for the fourth while all three tokens are held. *)
Lemma dispatcher_stands_at_send :
  Rev3.reachable fullEnv fourEpisodes (Rev3.init fourEpisodes coverOnlyFS) busyState
  /\ (exists ep, Rev3.disp busyState = Rev3.Send ep [])
  /\ Rev3.sem busyState = 3%nat
  /\ length (Rev3.workers busyState) = 3%nat
  /\ schedule fullEnv fourEpisodes busyState = scheduleWorker fullEnv fourEpisodes busyState.
Proof.
  split; [apply runSchedule_reachable, Rev3.reach_init|].
  split; [eexists; vm_compute; reflexivity|].
  repeat split; vm_compute; reflexivity.
Qed.

(** The run of the four episodes to its end: the fetch fails for the three
    episodes the server does not have, and all four tasks exit. *)
Lemma run_of_four :
  let s := runSchedule fullEnv fourEpisodes 40 (Rev3.init fourEpisodes coverOnlyFS) in
  Rev3.disp s = Rev3.Returned
  /\ snd <$> Rev3.workers s
     = [Rev3.Exited Rev3.Failed; Rev3.Exited Rev3.Failed;
        Rev3.Exited Rev3.Done; Rev3.Exited Rev3.Failed]
  /\ Rev3.sem s = 0%nat /\ Rev3.wg s = 0%nat.
Proof. repeat split; vm_compute; reflexivity. Qed.

(** ** Strings *)

Lemma append_cons (c : ascii) (a b : string) :
  (String c a ++ b)%string = String c (a ++ b)%string.
Proof. reflexivity. Qed.

Lemma append_nil_l (b : string) : ("" ++ b)%string = b.
Proof. reflexivity. Qed.

Ltac ssimpl := simpl; rewrite ?append_cons, ?append_nil_l; simpl.
Ltac ssimpl_in H := simpl in H; rewrite ?append_cons, ?append_nil_l in H; simpl in H.

Lemma append_nil_r (s : string) : (s ++ "")%string = s.
Proof. induction s as [|c s IH]; ssimpl; [reflexivity | by f_equal]. Qed.

Lemma append_assoc (a b c : string) : ((a ++ b) ++ c)%string = (a ++ (b ++ c))%string.
Proof. induction a as [|x a IH]; ssimpl; [reflexivity | by f_equal]. Qed.

Lemma append_length (a b : string) :
  String.length (a ++ b)%string = (String.length a + String.length b)%nat.
Proof. induction a as [|x a IH]; ssimpl; [reflexivity | by f_equal]. Qed.

Lemma append_inj_l (a x y : string) : (a ++ x)%string = (a ++ y)%string -> x = y.
Proof. induction a as [|c a IH]; ssimpl; [done|]. intros [= H]. auto. Qed.

Lemma append_inj_r (a b c : string) : (a ++ c)%string = (b ++ c)%string -> a = b.
Proof.
  revert b. induction a as [|x a IH]; intros [|y b]; ssimpl; intros H.
  - reflexivity.
  - apply (f_equal String.length) in H. ssimpl_in H. rewrite append_length in H. lia.
  - apply (f_equal String.length) in H. ssimpl_in H. rewrite append_length in H. lia.
  - injection H as -> H. f_equal. by apply IH.
Qed.

Lemma takeS_dropS (k : nat) (s : string) : (takeS k s ++ dropS k s)%string = s.
Proof.
  revert s. induction k as [|k IH]; intros [|c s]; ssimpl; try reflexivity.
  by f_equal.
Qed.

Lemma takeS_all (s : string) : takeS (String.length s) s = s.
Proof. induction s as [|c s IH]; ssimpl; [reflexivity | by f_equal]. Qed.

Lemma stripPrefix_Some (p s r : string) :
  stripPrefix p s = Some r -> s = (p ++ r)%string.
Proof.
  revert s. induction p as [|a p IH]; intros s; ssimpl.
  - by intros [= ->].
  - destruct s as [|b s]; [done|].
    destruct (Ascii.eqb_spec a b) as [->|]; [|done].
    intros H. f_equal. by apply IH.
Qed.

Lemma stripPrefix_app (p r : string) : stripPrefix p (p ++ r)%string = Some r.
Proof.
  induction p as [|a p IH]; ssimpl; [reflexivity|]. by rewrite Ascii.eqb_refl.
Qed.

Lemma span_take (cls : ascii -> bool) (s : string) (k : nat) :
  (k <= regexp.span cls s)%nat ->
  allOf cls (takeS k s) = true /\ String.length (takeS k s) = k.
Proof.
  revert s. induction k as [|k IH]; intros s Hk.
  - by destruct s.
  - destruct s as [|c s]; simpl in Hk; [lia|].
    destruct (cls c) eqn:E; [|lia].
    destruct (IH s ltac:(lia)) as [H1 H2]. simpl. by rewrite E, H1, H2.
Qed.

Lemma span_app (cls : ascii -> bool) (a b : string) :
  allOf cls a = true ->
  regexp.span cls b = 0%nat ->
  regexp.span cls (a ++ b)%string = String.length a.
Proof.
  intros Ha Hb. induction a as [|c a IH]; rewrite ?append_cons, ?append_nil_l in *; simpl in *; [exact Hb|].
  apply andb_true_iff in Ha as [-> Ha]. by rewrite IH.
Qed.

Lemma takeS_app (a b : string) : takeS (String.length a) (a ++ b)%string = a.
Proof. induction a as [|c a IH]; ssimpl; [by destruct b | by f_equal]. Qed.

Lemma dropS_app (a b : string) : dropS (String.length a) (a ++ b)%string = b.
Proof. induction a as [|c a IH]; ssimpl; [reflexivity | exact IH]. Qed.

Lemma greedy_bounds {A} (min k : nat) (try : nat -> option A) (r : A) :
  regexp.greedy min k try = Some r ->
  exists j, (min <= j <= k)%nat /\ try j = Some r.
Proof.
  induction k as [|k IH]; cbn [regexp.greedy].
  - destruct (Nat.ltb_spec 0 min) as [Hlt|Hge]; [discriminate|].
    destruct (try 0%nat) eqn:E; [|discriminate].
    intros [= <-]. exists 0%nat. split; [lia | exact E].
  - destruct (Nat.ltb_spec (S k) min) as [Hlt|Hge]; [discriminate|].
    destruct (try (S k)) eqn:E.
    + intros [= <-]. exists (S k). split; [lia | exact E].
    + intros Hg. destruct (IH Hg) as (j & Hj & Hr). exists j. split; [lia | exact Hr].
Qed.

Lemma greedy_top {A} (min k : nat) (try : nat -> option A) (r : A) :
  (min <= k)%nat -> try k = Some r -> regexp.greedy min k try = Some r.
Proof.
  intros Hk Hr. destruct k as [|k]; cbn [regexp.greedy].
  - destruct (Nat.ltb_spec 0 min); [lia|]. by rewrite Hr.
  - destruct (Nat.ltb_spec (S k) min); [lia|]. by rewrite Hr.
Qed.

(** ** The title pattern, piece by piece *)

(** A match of a pattern splits the input into the text of its first piece
    and a match of the remaining pieces. *)
Lemma matchAt_cons (p : regexp.piece) (re : regexp.Regexp) (pos : nat) (s : string)
    (n : nat) (groups : list string) :
  regexp.matchAt (p :: re) pos s = Some (n, groups) ->
  exists text rest n' groups',
    s = (text ++ rest)%string
    /\ atomAccepts (regexp.body p) pos text rest
    /\ regexp.matchAt re (pos + String.length text) rest = Some (n', groups')
    /\ n = (String.length text + n')%nat
    /\ groups = if regexp.capture p then text :: groups' else groups'.
Proof.
  cbn [regexp.matchAt].
  assert (Hwc : forall text rest pos',
             regexp.withCapture p text <$> regexp.matchAt re pos' rest = Some (n, groups) ->
             exists n' groups',
               regexp.matchAt re pos' rest = Some (n', groups')
               /\ n = (String.length text + n')%nat
               /\ groups = if regexp.capture p then text :: groups' else groups').
  { intros text rest pos' H.
    destruct (regexp.matchAt re pos' rest) as [[n' g']|]; [|discriminate].
    injection H as <- <-. eauto. }
  destruct (regexp.body p) as [| |l|min cls]; cbn [atomAccepts].
  - destruct (Nat.eqb_spec pos 0) as [->|]; [|discriminate].
    intros H. apply Hwc in H as (n' & g' & H & -> & ->).
    exists "", s, n', g'. rewrite Nat.add_0_r. done.
  - destruct s; [|discriminate].
    intros H. apply Hwc in H as (n' & g' & H & -> & ->).
    exists "", "", n', g'. rewrite Nat.add_0_r. done.
  - destruct (stripPrefix l s) as [rest|] eqn:E; [|discriminate].
    apply stripPrefix_Some in E as ->.
    intros H. apply Hwc in H as (n' & g' & H & -> & ->).
    exists l, rest, n', g'. done.
  - intros H. apply greedy_bounds in H as (k & Hk & H).
    apply Hwc in H as (n' & g' & H & -> & ->).
    destruct (span_take cls s k ltac:(lia)) as [Hall Hlen].
    exists (takeS k s), (dropS k s), n', g'.
    rewrite takeS_dropS, Hlen. repeat split; try done; lia.
Qed.

(** A match of the title pattern at the start of a title covers the whole
    title, which has the shape [Episode<spaces>N:<spaces>T]; the groups are
    [N], one or more digits, and [T], one or more characters without a
    newline. *)
Lemma titleRe_match_shape (s : string) (n : nat) (groups : list string) :
  regexp.matchAt titleRe 0 s = Some (n, groups) ->
  exists number rest,
    groups = [number; rest]
    /\ n = String.length s
    /\ titleShape s number rest
    /\ number <> "" /\ allOf regexp.isDigit number = true
    /\ rest <> "" /\ allOf regexp.isDot rest = true.
Proof.
  unfold titleRe. intros H.
  apply matchAt_cons in H as (t0 & r0 & n0 & g0 & -> & [_ ->] & H & -> & ->).
  apply matchAt_cons in H as (t1 & r1 & n1 & g1 & -> & -> & H & -> & ->).
  apply matchAt_cons in H as (ws & r2 & n2 & g2 & -> & [Hws1 Hws2] & H & -> & ->).
  apply matchAt_cons in H as (num & r3 & n3 & g3 & -> & [Hn1 Hn2] & H & -> & ->).
  apply matchAt_cons in H as (t4 & r4 & n4 & g4 & -> & -> & H & -> & ->).
  apply matchAt_cons in H as (ws' & r5 & n5 & g5 & -> & [_ Hws'] & H & -> & ->).
  apply matchAt_cons in H as (t & r6 & n6 & g6 & -> & [Ht1 Ht2] & H & -> & ->).
  apply matchAt_cons in H as (t7 & r7 & n7 & g7 & -> & [-> ->] & H & -> & ->).
  cbn [regexp.matchAt] in H. injection H as <- <-.
  cbn [regexp.capture regexp.plain regexp.group regexp.body] in *.
  exists num, t. rewrite !append_nil_l, !append_nil_r.
  split; [reflexivity|]. split.
  { rewrite !append_length. cbn. lia. }
  split.
  { exists ws, ws'. repeat split; try done.
    intros ->. cbn in Hws1. lia. }
  repeat split; try done.
  - intros ->. cbn in Hn1. lia.
  - intros ->. cbn in Ht1. lia.
Qed.

Lemma titleRe_not_at_start (pos : nat) (s : string) :
  regexp.findFrom titleRe (S pos) s = None.
Proof.
  revert pos. induction s as [|c s IH]; intros pos; cbn; [reflexivity | apply IH].
Qed.

(** [FindStringSubmatch] on the title pattern: the whole match is the title
    itself. *)
Lemma titleRe_submatch_shape (title whole number rest : string) :
  regexp.FindStringSubmatch titleRe title = [whole; number; rest] ->
  whole = title
  /\ titleShape title number rest
  /\ number <> "" /\ allOf regexp.isDigit number = true
  /\ rest <> "" /\ allOf regexp.isDot rest = true.
Proof.
  unfold regexp.FindStringSubmatch.
  destruct (regexp.findFrom titleRe 0 title) as [[w g]|] eqn:E; [|discriminate].
  intros [= -> ->].
  assert (Hm : exists n, regexp.matchAt titleRe 0 title = Some (n, [number; rest])
                         /\ whole = takeS n title).
  { destruct title as [|c title]; cbn [regexp.findFrom] in E.
    - destruct (regexp.matchAt titleRe 0 "") as [[n g]|]; [|discriminate].
      injection E as <- <-. eauto.
    - destruct (regexp.matchAt titleRe 0 (String c title)) as [[n g]|].
      + injection E as <- <-. eauto.
      + by rewrite titleRe_not_at_start in E. }
  destruct Hm as (n & Hm & ->).
  apply titleRe_match_shape in Hm as (num & t & [= <- <-] & -> & Hshape & Hrest).
  rewrite takeS_all. done.
Qed.

Lemma itemEpisode_Some (item : gofeed.Item) (ep : Episode) :
  itemEpisode item = Some ep ->
  exists e0 more,
    gofeed.Enclosures item = e0 :: more
    /\ URL ep = gofeed.URL e0
    /\ regexp.FindStringSubmatch titleRe (gofeed.Title item)
       = [gofeed.Title item; Number ep; Title ep].
Proof.
  unfold itemEpisode.
  destruct (gofeed.Enclosures item) as [|e0 more]; [discriminate|].
  destruct (regexp.FindStringSubmatch titleRe (gofeed.Title item))
    as [|w [|n [|t [|x l]]]] eqn:E; try discriminate.
  intros [= <-]. cbn [Number Title URL].
  destruct (titleRe_submatch_shape _ _ _ _ E) as [-> _].
  exists e0, more. done.
Qed.

(** X1: Every episode of a successful load into an empty list comes from a feed
    item with an enclosure whose title reads [Episode<spaces>N:<spaces>T]:
    its number is [N], one or more digits, its title is [T], one or more
    characters without a newline, and its URL is that of the item's first
    enclosure. *)
Theorem loaded_episodes_shape (env : Env) (d d' : Downloader) (log : list LogLine) :
  Episodes d = [] ->
  loadEpisodes env d = (d', None, log) ->
  exists feed,
    feeds env !! FeedURL d = Some feed
    /\ Forall (fun ep =>
         wellFormed ep
         /\ exists item e0 more,
              item ∈ gofeed.Items feed
              /\ gofeed.Enclosures item = e0 :: more
              /\ URL ep = gofeed.URL e0
              /\ titleShape (gofeed.Title item) (Number ep) (Title ep))
         (Episodes d').
Proof.
  intros Hnil Hload.
  destruct (feeds env !! FeedURL d) as [feed|] eqn:Hfeed.
  2:{ unfold loadEpisodes in Hload. rewrite Hfeed in Hload. discriminate. }
  exists feed. split; [reflexivity|].
  destruct (loadEpisodes_spec env d feed Hfeed) as [log' Hspec].
  rewrite Hspec in Hload. injection Hload as <- _.
  cbn [Episodes setEpisodes]. rewrite Hnil. cbn [app].
  apply Forall_forall. intros ep Hep.
  apply list_elem_of_In, in_rev, list_elem_of_In in Hep.
  apply list_elem_of_omap in Hep as (item & Hitem & Hsome).
  apply itemEpisode_Some in Hsome as (e0 & more & Henc & Hurl & Hsub).
  destruct (titleRe_submatch_shape _ _ _ _ Hsub) as (_ & Hshape & Hwf).
  split; [exact Hwf|]. exists item, e0, more. done.
Qed.

Lemma loaded_episodes_shape_witness :
  exists feed,
    feeds (feedEnv [item08; itemNews; item07]) !! FeedURL exampleDownloader = Some feed
    /\ Forall (fun ep =>
         wellFormed ep
         /\ exists item e0 more,
              item ∈ gofeed.Items feed
              /\ gofeed.Enclosures item = e0 :: more
              /\ URL ep = gofeed.URL e0
              /\ titleShape (gofeed.Title item) (Number ep) (Title ep))
         (Episodes (fst (fst (loadEpisodes (feedEnv [item08; itemNews; item07])
                                exampleDownloader)))).
Proof.
  apply (loaded_episodes_shape (feedEnv [item08; itemNews; item07]) exampleDownloader
           _ (snd (loadEpisodes (feedEnv [item08; itemNews; item07]) exampleDownloader))).
  - reflexivity.
  - vm_compute. reflexivity.
Defined.

Lemma isDigit_not_space (c : ascii) : regexp.isDigit c = true -> regexp.isSpace c = false.
Proof. destruct c as [[] [] [] [] [] [] [] []]; vm_compute; congruence. Qed.

Lemma span_head (cls : ascii -> bool) (c : ascii) (s : string) :
  cls c = false -> regexp.span cls (String c s) = 0%nat.
Proof. intros H. cbn. by rewrite H. Qed.

Lemma matchAt_lit (p : regexp.piece) (re : regexp.Regexp) (pos : nat)
    (l rest : string) (r : nat * list string) :
  regexp.body p = regexp.Lit l ->
  regexp.matchAt re (pos + String.length l) rest = Some r ->
  regexp.matchAt (p :: re) pos (l ++ rest)%string = Some (regexp.withCapture p l r).
Proof.
  intros Hb Hr. cbn [regexp.matchAt]. rewrite Hb, stripPrefix_app, Hr. reflexivity.
Qed.

Lemma matchAt_rep (p : regexp.piece) (re : regexp.Regexp) (pos min : nat)
    (cls : ascii -> bool) (text rest : string) (r : nat * list string) :
  regexp.body p = regexp.Rep min cls ->
  allOf cls text = true ->
  regexp.span cls rest = 0%nat ->
  (min <= String.length text)%nat ->
  regexp.matchAt re (pos + String.length text) rest = Some r ->
  regexp.matchAt (p :: re) pos (text ++ rest)%string
  = Some (regexp.withCapture p text r).
Proof.
  intros Hb Hall Hrest Hmin Hr. cbn [regexp.matchAt]. rewrite Hb.
  rewrite (span_app cls text rest Hall Hrest).
  apply greedy_top; [exact Hmin|].
  by rewrite takeS_app, dropS_app, Hr.
Qed.

Ltac piece_done :=
  unfold regexp.withCapture; simpl regexp.capture; cbn [fst snd];
  rewrite ?append_length; simpl; do 2 f_equal; lia.

(** X2: A title [Episode<spaces>N:<spaces>T] is accepted, with the groups [N]
    and [T], when [N] is one or more digits and [T] is free of newlines and
    starts with a character that is not white space. *)
Theorem title_accepted (ws number ws' : string) (c : ascii) (t : string) :
  ws <> "" -> allOf regexp.isSpace ws = true ->
  number <> "" -> allOf regexp.isDigit number = true ->
  allOf regexp.isSpace ws' = true ->
  regexp.isSpace c = false -> allOf regexp.isDot (String c t) = true ->
  let title := ("Episode" ++ ws ++ number ++ ":" ++ ws' ++ String c t)%string in
  regexp.FindStringSubmatch titleRe title = [title; number; String c t].
Proof.
  intros Hws1 Hws2 Hn1 Hn2 Hws' Hc Ht title.
  assert (Hlen : forall s : string, s <> "" -> (1 <= String.length s)%nat).
  { intros [|x s] Hs; [done | cbn; lia]. }
  pose (p2 := regexp.plain (regexp.Rep 1 regexp.isSpace)).
  pose (p3 := regexp.group (regexp.Rep 1 regexp.isDigit)).
  pose (p4 := regexp.plain (regexp.Lit ":")).
  pose (p5 := regexp.plain (regexp.Rep 0 regexp.isSpace)).
  pose (p6 := regexp.group (regexp.Rep 1 regexp.isDot)).
  pose (p7 := regexp.plain regexp.EndText).
  assert (H7 : forall pos, regexp.matchAt [p7] pos "" = Some (0%nat, []))
    by reflexivity.
  assert (H6 : forall pos,
             regexp.matchAt [p6; p7] pos (String c t)
             = Some (String.length (String c t), [String c t])).
  { intros pos. rewrite <- (append_nil_r (String c t)) at 1.
    rewrite (matchAt_rep p6 [p7] pos 1 regexp.isDot (String c t) "" _
               eq_refl Ht eq_refl ltac:(cbn; lia) (H7 _)).
    piece_done. }
  assert (H5 : forall pos,
             regexp.matchAt [p5; p6; p7] pos (ws' ++ String c t)%string
             = Some (String.length (ws' ++ String c t)%string, [String c t])).
  { intros pos.
    rewrite (matchAt_rep p5 [p6; p7] pos 0 regexp.isSpace ws' (String c t) _
               eq_refl Hws' (span_head _ _ _ Hc) ltac:(lia) (H6 _)).
    piece_done. }
  assert (H4 : forall pos,
             regexp.matchAt [p4; p5; p6; p7] pos (":" ++ ws' ++ String c t)%string
             = Some (String.length (":" ++ ws' ++ String c t)%string, [String c t])).
  { intros pos. rewrite (matchAt_lit p4 [p5; p6; p7] pos ":" _ _ eq_refl (H5 _)).
    piece_done. }
  assert (H3 : forall pos,
             regexp.matchAt [p3; p4; p5; p6; p7] pos
               (number ++ ":" ++ ws' ++ String c t)%string
             = Some (String.length (number ++ ":" ++ ws' ++ String c t)%string,
                     [number; String c t])).
  { intros pos.
    rewrite (matchAt_rep p3 [p4; p5; p6; p7] pos 1 regexp.isDigit number
               (":" ++ ws' ++ String c t)%string _
               eq_refl Hn2 eq_refl (Hlen _ Hn1) (H4 _)).
    piece_done. }
  assert (H2 : forall pos,
             regexp.matchAt [p2; p3; p4; p5; p6; p7] pos
               (ws ++ number ++ ":" ++ ws' ++ String c t)%string
             = Some (String.length (ws ++ number ++ ":" ++ ws' ++ String c t)%string,
                     [number; String c t])).
  { intros pos.
    assert (Hsp : regexp.span regexp.isSpace (number ++ ":" ++ ws' ++ String c t)%string
                  = 0%nat).
    { destruct number as [|x number]; [done|]. rewrite append_cons.
      apply span_head. cbn in Hn2. apply andb_true_iff in Hn2 as [Hx _].
      by apply isDigit_not_space. }
    rewrite (matchAt_rep p2 [p3; p4; p5; p6; p7] pos 1 regexp.isSpace ws _ _
               eq_refl Hws2 Hsp (Hlen _ Hws1) (H3 _)).
    piece_done. }
  assert (Hm : regexp.matchAt titleRe 0 title
               = Some (String.length title, [number; String c t])).
  { unfold titleRe, title.
    fold p2 p3 p4 p5 p6 p7.
    set (p1 := regexp.plain (regexp.Lit "Episode")).
    set (p0 := regexp.plain regexp.BeginText).
    assert (H1 : regexp.matchAt (p1 :: [p2; p3; p4; p5; p6; p7]) 0
                   ("Episode" ++ ws ++ number ++ ":" ++ ws' ++ String c t)%string
                 = Some (regexp.withCapture p1 "Episode"
                           (String.length (ws ++ number ++ ":" ++ ws' ++ String c t)%string,
                            [number; String c t])))
      by (apply matchAt_lit; [reflexivity | apply H2]).
    change (regexp.matchAt (p0 :: p1 :: [p2; p3; p4; p5; p6; p7]) 0
              ("Episode" ++ ws ++ number ++ ":" ++ ws' ++ String c t)%string)
      with (regexp.withCapture p0 ""
              <$> regexp.matchAt (p1 :: [p2; p3; p4; p5; p6; p7]) 0
                    ("Episode" ++ ws ++ number ++ ":" ++ ws' ++ String c t)%string).
    rewrite H1.
    cbn [fmap option_fmap option_map]. piece_done. }
  unfold regexp.FindStringSubmatch.
  assert (Hf : regexp.findFrom titleRe 0 title
               = Some (takeS (String.length title) title, [number; String c t])).
  { destruct title as [|x rest] eqn:E; cbn [regexp.findFrom]; by rewrite Hm. }
  rewrite Hf, takeS_all. reflexivity.
Qed.

Lemma title_accepted_witness :
  let title := ("Episode" ++ "  " ++ "07" ++ ":" ++ " " ++ String "N" "ight Drive")%string in
  regexp.FindStringSubmatch titleRe title = [title; "07"; String "N" "ight Drive"].
Proof.
  apply (title_accepted "  " "07" " " "N" "ight Drive");
    first [reflexivity | discriminate].
Defined.

(** ** The cleaning of paths *)

Lemma append_nonempty (a b : string) : b <> "" -> (a ++ b)%string <> "".
Proof. intros Hb. destruct a; [by rewrite append_nil_l | by rewrite append_cons]. Qed.

Lemma lastChar_app (a b : string) :
  b <> "" -> lastChar (a ++ b)%string = lastChar b.
Proof.
  intros Hb. induction a as [|c a IH]; [reflexivity|].
  rewrite append_cons. cbn [lastChar]. rewrite IH.
  destruct (a ++ b)%string eqn:E; [|reflexivity].
  destruct a; [by rewrite append_nil_l in E | by rewrite append_cons in E].
Qed.

Lemma lastChar_Some (s : string) (x : ascii) : lastChar s = Some x -> s <> "".
Proof. by destruct s. Qed.

Lemma allOf_app (cls : ascii -> bool) (a b : string) :
  allOf cls (a ++ b)%string = allOf cls a && allOf cls b.
Proof.
  induction a as [|c a IH]; [by rewrite append_nil_l|].
  rewrite append_cons. cbn [allOf]. by rewrite IH, andb_assoc.
Qed.

Lemma allOf_impl (cls cls' : ascii -> bool) (s : string) :
  (forall c, cls c = true -> cls' c = true) ->
  allOf cls s = true -> allOf cls' s = true.
Proof.
  intros Himp. induction s as [|c s IH]; [done|]. cbn [allOf].
  intros [Hc Hs]%andb_true_iff. by rewrite (Himp c Hc), (IH Hs).
Qed.

Lemma splitSlash_nonnil (s : string) : splitSlash s <> [].
Proof.
  destruct s as [|c s]; cbn [splitSlash]; [done|].
  destruct (Ascii.eqb c "/"); [done|]. by destruct (splitSlash s).
Qed.

Lemma splitSlash_noSlash (c : string) : noSlash c = true -> splitSlash c = [c].
Proof.
  unfold noSlash. induction c as [|x c IH]; cbn [allOf splitSlash]; [done|].
  intros [Hx Hc]%andb_true_iff. apply negb_true_iff in Hx.
  by rewrite Hx, (IH Hc).
Qed.

(** A slash ends a field. *)
Lemma splitSlash_app (p r : string) :
  splitSlash (p ++ String "/" r) = (splitSlash p ++ splitSlash r)%list.
Proof.
  induction p as [|x p IH].
  - rewrite append_nil_l. reflexivity.
  - rewrite append_cons. cbn [splitSlash]. rewrite IH.
    destruct (Ascii.eqb x "/"); [reflexivity|].
    pose proof (splitSlash_nonnil p) as Hp.
    by destruct (splitSlash p).
Qed.

Lemma joinSlash_snoc (l : list string) (c : string) :
  joinSlash (l ++ [c])
  = match l with
    | [] => c
    | _ => (joinSlash l ++ "/" ++ c)%string
    end.
Proof.
  induction l as [|x l IH]; [reflexivity|].
  destruct l as [|y l]; [reflexivity|].
  change (joinSlash ((x :: y :: l) ++ [c]))
    with (x ++ "/" ++ joinSlash ((y :: l) ++ [c]))%string.
  rewrite IH.
  change (joinSlash (x :: y :: l)) with (x ++ "/" ++ joinSlash (y :: l))%string.
  by rewrite !append_assoc.
Qed.

Lemma cleanPush_keep (rooted : bool) (kept : list string) (c : string) :
  c <> "" -> c <> "." -> c <> ".." -> cleanPush rooted kept c = c :: kept.
Proof.
  intros H0 H1 H2. unfold cleanPush.
  apply String.eqb_neq in H0, H1, H2. by rewrite H0, H1, H2.
Qed.

(** [Clean] keeps a last element that is no dot element. *)
Lemma Clean_last (p c : string) :
  noSlash c = true -> c <> "" -> c <> "." -> c <> ".." ->
  Clean (p ++ "/" ++ c) = (cleanDir p ++ c)%string.
Proof.
  intros Hc H0 H1 H2. unfold Clean, cleanElements, cleanDir.
  assert (Hr : isRooted (p ++ "/" ++ c) = isRooted (p ++ "/")).
  { destruct p; [by rewrite !append_nil_l | by rewrite !append_cons]. }
  rewrite Hr. change ("/" ++ c)%string with (String "/" c).
  rewrite splitSlash_app, (splitSlash_noSlash c Hc), fold_left_app.
  cbn [fold_left]. rewrite cleanPush_keep by done.
  cbn [rev]. rewrite joinSlash_snoc.
  destruct (fold_left _ (splitSlash p) []) as [|k kept].
  - cbn [rev]. destruct (isRooted (p ++ "/")); [by rewrite append_nil_r|].
    apply String.eqb_neq in H0. rewrite H0. by rewrite !append_nil_l.
  - destruct (rev (k :: kept)) as [|k' l] eqn:E.
    { apply (f_equal (@length _)) in E. rewrite length_rev in E. discriminate. }
    destruct (isRooted (p ++ "/")).
    + by rewrite !append_assoc.
    + rewrite append_nil_l, !append_assoc.
      assert (Hne : (joinSlash (k' :: l) ++ "/" ++ c)%string <> "").
      { apply append_nonempty. discriminate. }
      apply String.eqb_neq in Hne. by rewrite Hne.
Qed.

Lemma Clean_single (c : string) :
  noSlash c = true -> c <> "" -> c <> "." -> c <> ".." -> Clean c = c.
Proof.
  intros Hc H0 H1 H2. unfold Clean, cleanElements.
  rewrite (splitSlash_noSlash c Hc). cbn [fold_left].
  rewrite cleanPush_keep by done. cbn [rev app joinSlash].
  assert (Hr : isRooted c = false).
  { destruct c as [|x c]; [done|]. unfold noSlash in Hc. cbn [allOf] in Hc.
    apply andb_true_iff in Hc as [Hx _]. by apply negb_true_iff in Hx. }
  rewrite Hr. apply String.eqb_neq in H0. by rewrite H0.
Qed.

(** Every string ends in a field without slash, which is all of it or
    stands behind its last slash. *)
Lemma string_last_field (s : string) :
  exists c, noSlash c = true /\ (s = c \/ exists q, s = (q ++ "/" ++ c)%string).
Proof.
  induction s as [|x s (c & Hc & IH)].
  - exists ""%string. split; [reflexivity | by left].
  - destruct IH as [-> | (q & ->)].
    + destruct (Ascii.eqb_spec x "/") as [->|Hx].
      * exists c. split; [done|]. right. exists ""%string. by rewrite append_nil_l.
      * exists (String x c). split; [|by left].
        unfold noSlash in *. cbn [allOf]. rewrite Hc.
        apply Ascii.eqb_neq in Hx. by rewrite Hx.
    + exists c. split; [done|]. right. exists (String x q). by rewrite append_cons.
Qed.

Lemma Join_name (dir name : string) :
  name <> "" ->
  Join dir name = match dir with
                  | EmptyString => Clean name
                  | _ => Clean (dir ++ "/" ++ name)
                  end.
Proof. intros Hn. unfold Join. by destruct dir, name. Qed.

(** Where a name ends in a character that is neither slash nor dot, the
    joined and cleaned path ends in it too. *)
Lemma Join_last (dir name : string) (x : ascii) :
  lastChar name = Some x -> x <> "/"%char -> x <> "."%char ->
  exists base c,
    Join dir name = (base ++ c)%string /\ lastChar c = Some x.
Proof.
  intros Hlast Hs Hd.
  destruct (string_last_field name) as (c & Hc & Hname).
  assert (Hcx : lastChar c = Some x).
  { destruct Hname as [-> | (q & ->)]; [done|].
    destruct c as [|y c].
    - rewrite (lastChar_app q ("/" ++ "")) in Hlast by done.
      vm_compute in Hlast. injection Hlast as <-. done.
    - rewrite (lastChar_app q), (lastChar_app "/") in Hlast; [done | done |].
      by apply append_nonempty. }
  assert (H0 : c <> "") by (by apply (lastChar_Some c x)).
  assert (H1 : c <> ".") by (intros ->; injection Hcx as <-; done).
  assert (H2 : c <> "..") by (intros ->; injection Hcx as <-; done).
  pose proof (lastChar_Some _ _ Hlast) as Hne.
  rewrite (Join_name dir name Hne).
  destruct dir as [|d dir]; destruct Hname as [-> | (q & ->)].
  - exists ""%string, c. by rewrite Clean_single, append_nil_l.
  - exists (cleanDir q), c. by rewrite Clean_last.
  - exists (cleanDir (String d dir)), c. by rewrite Clean_last.
  - exists (cleanDir (String d dir ++ "/" ++ q)), c.
    by rewrite <- (Clean_last _ c), !append_assoc.
Qed.

Lemma lastChar_Join (dir name : string) (x : ascii) :
  lastChar name = Some x -> x <> "/"%char -> x <> "."%char ->
  lastChar (Join dir name) = Some x.
Proof.
  intros Hlast Hs Hd.
  destruct (Join_last dir name x Hlast Hs Hd) as (base & c & -> & Hc).
  rewrite lastChar_app; [done|]. by apply (lastChar_Some c x).
Qed.

Lemma fileNameOf_last (ep : Episode) :
  fileNameOf ep <> "" /\ lastChar (fileNameOf ep) = Some "3"%char.
Proof.
  unfold fileNameOf.
  assert (H1 : (Title ep ++ ".mp3")%string <> "") by (by apply append_nonempty).
  assert (H2 : (" - " ++ Title ep ++ ".mp3")%string <> "") by (by apply append_nonempty).
  split; [by apply append_nonempty|].
  rewrite (lastChar_app (Number ep)) by exact H2.
  rewrite (lastChar_app " - ") by exact H1.
  by rewrite (lastChar_app (Title ep)).
Qed.

(** [Clean] on paths with doubled slashes, dot elements and [..] at the
    root and at the front of a relative path. *)
Lemma Clean_examples :
  map Clean ["abc"; ""; "abc/def/"; "abc//def//ghi"; "//abc//"; "abc/./def"; "abc/.";
             "abc/def/ghi/../jkl"; "abc/def/../.."; "/abc/def/../../.."; "abc/def/../../..";
             "abc/def/../../../ghi/jkl/../../../mno"; "/../abc"; "abc/../../././../def"]
  = ["abc"; "."; "abc/def"; "abc/def/ghi"; "/abc"; "abc/def"; "abc";
     "abc/def/jkl"; "."; "/"; "..";
     "../../mno"; "/abc"; "../../def"].
Proof. vm_compute. reflexivity. Qed.

Lemma Join_examples :
  Join "out" "cover.jpg" = "out/cover.jpg"
  /\ Join "out/" "cover.jpg" = "out/cover.jpg"
  /\ Join "./out//" "07 - a/b.mp3" = "out/07 - a/b.mp3"
  /\ Join "out" "07 - ../x.mp3" = "out/07 - ../x.mp3"
  /\ Join "out" "07 - a/../../x.mp3" = "x.mp3"
  /\ Join "" "cover.jpg" = "cover.jpg"
  /\ Join "/" "cover.jpg" = "/cover.jpg".
Proof. vm_compute. repeat split. Qed.

(** ** File names as keys *)

(** Names without slash that are no dot elements stay apart when joined to
    one directory. *)
Lemma Join_inj (dir a b : string) :
  noSlash a = true -> noSlash b = true ->
  a <> "" -> a <> "." -> a <> ".." ->
  b <> "" -> b <> "." -> b <> ".." ->
  Join dir a = Join dir b -> a = b.
Proof.
  intros Ha Hb Ha0 Ha1 Ha2 Hb0 Hb1 Hb2.
  rewrite !Join_name by done. destruct dir as [|d dir].
  - by rewrite !Clean_single.
  - rewrite !Clean_last by done. apply append_inj_l.
Qed.

Lemma fileNameOf_noSlash (ep : Episode) :
  allOf regexp.isDigit (Number ep) = true ->
  noSlash (Title ep) = true ->
  noSlash (fileNameOf ep) = true.
Proof.
  intros Hn Ht. unfold fileNameOf, noSlash. rewrite !allOf_app.
  fold (noSlash (Title ep)). rewrite Ht.
  rewrite (allOf_impl regexp.isDigit _ (Number ep)); [reflexivity | | exact Hn].
  intros c Hc. destruct (Ascii.eqb_spec c "/") as [->|]; [discriminate | done].
Qed.

Lemma fileNameOf_plain (ep : Episode) :
  fileNameOf ep <> "" /\ fileNameOf ep <> "." /\ fileNameOf ep <> "..".
Proof.
  destruct (fileNameOf_last ep) as [H0 Hl].
  split; [done|]. split; intros E; rewrite E in Hl; discriminate.
Qed.

Lemma fileNameOf_inj (n1 t1 n2 t2 : string) :
  allOf regexp.isDigit n1 = true ->
  allOf regexp.isDigit n2 = true ->
  (n1 ++ " - " ++ t1 ++ ".mp3")%string = (n2 ++ " - " ++ t2 ++ ".mp3")%string ->
  n1 = n2 /\ t1 = t2.
Proof.
  revert n2. induction n1 as [|c n1 IH]; intros [|c2 n2] H1 H2 H.
  - rewrite !append_nil_l in H. apply (append_inj_l " - ") in H.
    apply append_inj_r in H. done.
  - rewrite append_nil_l, !append_cons in H. injection H as <- _.
    cbn in H2. discriminate.
  - rewrite append_nil_l, !append_cons in H. injection H as -> _.
    cbn in H1. discriminate.
  - rewrite !append_cons in H. injection H as -> H.
    cbn in H1, H2. apply andb_true_iff in H1 as [_ H1]. apply andb_true_iff in H2 as [_ H2].
    destruct (IH n2 H1 H2 H) as [-> ->]. done.
Qed.

(** X3: Two episodes whose numbers are digit strings and whose titles hold
    no slash get the same target file only if they have the same number and
    the same title: the cleaned path determines the file name, and the file
    name determines both. *)
Theorem target_is_a_key (d : Downloader) (ep1 ep2 : Episode) :
  allOf regexp.isDigit (Number ep1) = true ->
  allOf regexp.isDigit (Number ep2) = true ->
  noSlash (Title ep1) = true ->
  noSlash (Title ep2) = true ->
  targetOf d ep1 = targetOf d ep2 ->
  Number ep1 = Number ep2 /\ Title ep1 = Title ep2.
Proof.
  intros H1 H2 Ht1 Ht2 H.
  destruct (fileNameOf_plain ep1) as (? & ? & ?).
  destruct (fileNameOf_plain ep2) as (? & ? & ?).
  apply Join_inj in H; try done; try by apply fileNameOf_noSlash.
  unfold fileNameOf in H. by apply fileNameOf_inj.
Qed.

(** With a slash in a title the cleaning makes two episodes share a
    target. *)
Lemma target_shared :
  targetOf exampleDownloader {| Number := "07"; Title := "a/../07 - b"; URL := "u" |}
  = targetOf exampleDownloader {| Number := "07"; Title := "b"; URL := "u" |}.
Proof. reflexivity. Qed.

Lemma target_is_a_key_witness :
  Number ep07 = Number {| Number := "07"; Title := "Night Drive"; URL := "https://mirror/7" |}
  /\ Title ep07 = Title {| Number := "07"; Title := "Night Drive"; URL := "https://mirror/7" |}.
Proof.
  apply (target_is_a_key exampleDownloader ep07
           {| Number := "07"; Title := "Night Drive"; URL := "https://mirror/7" |});
    reflexivity.
Defined.

(** ** The loader: log lines and counts *)

Lemma loadItem_snd (eps : list Episode) (log : list LogLine) (item : gofeed.Item) :
  snd (loadItem (eps, log) item) = log ++ optionList (itemLog item).
Proof.
  unfold loadItem, itemLog.
  destruct (gofeed.Enclosures item) as [|e0 more]; cbn [length Nat.eqb].
  { cbn. by rewrite app_nil_r. }
  destruct (titleRe_submatch (gofeed.Title item)) as [-> | (w & n & t & ->)]; cbn.
  - reflexivity.
  - by rewrite app_nil_r.
Qed.

Lemma loadItems_snd (items : list gofeed.Item) :
  forall eps log,
    snd (fold_left loadItem items (eps, log)) = log ++ omap itemLog items.
Proof.
  induction items as [|item items IH]; intros eps log; cbn [fold_left omap list_omap].
  - by rewrite app_nil_r.
  - destruct (loadItem (eps, log) item) as [eps1 log1] eqn:E.
    rewrite IH. pose proof (loadItem_snd eps log item) as H. rewrite E in H.
    cbn [snd] in H. subst log1. rewrite <- app_assoc. f_equal.
    destruct (itemLog item); reflexivity.
Qed.

Lemma item_accounting (items : list gofeed.Item) :
  (length (omap itemEpisode items) + length (omap itemLog items)
   + length (List.filter noEnclosure items) = length items)%nat.
Proof.
  induction items as [|item items IH]; cbn [omap list_omap List.filter length]; [reflexivity|].
  unfold itemEpisode at 1, itemLog at 1, noEnclosure at 1.
  destruct (gofeed.Enclosures item) as [|e0 more]; cbn [length]; [lia|].
  destruct (titleRe_submatch (gofeed.Title item)) as [-> | (w & n & t & ->)];
    cbn [length]; lia.
Qed.

(** X4: A successful load logs one "Unrecognized title" line for each item that
    has an enclosure and a title the pattern rejects, in feed order, nothing
    for an item without enclosure, and last the number of episodes it now
    holds; each feed item is loaded, logged or silently skipped. *)
Theorem loadEpisodes_log (env : Env) (d d' : Downloader) (log : list LogLine) :
  loadEpisodes env d = (d', None, log) ->
  exists feed,
    feeds env !! FeedURL d = Some feed
    /\ log = omap itemLog (gofeed.Items feed)
             ++ [LogFound (Z.of_nat (length (Episodes d')))]
    /\ (length (Episodes d') + length (omap itemLog (gofeed.Items feed))
        + length (List.filter noEnclosure (gofeed.Items feed))
        = length (Episodes d) + length (gofeed.Items feed))%nat.
Proof.
  intros Hload. unfold loadEpisodes in Hload.
  destruct (feeds env !! FeedURL d) as [feed|] eqn:Hfeed; [|discriminate].
  exists feed. split; [reflexivity|].
  pose proof (loadItems_fst (gofeed.Items feed) (Episodes d) []) as Hf.
  pose proof (loadItems_snd (gofeed.Items feed) (Episodes d) []) as Hs.
  destruct (fold_left loadItem (gofeed.Items feed) (Episodes d, [])) as [eps lg].
  cbn [fst snd app] in Hf, Hs. subst eps lg.
  injection Hload as <- <-. cbn [Episodes setEpisodes].
  split; [reflexivity|].
  rewrite reverseInPlace_rev, length_rev, length_app.
  pose proof (item_accounting (gofeed.Items feed)). lia.
Qed.

Lemma loadEpisodes_log_witness :
  exists feed,
    feeds (feedEnv [item08; itemNews; item07]) !! FeedURL exampleDownloader = Some feed
    /\ snd (loadEpisodes (feedEnv [item08; itemNews; item07]) exampleDownloader)
       = omap itemLog (gofeed.Items feed)
         ++ [LogFound (Z.of_nat (length (Episodes
               (fst (fst (loadEpisodes (feedEnv [item08; itemNews; item07])
                            exampleDownloader))))))]
    /\ (length (Episodes (fst (fst (loadEpisodes (feedEnv [item08; itemNews; item07])
                                      exampleDownloader))))
        + length (omap itemLog (gofeed.Items feed))
        + length (List.filter noEnclosure (gofeed.Items feed))
        = length (Episodes exampleDownloader) + length (gofeed.Items feed))%nat.
Proof.
  apply (loadEpisodes_log (feedEnv [item08; itemNews; item07]) exampleDownloader).
  vm_compute. reflexivity.
Defined.

(** When the feed cannot be fetched or parsed, [loadEpisodes] returns the
    wrapped error, writes no log line and leaves the episode list alone. *)
Lemma loadEpisodes_no_feed (env : Env) (d : Downloader) :
  feeds env !! FeedURL d = None ->
  loadEpisodes env d = (d, Some (Wrap "failed to parse feed" ErrFeed), []).
Proof. intros H. unfold loadEpisodes. by rewrite H. Qed.

(** ** The loader of revision 2 against the loader of revisions 1 and 3 *)

Lemma itemEpisode_forget (item : gofeed.Item) :
  itemEpisode item = forget <$> itemEpisode2 item.
Proof.
  unfold itemEpisode, itemEpisode2.
  destruct (gofeed.Enclosures item) as [|e0 more]; [reflexivity|].
  destruct (regexp.FindStringSubmatch titleRe (gofeed.Title item))
    as [|w [|n [|t [|x l]]]]; reflexivity.
Qed.

Lemma omap_forget (items : list gofeed.Item) :
  omap itemEpisode items = forget <$> omap itemEpisode2 items.
Proof.
  induction items as [|item items IH]; cbn [omap list_omap]; [reflexivity|].
  rewrite itemEpisode_forget. destruct (itemEpisode2 item); cbn; by rewrite IH.
Qed.

Lemma loadItem2_snd (eps : list Rev2.Episode) (log : list LogLine) (item : gofeed.Item) :
  snd (Rev2.loadItem (eps, log) item) = log ++ optionList (itemLog item).
Proof.
  unfold Rev2.loadItem, itemLog.
  destruct (gofeed.Enclosures item) as [|e0 more]; cbn [length Nat.eqb].
  { cbn. by rewrite app_nil_r. }
  destruct (titleRe_submatch (gofeed.Title item)) as [-> | (w & n & t & ->)]; cbn.
  - reflexivity.
  - by rewrite app_nil_r.
Qed.

Lemma loadItems2_snd (items : list gofeed.Item) :
  forall eps log,
    snd (fold_left Rev2.loadItem items (eps, log)) = log ++ omap itemLog items.
Proof.
  induction items as [|item items IH]; intros eps log; cbn [fold_left omap list_omap].
  - by rewrite app_nil_r.
  - destruct (Rev2.loadItem (eps, log) item) as [eps1 log1] eqn:E.
    rewrite IH. pose proof (loadItem2_snd eps log item) as H. rewrite E in H.
    cbn [snd] in H. subst log1. rewrite <- app_assoc. f_equal.
    destruct (itemLog item); reflexivity.
Qed.

(** X5: The loader of revision 2 yields the episodes of the loader of revisions
    1 and 3, in the same order and with the same log and error; it only adds
    the expected size, which always lies within int64. *)
Theorem loaders_agree (env : Env) (d : Downloader) :
  Episodes d = [] ->
  let '(eps2, err2, log2) := Rev2.loadEpisodes env (FeedURL d) [] in
  let '(d', err, log) := loadEpisodes env d in
  Episodes d' = forget <$> eps2
  /\ err = err2 /\ log = log2
  /\ Forall (fun ep =>
       strconv.int64_min <= Rev2.ExpectedSize ep <= strconv.int64_max) eps2.
Proof.
  intros Hnil. unfold Rev2.loadEpisodes, loadEpisodes.
  destruct (feeds env !! FeedURL d) as [feed|] eqn:Hfeed.
  2:{ rewrite Hnil. repeat split. constructor. }
  pose proof (loadItems_fst (gofeed.Items feed) (Episodes d) []) as Hf.
  pose proof (loadItems_snd (gofeed.Items feed) (Episodes d) []) as Hs.
  pose proof (loadItems2_fst (gofeed.Items feed) [] []) as Hf2.
  pose proof (loadItems2_snd (gofeed.Items feed) [] []) as Hs2.
  destruct (fold_left loadItem (gofeed.Items feed) (Episodes d, [])) as [eps lg].
  destruct (fold_left Rev2.loadItem (gofeed.Items feed) ([], [])) as [eps2 lg2].
  cbn [fst snd app] in *. subst eps lg eps2 lg2. rewrite Hnil. cbn [app].
  cbn [Episodes setEpisodes]. rewrite !reverseInPlace_rev.
  split; [|split; [reflexivity|split]].
  - rewrite omap_forget. change (forget <$> ?l) with (map forget l).
    by rewrite map_rev.
  - rewrite !length_rev, omap_forget, length_fmap. reflexivity.
  - apply Forall_forall. intros ep Hep.
    apply list_elem_of_In, in_rev, list_elem_of_In in Hep.
    apply list_elem_of_omap in Hep as (item & _ & Hsome).
    unfold itemEpisode2 in Hsome.
    destruct (gofeed.Enclosures item) as [|e0 more]; [discriminate|].
    destruct (regexp.FindStringSubmatch titleRe (gofeed.Title item))
      as [|w [|n [|t [|x l]]]]; try discriminate.
    injection Hsome as <-. cbn [Rev2.ExpectedSize].
    unfold strconv.ParseInt.
    destruct (match gofeed.Length e0 with
              | String "+" r => (false, r)
              | String "-" r => (true, r)
              | _ => (false, gofeed.Length e0)
              end) as [neg digits].
    assert (H0 : strconv.int64_min <= 0 <= strconv.int64_max)
      by (unfold strconv.int64_min, strconv.int64_max; lia).
    destruct digits as [|c digits]; [exact H0|].
    destruct (strconv.decimal (String c digits) 0) as [v|]; [|exact H0].
    destruct ((strconv.int64_min <=? (if neg then - v else v))
              && ((if neg then - v else v) <=? strconv.int64_max)) eqn:E; [|exact H0].
    apply andb_true_iff in E as [E1 E2]. lia.
Qed.

Lemma loaders_agree_witness :
  let '(eps2, err2, log2) :=
    Rev2.loadEpisodes (feedEnv [item08; itemNews; item07]) (FeedURL exampleDownloader) [] in
  let '(d', err, log) := loadEpisodes (feedEnv [item08; itemNews; item07]) exampleDownloader in
  Episodes d' = forget <$> eps2
  /\ err = err2 /\ log = log2
  /\ Forall (fun ep =>
       strconv.int64_min <= Rev2.ExpectedSize ep <= strconv.int64_max) eps2.
Proof.
  apply (loaders_agree (feedEnv [item08; itemNews; item07]) exampleDownloader).
  reflexivity.
Defined.

(** ** The cover *)

(** X6: A successful [fetchCover] leaves the cover file in place and every other
    file as it was; when the cover is already there nothing is written or
    logged; and once it is there, a further [fetchCover] changes nothing and
    needs no network. *)
Theorem fetchCover_once (env : Env) (fs fs1 : FS) (d : Downloader) (log : list LogLine) :
  fetchCover env fs d = (fs1, None, log) ->
  let coverPath := Join (OutputDir d) "cover.jpg" in
  is_Some (fs1 !! coverPath)
  /\ (forall p, p <> coverPath -> fs1 !! p = fs !! p)
  /\ (is_Some (fs !! coverPath) -> fs1 = fs /\ log = [])
  /\ forall env', fetchCover env' fs1 d = (fs1, None, []).
Proof.
  intros H coverPath.
  assert (Hin : is_Some (fs1 !! coverPath)
                /\ (forall p, p <> coverPath -> fs1 !! p = fs !! p)
                /\ (is_Some (fs !! coverPath) -> fs1 = fs /\ log = [])).
  { unfold fetchCover in H. fold coverPath in H. unfold os.Stat, os.Create in H.
    destruct (fs !! coverPath) as [f|] eqn:Ef; cbn [isNil] in H.
    - injection H as <- <-. rewrite Ef. repeat split; eauto.
    - destruct (remote env !! CoverURL d) as [resp|]; [|discriminate].
      destruct (decide (coverPath ∈ readonly env)); [discriminate|].
      destruct (http.BodyErr resp); [discriminate|].
      injection H as <- <-. split; [|split].
      + rewrite lookup_insert_eq. eauto.
      + intros p Hp. by rewrite !lookup_insert_ne.
      + by intros [? ?]. }
  destruct Hin as (Hex & Hframe & Hsame).
  split; [exact Hex|]. split; [exact Hframe|]. split; [exact Hsame|].
  intros env'. unfold fetchCover. fold coverPath. unfold os.Stat.
  destruct Hex as [f ->]. reflexivity.
Qed.

Lemma fetchCover_once_witness :
  let coverPath := Join (OutputDir exampleDownloader) "cover.jpg" in
  is_Some (coverOnlyFS !! coverPath)
  /\ (forall p, p <> coverPath -> coverOnlyFS !! p = (∅ : FS) !! p)
  /\ (is_Some ((∅ : FS) !! coverPath) -> coverOnlyFS = ∅ /\ [LogCoverDownloaded] = [])
  /\ forall env', fetchCover env' coverOnlyFS exampleDownloader = (coverOnlyFS, None, []).
Proof.
  apply (fetchCover_once fullEnv ∅ coverOnlyFS exampleDownloader [LogCoverDownloaded]).
  vm_compute. reflexivity.
Defined.

(** X7: A cover whose download breaks off is reported as an error, but the bytes
    received stay in the cover file, and the next [fetchCover] takes that
    file for the cover without fetching again. *)
Theorem fetchCover_truncated (env : Env) (fs : FS) (d : Downloader) (resp : http.Response) :
  let coverPath := Join (OutputDir d) "cover.jpg" in
  fs !! coverPath = None ->
  remote env !! CoverURL d = Some resp ->
  http.BodyErr resp = true ->
  coverPath ∉ readonly env ->
  exists fs1,
    fetchCover env fs d = (fs1, Some (Wrap "failed to write cover file" ErrBody), [])
    /\ fs1 !! coverPath = Some (http.Body resp)
    /\ forall env', fetchCover env' fs1 d = (fs1, None, []).
Proof.
  intros coverPath Hno Hresp Herr Hw.
  eexists. split; [|split].
  - unfold fetchCover. fold coverPath. unfold os.Stat, os.Create.
    rewrite Hno, Hresp, Herr. cbn [isNil]. rewrite decide_False by done. reflexivity.
  - apply lookup_insert_eq.
  - intros env'. unfold fetchCover. fold coverPath. unfold os.Stat.
    rewrite lookup_insert_eq. reflexivity.
Qed.

Lemma fetchCover_truncated_witness :
  exists fs1,
    fetchCover brokenEnv ∅ exampleDownloader
    = (fs1, Some (Wrap "failed to write cover file" ErrBody), [])
    /\ fs1 !! Join (OutputDir exampleDownloader) "cover.jpg" = Some (http.Body brokenResponse)
    /\ forall env', fetchCover env' fs1 exampleDownloader = (fs1, None, []).
Proof.
  apply (fetchCover_truncated brokenEnv ∅ exampleDownloader brokenResponse).
  - reflexivity.
  - reflexivity.
  - reflexivity.
  - apply not_elem_of_empty.
Defined.

(** ** The file fetcher *)

(** X8: [downloadFile] touches no file but its destination. When the request or
    the creation of the file fails it changes nothing; otherwise the
    destination holds exactly the bytes received, whatever it held before,
    and the call fails exactly when the body broke off. *)
Theorem downloadFile_effect (env : Env) (fs fs' : FS) (url dest : string)
    (r : option error) :
  downloadFile env fs url dest = (fs', r) ->
  (forall p, p <> dest -> fs' !! p = fs !! p)
  /\ match remote env !! url with
     | None => fs' = fs /\ r = Some ErrTransport
     | Some resp =>
         if decide (dest ∈ readonly env)
         then fs' = fs /\ r = Some ErrPermission
         else fs' !! dest = Some (http.Body resp)
              /\ r = (if http.BodyErr resp then Some ErrBody else None)
     end.
Proof.
  unfold downloadFile, os.Create.
  destruct (remote env !! url) as [resp|]; [|by intros [= <- <-]].
  destruct (decide (dest ∈ readonly env)); [by intros [= <- <-]|].
  intros [= <- <-]. split.
  - intros p Hp. by rewrite !lookup_insert_ne.
  - split; [apply lookup_insert_eq | reflexivity].
Qed.

Lemma downloadFile_effect_witness :
  (forall p, p <> target07 ->
     fst (downloadFile netEnv untaggedFS "https://host/ep07.mp3" target07) !! p
     = untaggedFS !! p)
  /\ match remote netEnv !! "https://host/ep07.mp3" with
     | None => fst (downloadFile netEnv untaggedFS "https://host/ep07.mp3" target07)
               = untaggedFS
               /\ snd (downloadFile netEnv untaggedFS "https://host/ep07.mp3" target07)
                  = Some ErrTransport
     | Some resp =>
         if decide (target07 ∈ readonly netEnv)
         then fst (downloadFile netEnv untaggedFS "https://host/ep07.mp3" target07)
              = untaggedFS
              /\ snd (downloadFile netEnv untaggedFS "https://host/ep07.mp3" target07)
                 = Some ErrPermission
         else fst (downloadFile netEnv untaggedFS "https://host/ep07.mp3" target07)
                !! target07 = Some (http.Body resp)
              /\ snd (downloadFile netEnv untaggedFS "https://host/ep07.mp3" target07)
                 = (if http.BodyErr resp then Some ErrBody else None)
     end.
Proof.
  apply (downloadFile_effect netEnv untaggedFS _ "https://host/ep07.mp3" target07).
  apply surjective_pairing.
Defined.

(** ** The tagger: failures and effects *)

Lemma opens_false (f : FileData) :
  opens f = false
  <-> (exists raw, container f = Unreadable raw) \/ shortOfHeader f.
Proof.
  unfold opens, shortOfHeader. destruct (container f) as [|t|raw].
  - rewrite negb_false_iff, andb_true_iff, !Nat.ltb_lt. split.
    + intros H. right. done.
    + intros [[raw ?]|[_ ?]]; done.
  - split; [done | intros [[raw ?]|[? _]]; done].
  - split; [eauto | done].
Qed.

Lemma Open_opens (fs : FS) (path : string) (f : FileData) :
  fs !! path = Some f ->
  if opens f then exists t, id3v2_Open fs path = inl t
  else exists e, id3v2_Open fs path = inr e.
Proof.
  intros Hf. unfold id3v2_Open, opens. rewrite Hf.
  destruct (container f); cbv zeta; [destruct (_ && _)| |]; cbn [negb]; eauto.
Qed.

(** X9: [tagEpisode] fails exactly when the audio file is missing, carries a
    tag the reader rejects, has no tag and is shorter than a tag header
    without being empty, when the cover file is missing, or when the audio
    file refuses writes; a failed call has written nothing, so the album is
    not set either when only the cover is missing. *)
Theorem tagEpisode_fails_iff (env : Env) (fs : FS) (mp3Path coverPath : string) :
  (snd (tagEpisode env fs mp3Path coverPath) <> None
   <-> fs !! mp3Path = None
       \/ (exists f raw, fs !! mp3Path = Some f /\ container f = Unreadable raw)
       \/ (exists f, fs !! mp3Path = Some f /\ shortOfHeader f)
       \/ fs !! coverPath = None
       \/ mp3Path ∈ readonly env)
  /\ (snd (tagEpisode env fs mp3Path coverPath) <> None ->
      fst (tagEpisode env fs mp3Path coverPath) = fs).
Proof.
  unfold tagEpisode.
  destruct (fs !! mp3Path) as [f|] eqn:Ef.
  2:{ unfold id3v2_Open. rewrite Ef. cbn. split; [|done]. split; [auto | discriminate]. }
  pose proof (Open_opens fs mp3Path f Ef) as Ho.
  pose proof (opens_false f) as Hop.
  destruct (opens f) eqn:Eop.
  - destruct Ho as [t ->]. unfold os.ReadFile, id3v2_Save. rewrite Ef.
    assert (Hno : ~ ((exists f' raw, Some f = Some f' /\ container f' = Unreadable raw)
                     \/ exists f', Some f = Some f' /\ shortOfHeader f')).
    { intros [(f' & raw & [= <-] & Hc)|(f' & [= <-] & Hs)];
        (assert (true = false) by (apply Hop; eauto)); discriminate. }
    destruct (fs !! coverPath) as [c|] eqn:Ecov.
    2:{ cbn. split; [|done]. split; [auto 6 | discriminate]. }
    destruct (decide (mp3Path ∈ readonly env)) as [Hro|Hro].
    + cbn. split; [|done]. split; [auto 6 | discriminate].
    + cbn. split; [|done]. split; [done|].
      intros [?|[?|[?|[?|?]]]]; try done.
      * destruct Hno. by left.
      * destruct Hno. by right.
  - destruct Ho as [e ->]. cbn. split; [|done]. split; [|discriminate].
    intros _. destruct (proj1 Hop eq_refl) as [[raw Hc]|Hs].
    + right. left. eauto.
    + right. right. left. eauto.
Qed.

(** An untagged file of four bytes is not tagged: the reader gives up on
    it, and the file stays as it was. *)
Lemma short_file_not_tagged :
  let fs : FS := {[ target07 := {| container := NoTag; audio := jpegBytes |};
                    cover07 := coverFile ]} in
  tagEpisode netEnv fs target07 cover07 = (fs, Some ErrSmallHeaderSize).
Proof. reflexivity. Qed.

Lemma addToSequence_new (pf : id3v2.PictureFrame) (s : list id3v2.PictureFrame) :
  pf ∈ id3v2.addToSequence pf s.
Proof.
  induction s as [|ff s IH]; cbn [id3v2.addToSequence]; [left|].
  destruct (String.eqb _ _); [left | by right].
Qed.

Lemma addToSequence_keeps (pf ff : id3v2.PictureFrame) (s : list id3v2.PictureFrame) :
  ff ∈ s ->
  String.eqb (id3v2.UniqueIdentifier ff) (id3v2.UniqueIdentifier pf) = false ->
  ff ∈ id3v2.addToSequence pf s.
Proof.
  intros Hin Hne. induction s as [|g s IH]; cbn [id3v2.addToSequence].
  - by apply elem_of_nil in Hin.
  - apply elem_of_cons in Hin as [->|Hin].
    + rewrite String.eqb_sym, Hne. left.
    + destruct (String.eqb (id3v2.UniqueIdentifier pf) (id3v2.UniqueIdentifier g));
        right; [exact Hin | by apply IH].
Qed.

Lemma tagEpisode_complete (env : Env) (fs fs1 : FS) (mp3Path coverPath : string) :
  tagEpisode env fs mp3Path coverPath = (fs1, None) -> isComplete fs1 mp3Path.
Proof.
  intros H.
  destruct (tagEpisode_ok _ _ _ _ _ H) as (f & t & cover & Hf & Ho & Hr & Hw & ->).
  eexists _, _. split; [apply lookup_insert_eq|]. split; [reflexivity|].
  cbn [id3v2.AddAttachedPicture id3v2.SetAlbum id3v2.text id3v2.pictures]. split.
  - apply lookup_insert_eq.
  - intros Hnil. pose proof (addToSequence_new (coverFrame cover) (id3v2.pictures t)) as Hin.
    rewrite Hnil in Hin. by apply elem_of_nil in Hin.
Qed.

Lemma Open_text (fs : FS) (path : string) (f : FileData) (t : id3v2.Tag) :
  fs !! path = Some f ->
  id3v2_Open fs path = inl t ->
  id3v2.text t = diskText f.
Proof.
  intros Hf. unfold id3v2_Open, diskText. rewrite Hf.
  destruct (container f) as [|t0|raw]; [| by intros [= <-] | done].
  cbv zeta. destruct (_ && _); [done|]. by intros [= <-].
Qed.

(** X10: After a successful [tagEpisode] the file reads back with the album
    set and with these picture frames: the Tagger's frame, holding the
    bytes of the cover file as they were, and of the frames the file held
    with another description than [Cover] the last one of each description.
    The text frames other than the album are those of the file, the audio
    bytes are the same, and no other file has changed. *)
Theorem tagEpisode_effect (env : Env) (fs fs1 : FS) (mp3Path coverPath : string) :
  tagEpisode env fs mp3Path coverPath = (fs1, None) ->
  exists f cover t1,
    fs !! mp3Path = Some f
    /\ os.ReadFile env fs coverPath = inl cover
    /\ id3v2_Open fs1 mp3Path = inl t1
    /\ id3v2.Album t1 = albumName
    /\ (forall pf,
          pf ∈ id3v2.pictures t1
          <-> pf = coverFrame cover
              \/ (id3v2.Description pf <> "Cover"%string
                  /\ lastDescribed (id3v2.Description pf) (diskPictures fs mp3Path)
                     = Some pf))
    /\ (forall id, id <> "TALB" -> id3v2.text t1 !! id = diskText f !! id)
    /\ audio <$> fs1 !! mp3Path = Some (audio f)
    /\ forall p, p <> mp3Path -> fs1 !! p = fs !! p.
Proof.
  intros H.
  destruct (tagEpisode_frame _ _ _ _ _ _ H) as [_ Hframe].
  destruct (tagEpisode_ok _ _ _ _ _ H) as (f & t & cover & Hf & Ho & Hr & Hw & ->).
  pose proof (Open_NoDup _ _ _ Ho) as Hnd.
  pose proof (Open_pictures _ _ _ Ho) as Hdisk.
  pose proof (Open_text _ _ _ _ Hf Ho) as Htext.
  set (t1 := id3v2.AddAttachedPicture (id3v2.SetAlbum t albumName) (coverFrame cover)).
  assert (Hnd1 : NoDup (ids (id3v2.pictures t1))).
  { unfold t1. rewrite tagged_pictures. by apply addToSequence_NoDup. }
  exists f, cover, t1.
  split; [exact Hf|]. split; [exact Hr|].
  split; [by apply Open_written|].
  split.
  { unfold id3v2.Album, t1. cbn [id3v2.AddAttachedPicture id3v2.SetAlbum id3v2.text].
    by rewrite lookup_insert_eq. }
  split.
  { intros pf. unfold t1. rewrite tagged_pictures, (addToSequence_In _ _ _ Hnd), Hdisk,
      (fold_addToSequence_In _ [] pf NoDup_nil_2).
    change (id3v2.UniqueIdentifier pf) with (id3v2.Description pf).
    change (id3v2.UniqueIdentifier (coverFrame cover)) with "Cover"%string.
    split.
    - intros [?|[[?|[_ Hin]] ?]]; [by left | by right |].
      by apply not_elem_of_nil in Hin.
    - intros [?|[? ?]]; [by left|]. right. split; [by left | done]. }
  split.
  { intros id Hid. cbn [t1 id3v2.AddAttachedPicture id3v2.SetAlbum id3v2.text].
    by rewrite lookup_insert_ne, Htext. }
  split; [by rewrite lookup_insert_eq | exact Hframe].
Qed.

Lemma tagEpisode_effect_witness :
  exists f cover t1,
    photoFS !! target07 = Some f
    /\ os.ReadFile netEnv photoFS cover07 = inl cover
    /\ id3v2_Open (fst (tagEpisode netEnv photoFS target07 cover07)) target07 = inl t1
    /\ id3v2.Album t1 = albumName
    /\ (forall pf,
          pf ∈ id3v2.pictures t1
          <-> pf = coverFrame cover
              \/ (id3v2.Description pf <> "Cover"%string
                  /\ lastDescribed (id3v2.Description pf) (diskPictures photoFS target07)
                     = Some pf))
    /\ (forall id, id <> "TALB" -> id3v2.text t1 !! id = diskText f !! id)
    /\ audio <$> fst (tagEpisode netEnv photoFS target07 cover07) !! target07
       = Some (audio f)
    /\ forall p, p <> target07 ->
                 fst (tagEpisode netEnv photoFS target07 cover07) !! p = photoFS !! p.
Proof.
  apply (tagEpisode_effect netEnv photoFS _ target07 cover07).
  reflexivity.
Defined.

(** ** The workers across runs *)

(** X11: A complete target file is left alone by the workers of revisions 2 and
    3: one log line, no fetch, no tagging, no change to the file system,
    with or without a network. *)
Theorem complete_file_untouched (env : Env) (d : Downloader) (cover : string)
    (ep : Episode) (ep2 : Rev2.Episode) (fs : FS) :
  isComplete fs (targetOf d ep) ->
  Rev2.fileNameOf ep2 = fileNameOf ep ->
  Rev3.worker env d cover ep fs = (fs, [EvLog (LogAlreadyComplete (fileNameOf ep))])
  /\ Rev2.worker env (OutputDir d) ep2 fs
     = (fs, [EvLog (LogAlreadyComplete (fileNameOf ep))]).
Proof.
  intros Hc Hname. split.
  - unfold Rev3.worker. fold (targetOf d ep).
    assert (Hex : isNil (os.Stat env fs (targetOf d ep)) = true).
    { apply Stat_isNil. destruct Hc as (f & t & -> & _). eauto. }
    rewrite Hex. apply metadataComplete_iff, metadataComplete_pair in Hc.
    by rewrite Hc.
  - unfold Rev2.worker. rewrite Hname. fold (targetOf d ep).
    apply (fileIsComplete_iff fs (Rev2.URL ep2) _ (Rev2.ExpectedSize ep2)) in Hc.
    by rewrite Hc.
Qed.

Lemma complete_file_untouched_witness :
  Rev3.worker offlineEnv exampleDownloader cover07 ep07 taggedOnceFS
  = (taggedOnceFS, [EvLog (LogAlreadyComplete (fileNameOf ep07))])
  /\ Rev2.worker offlineEnv (OutputDir exampleDownloader) ep07r2 taggedOnceFS
     = (taggedOnceFS, [EvLog (LogAlreadyComplete (fileNameOf ep07))]).
Proof.
  apply (complete_file_untouched offlineEnv exampleDownloader cover07 ep07 ep07r2
           taggedOnceFS).
  - apply metadataComplete_iff. vm_compute. reflexivity.
  - reflexivity.
Defined.

(** Revision 3 never fetches an episode whose target file exists, whatever
    the file holds. *)
Lemma existing_file_never_fetched (env : Env) (d : Downloader) (cover : string)
    (ep : Episode) (fs : FS) :
  is_Some (fs !! targetOf d ep) ->
  List.filter isDownload (snd (Rev3.worker env d cover ep fs)) = [].
Proof.
  intros Hex. apply (Stat_isNil env) in Hex.
  unfold Rev3.worker. fold (targetOf d ep). rewrite Hex.
  destruct (metadataComplete fs (targetOf d ep)) as [[|] [e|]];
    try reflexivity;
    destruct (tagEpisode env fs (targetOf d ep) cover) as [fs1 [e'|]]; reflexivity.
Qed.

(** X12: For a target file that is not there, a download that goes through and a
    cover that is there, the worker of revision 3 fetches, then tags: the
    resulting file is complete, holds the audio bytes received, and no other
    file has changed. This needs bytes the metadata library opens (a tag it
    accepts, or no tag and then no bytes at all or ten and more) and a
    target that can be written. *)
Theorem fresh_download_complete (env : Env) (d : Downloader) (cover : string)
    (ep : Episode) (fs : FS) (resp : http.Response) :
  fs !! targetOf d ep = None ->
  remote env !! URL ep = Some resp ->
  http.BodyErr resp = false ->
  opens (http.Body resp) = true ->
  targetOf d ep ∉ readonly env ->
  is_Some (fs !! cover) ->
  exists fs',
    Rev3.worker env d cover ep fs
    = (fs', [EvLog (LogDownloading (fileNameOf ep));
             EvDownload (URL ep) (targetOf d ep);
             EvTag (targetOf d ep) cover;
             EvLog (LogProcessed (fileNameOf ep))])
    /\ isComplete fs' (targetOf d ep)
    /\ audio <$> fs' !! targetOf d ep = Some (audio (http.Body resp))
    /\ forall p, p <> targetOf d ep -> fs' !! p = fs !! p.
Proof.
  intros Hno Hresp Hbody Hread Hw [c Hc].
  assert (Hne : cover <> targetOf d ep) by congruence.
  unfold Rev3.worker. fold (targetOf d ep).
  assert (Hst : isNil (os.Stat env fs (targetOf d ep)) = false).
  { unfold os.Stat. by rewrite Hno. }
  rewrite Hst.
  assert (Hd : downloadFile env fs (URL ep) (targetOf d ep)
               = (<[targetOf d ep := http.Body resp]> (<[targetOf d ep := emptyFile]> fs),
                  None)).
  { unfold downloadFile, os.Create. rewrite Hresp, Hbody. by rewrite decide_False. }
  rewrite Hd. set (fs1 := <[targetOf d ep := http.Body resp]> _).
  assert (Ho : exists t, id3v2_Open fs1 (targetOf d ep) = inl t).
  { pose proof (Open_opens fs1 (targetOf d ep) (http.Body resp)) as Ho.
    rewrite Hread in Ho. apply Ho. unfold fs1. apply lookup_insert_eq. }
  destruct Ho as [t Ho].
  assert (Hr : os.ReadFile env fs1 cover = inl (fileBytes env c)).
  { unfold os.ReadFile, fs1. by rewrite !lookup_insert_ne, Hc. }
  pose proof (tagEpisode_run env fs1 (targetOf d ep) cover (http.Body resp) t _
                ltac:(apply lookup_insert_eq) Ho Hr Hw) as Ht.
  rewrite Ht. eexists. split; [reflexivity|].
  split; [by eapply tagEpisode_complete|].
  split; [by rewrite lookup_insert_eq|].
  intros p Hp. unfold fs1. by rewrite !lookup_insert_ne.
Qed.

Lemma fresh_download_complete_witness :
  exists fs',
    Rev3.worker fullEnv loadedDownloader cover07 ep07 coverOnlyFS
    = (fs', [EvLog (LogDownloading (fileNameOf ep07));
             EvDownload (URL ep07) (targetOf loadedDownloader ep07);
             EvTag (targetOf loadedDownloader ep07) cover07;
             EvLog (LogProcessed (fileNameOf ep07))])
    /\ isComplete fs' (targetOf loadedDownloader ep07)
    /\ audio <$> fs' !! targetOf loadedDownloader ep07 = Some (audio (http.Body response07))
    /\ forall p, p <> targetOf loadedDownloader ep07 -> fs' !! p = coverOnlyFS !! p.
Proof.
  apply (fresh_download_complete fullEnv loadedDownloader cover07 ep07 coverOnlyFS
           response07).
  - reflexivity.
  - reflexivity.
  - reflexivity.
  - reflexivity.
  - apply not_elem_of_empty.
  - vm_compute. eauto.
Defined.

Ltac not_logged :=
  match goal with
  | H : _ \/ _ \/ _ |- _ =>
      destruct H as [H|[H|H]]; cbn in H;
      repeat (apply elem_of_cons in H as [H|H]; [discriminate H|]);
      by apply elem_of_nil in H
  end.

(** X13: An episode that a run of the worker of revision 3 reports as processed,
    as updated or as already complete is skipped by the next run, which
    changes nothing and needs no network. *)
Theorem processed_then_skipped (env env' : Env) (d : Downloader) (cover : string)
    (ep : Episode) (fs fs1 : FS) (evs : list Event) :
  Rev3.worker env d cover ep fs = (fs1, evs) ->
  EvLog (LogProcessed (fileNameOf ep)) ∈ evs
  \/ EvLog (LogMetadataUpdated (fileNameOf ep)) ∈ evs
  \/ EvLog (LogAlreadyComplete (fileNameOf ep)) ∈ evs ->
  Rev3.worker env' d cover ep fs1
  = (fs1, [EvLog (LogAlreadyComplete (fileNameOf ep))]).
Proof.
  intros Hrun Hlog.
  assert (Hc : isComplete fs1 (targetOf d ep)).
  { revert Hrun. unfold Rev3.worker. fold (targetOf d ep).
    destruct (isNil (os.Stat env fs (targetOf d ep))).
    - destruct (metadataComplete fs (targetOf d ep)) as [metaOk err] eqn:Em.
      destruct metaOk.
      + intros [= <- <-]. apply metadataComplete_iff. by rewrite Em.
      + destruct (tagEpisode env fs (targetOf d ep) cover) as [fs2 [e|]] eqn:Et;
          intros [= <- <-].
        * exfalso. destruct err; not_logged.
        * by eapply tagEpisode_complete.
    - destruct (downloadFile env fs (URL ep) (targetOf d ep)) as [fs2 [e|]].
      + intros [= <- <-]. exfalso. not_logged.
      + destruct (tagEpisode env fs2 (targetOf d ep) cover) as [fs3 [e|]] eqn:Et;
          intros [= <- <-].
        * exfalso. not_logged.
        * by eapply tagEpisode_complete. }
  unfold Rev3.worker. fold (targetOf d ep).
  assert (Hex : isNil (os.Stat env' fs1 (targetOf d ep)) = true).
  { apply Stat_isNil. destruct Hc as (f & t & -> & _). eauto. }
  rewrite Hex. apply metadataComplete_iff, metadataComplete_pair in Hc.
  by rewrite Hc.
Qed.

Lemma processed_then_skipped_witness :
  Rev3.worker offlineEnv loadedDownloader cover07 ep07
    (fst (Rev3.worker fullEnv loadedDownloader cover07 ep07 coverOnlyFS))
  = (fst (Rev3.worker fullEnv loadedDownloader cover07 ep07 coverOnlyFS),
     [EvLog (LogAlreadyComplete (fileNameOf ep07))]).
Proof.
  apply (processed_then_skipped fullEnv offlineEnv loadedDownloader cover07 ep07
           coverOnlyFS _
           (snd (Rev3.worker fullEnv loadedDownloader cover07 ep07 coverOnlyFS))).
  - apply surjective_pairing.
  - left. vm_compute. do 3 right. left.
Defined.

(** The worker does not remove the file it finds. *)
Lemma worker_keeps_file (env : Env) (d : Downloader) (cover : string) (ep : Episode)
    (fs : FS) :
  is_Some (fs !! targetOf d ep) ->
  is_Some (fst (Rev3.worker env d cover ep fs) !! targetOf d ep).
Proof.
  intros Hex. unfold Rev3.worker. fold (targetOf d ep).
  rewrite (proj2 (Stat_isNil env fs _) Hex).
  destruct (metadataComplete fs (targetOf d ep)) as [[|] err]; [done|].
  destruct (tagEpisode env fs (targetOf d ep) cover) as [fs1 r] eqn:Et.
  destruct (tagEpisode_frame _ _ _ _ _ _ Et) as [Ha _].
  assert (H1 : is_Some (fs1 !! targetOf d ep)).
  { destruct Hex as [f Hf]. rewrite Hf in Ha.
    destruct (fs1 !! targetOf d ep); [eauto | done]. }
  by destruct r.
Qed.

Lemma laterRuns_never_fetch (d : Downloader) (cover : string) (ep : Episode)
    (envs : list Env) (fs : FS) :
  is_Some (fs !! targetOf d ep) ->
  is_Some (fst (laterRuns d cover ep envs fs) !! targetOf d ep)
  /\ List.filter isDownload (snd (laterRuns d cover ep envs fs)) = [].
Proof.
  revert fs. induction envs as [|env envs IH]; intros fs Hex; cbn [laterRuns].
  - done.
  - pose proof (worker_keeps_file env d cover ep fs Hex) as Hkeep.
    pose proof (existing_file_never_fetched env d cover ep fs Hex) as Hnone.
    destruct (Rev3.worker env d cover ep fs) as [fs1 evs]. cbn [fst snd] in *.
    destruct (IH fs1 Hkeep) as [Hex2 Hnone2].
    destruct (laterRuns d cover ep envs fs1) as [fs2 evs']. cbn [fst snd] in *.
    split; [done|]. by rewrite List.filter_app, Hnone, Hnone2.
Qed.

(** X14: A download that breaks off leaves the bytes received in the target
    file. Revision 3 does not fetch that episode again: however often the
    worker runs on it afterwards, and whatever the network then is, every
    run finds the file, at most re-tags it, and leaves a file behind. *)
Theorem broken_download_kept (env : Env) (d : Downloader) (cover : string)
    (ep : Episode) (fs : FS) (resp : http.Response) :
  fs !! targetOf d ep = None ->
  remote env !! URL ep = Some resp ->
  http.BodyErr resp = true ->
  targetOf d ep ∉ readonly env ->
  exists fs1,
    Rev3.worker env d cover ep fs
    = (fs1, [EvLog (LogDownloading (fileNameOf ep));
             EvDownload (URL ep) (targetOf d ep);
             EvLog (LogErrorDownloading (fileNameOf ep) ErrBody)])
    /\ fs1 !! targetOf d ep = Some (http.Body resp)
    /\ forall envs : list Env,
         is_Some (fst (laterRuns d cover ep envs fs1) !! targetOf d ep)
         /\ List.filter isDownload (snd (laterRuns d cover ep envs fs1)) = [].
Proof.
  intros Hno Hresp Hbody Hw.
  unfold Rev3.worker at 1. fold (targetOf d ep).
  assert (Hst : isNil (os.Stat env fs (targetOf d ep)) = false).
  { unfold os.Stat. by rewrite Hno. }
  rewrite Hst. unfold downloadFile, os.Create. rewrite Hresp, Hbody.
  rewrite decide_False by done.
  eexists. split; [reflexivity|]. split; [apply lookup_insert_eq|].
  intros envs. apply laterRuns_never_fetch. rewrite lookup_insert_eq. eauto.
Qed.

Lemma broken_download_kept_witness :
  exists fs1,
    Rev3.worker brokenEnv exampleDownloader cover07 ep07 coverOnlyFS
    = (fs1, [EvLog (LogDownloading (fileNameOf ep07));
             EvDownload (URL ep07) (targetOf exampleDownloader ep07);
             EvLog (LogErrorDownloading (fileNameOf ep07) ErrBody)])
    /\ fs1 !! targetOf exampleDownloader ep07 = Some (http.Body brokenResponse)
    /\ forall envs : list Env,
         is_Some (fst (laterRuns exampleDownloader cover07 ep07 envs fs1)
                  !! targetOf exampleDownloader ep07)
         /\ List.filter isDownload
              (snd (laterRuns exampleDownloader cover07 ep07 envs fs1)) = [].
Proof.
  apply (broken_download_kept brokenEnv exampleDownloader cover07 ep07 coverOnlyFS
           brokenResponse).
  - reflexivity.
  - reflexivity.
  - reflexivity.
  - apply not_elem_of_empty.
Defined.

(** The file a broken download left, one byte long, is never repaired: two
    later runs with the network back find it, fail to tag it, and fetch
    nothing. *)
Lemma broken_download_stays :
  let fs1 := fst (Rev3.worker brokenEnv exampleDownloader cover07 ep07 coverOnlyFS) in
  laterRuns exampleDownloader cover07 ep07 [fullEnv; fullEnv] fs1
  = (fs1,
     [EvLog (LogErrorReadingMetadata (fileNameOf ep07) ErrSmallHeaderSize);
      EvLog (LogMetadataIncomplete (fileNameOf ep07));
      EvTag target07 cover07;
      EvLog (LogErrorUpdatingMetadata (fileNameOf ep07) ErrSmallHeaderSize);
      EvLog (LogErrorReadingMetadata (fileNameOf ep07) ErrSmallHeaderSize);
      EvLog (LogMetadataIncomplete (fileNameOf ep07));
      EvTag target07 cover07;
      EvLog (LogErrorUpdatingMetadata (fileNameOf ep07) ErrSmallHeaderSize)]).
Proof. reflexivity. Qed.

(** ** The pipeline: which files it writes *)

(** No episode has the cover file for its target: cleaned, the one ends in
    [3] and the other in [g]. *)
Lemma target_not_cover (d : Downloader) (ep : Episode) :
  targetOf d ep <> Rev3.coverPath d.
Proof.
  intros H. apply (f_equal lastChar) in H.
  unfold targetOf, Rev3.coverPath in H.
  destruct (fileNameOf_last ep) as [Hne Hlast].
  rewrite (lastChar_Join _ (fileNameOf ep) "3") in H by (exact Hlast || discriminate).
  rewrite (lastChar_Join _ "cover.jpg" "g") in H by (reflexivity || discriminate).
  discriminate.
Qed.

Lemma downloadFile_frame (env : Env) (fs fs' : FS) (url dest : string) (r : option error) :
  downloadFile env fs url dest = (fs', r) ->
  forall p, p <> dest -> fs' !! p = fs !! p.
Proof.
  unfold downloadFile, os.Create.
  destruct (remote env !! url) as [resp|]; [|by intros [= <- <-]].
  destruct (decide (dest ∈ readonly env)); [by intros [= <- <-]|].
  intros [= <- <-] p Hp. by rewrite !lookup_insert_ne.
Qed.

Lemma workerStep_frame (env : Env) (d : Downloader) (cover : string) (ep : Episode)
    (ph ph' : Rev3.Phase) (fs fs' : FS) (evs : list Event) :
  Rev3.workerStep env d cover ep ph fs = (ph', fs', evs) ->
  forall p, p <> targetOf d ep -> fs' !! p = fs !! p.
Proof.
  destruct ph as [| |retag|o]; cbn [Rev3.workerStep]; fold (targetOf d ep).
  - destruct (isNil _).
    + destruct (metadataComplete _ _) as [[|] err]; by intros [= _ <- _].
    + by intros [= _ <- _].
  - destruct (downloadFile env fs (URL ep) (targetOf d ep)) as [fs1 r] eqn:E.
    pose proof (downloadFile_frame _ _ _ _ _ _ E) as Hf.
    destruct r; intros [= _ <- _]; exact Hf.
  - destruct (tagEpisode env fs (targetOf d ep) cover) as [fs1 r] eqn:E.
    destruct (tagEpisode_frame _ _ _ _ _ _ E) as [_ Hf].
    destruct r; intros [= _ <- _]; exact Hf.
  - by intros [= _ <- _].
Qed.

Lemma step_files (env : Env) (d : Downloader) (s s' : Rev3.State) (p : string) :
  Rev3.step env d s s' ->
  (forall ep g, (ep, g) ∈ Rev3.workers s -> p <> targetOf d ep) ->
  Rev3.files s' !! p = Rev3.files s !! p.
Proof.
  intros Hstep Hp.
  destruct Hstep as [s ep rest Hd | s ep rest Hd Hfree | s i ep ph ph' fs' evs Hi Hph Hw
                     | s i ep o Hi Hpos | s i ep o Hi Hpos | s Hd Hz];
    cbn [Rev3.files]; try reflexivity.
  eapply workerStep_frame; [exact Hw|].
  eapply Hp. eapply list_elem_of_lookup_2. exact Hi.
Qed.

Lemma reachable_files (env : Env) (d : Downloader) (fs : FS) (s : Rev3.State)
    (p : string) :
  Rev3.reachable env d (Rev3.init d fs) s ->
  (forall ep, ep ∈ Episodes d -> p <> targetOf d ep) ->
  Rev3.files s !! p = fs !! p.
Proof.
  intros Hreach Hp. induction Hreach as [|s s' Hreach IH Hstep]; [reflexivity|].
  rewrite <- IH. eapply step_files; [exact Hstep|].
  intros ep g Hin. apply Hp.
  destruct (Inv_reachable _ _ _ _ Hreach) as (_ & _ & _ & _ & Heps).
  rewrite <- Heps. apply elem_of_app. left.
  apply list_elem_of_fmap. exists (ep, g). done.
Qed.

(** X15: The pipeline writes target files only: a path that is no episode's
    target holds in every state of the run what it held at the start. In
    particular the cover file, which is no episode's target, is never
    changed by the run. *)
Theorem pipeline_writes_targets_only (env : Env) (d : Downloader) (fs : FS)
    (s : Rev3.State) :
  Rev3.reachable env d (Rev3.init d fs) s ->
  (forall p,
     (forall ep, ep ∈ Episodes d -> p <> targetOf d ep) ->
     Rev3.files s !! p = fs !! p)
  /\ Rev3.files s !! Rev3.coverPath d = fs !! Rev3.coverPath d.
Proof.
  intros Hreach. split.
  - intros p Hp. by eapply reachable_files.
  - eapply reachable_files; [exact Hreach|].
    intros ep _ H. by apply (target_not_cover d ep).
Qed.

Lemma pipeline_writes_targets_only_witness :
  (forall p,
     (forall ep, ep ∈ Episodes fourEpisodes -> p <> targetOf fourEpisodes ep) ->
     Rev3.files busyState !! p = coverOnlyFS !! p)
  /\ Rev3.files busyState !! Rev3.coverPath fourEpisodes
     = coverOnlyFS !! Rev3.coverPath fourEpisodes.
Proof.
  apply (pipeline_writes_targets_only fullEnv fourEpisodes coverOnlyFS busyState).
  apply runSchedule_reachable, Rev3.reach_init.
Defined.

(** ** The pipeline: the deferred calls *)

Lemma count_lookup_pos {A} (p : A -> bool) (l : list A) (i : nat) (x : A) :
  l !! i = Some x -> p x = true -> (0 < count p l)%nat.
Proof.
  intros Hi Hp. pose proof (count_insert p l i x x Hi) as H.
  destruct (count p l) eqn:E; [|lia].
  apply count_zero_Forall in E. rewrite Forall_forall in E.
  specialize (E x (list_elem_of_lookup_2 _ _ _ Hi)). congruence.
Qed.

(** X16: The deferred calls of a goroutine never block and never fail: when its
    body has returned there is a token in the channel for [<-sem] to take,
    and until [wg.Done()] has run the wait group counter is positive, so
    that [wg.Done()] cannot make it negative and [wg.Wait()] cannot return
    before the goroutine is through. *)
Theorem deferred_calls_enabled (env : Env) (d : Downloader) (fs : FS)
    (s : Rev3.State) (i : nat) (ep : Episode) (g : Rev3.Goroutine) :
  Rev3.reachable env d (Rev3.init d fs) s ->
  Rev3.workers s !! i = Some (ep, g) ->
  (forall o, g = Rev3.Running (Rev3.Finished o) -> (0 < Rev3.sem s)%nat)
  /\ ((forall o, g <> Rev3.Exited o) ->
      (0 < Rev3.wg s)%nat /\ Rev3.disp s <> Rev3.Returned).
Proof.
  intros Hreach Hi.
  destruct (Inv_reachable _ _ _ _ Hreach) as (Hsem & _ & Hwg & Hret & _).
  split.
  - intros o ->. rewrite Hsem.
    by apply (count_lookup_pos Rev3.holdsToken _ i _ Hi).
  - intros Hlive.
    assert (Hpos : (0 < Rev3.wg s)%nat).
    { rewrite Hwg.
      pose proof (count_lookup_pos Rev3.notExited _ i (ep, g) Hi) as H.
      destruct g as [ph|o|o]; [specialize (H eq_refl); lia | specialize (H eq_refl); lia|].
      by destruct (Hlive o). }
    split; [exact Hpos|]. intros Hr. specialize (Hret Hr). lia.
Qed.

Lemma deferred_calls_enabled_witness :
  (forall o, Rev3.Running (Rev3.Finished Rev3.Failed) = Rev3.Running (Rev3.Finished o) ->
             (0 < Rev3.sem finishedState)%nat)
  /\ ((forall o, Rev3.Running (Rev3.Finished Rev3.Failed) <> Rev3.Exited o) ->
      (0 < Rev3.wg finishedState)%nat /\ Rev3.disp finishedState <> Rev3.Returned).
Proof.
  apply (deferred_calls_enabled fullEnv fourEpisodes coverOnlyFS finishedState 0
           {| Number := "05"; Title := "Abe Mangger"; URL := "https://host/ep05.mp3" |}
           (Rev3.Running (Rev3.Finished Rev3.Failed))).
  - apply runSchedule_reachable, Rev3.reach_init.
  - vm_compute. reflexivity.
Defined.

(** ** [main]: when it exits with which status *)




(** What [flag.Parse] makes of some command lines. *)
Lemma flag_Parse_examples :
  flag.Parse [] = flag.Args []
  /\ flag.Parse ["out"; "-x"] = flag.Args ["out"; "-x"]
  /\ flag.Parse ["-"] = flag.Args ["-"]
  /\ flag.Parse ["--"; "-x"] = flag.Args ["-x"]
  /\ flag.Parse ["-x"; "out"] = flag.NotDefined
  /\ flag.Parse ["--verbose=1"] = flag.NotDefined
  /\ flag.Parse ["-h"] = flag.ErrHelp
  /\ flag.Parse ["--help=no"; "out"] = flag.ErrHelp
  /\ flag.Parse ["---"] = flag.BadSyntax
  /\ flag.Parse ["-=x"] = flag.BadSyntax.
Proof. repeat split. Qed.



(** ** Revision 1 and the size of a tagged file *)

Lemma rev1_incomplete_fetches (env : Env) (d : Downloader) (ep : Episode) (fs : FS) :
  Rev1.fileComplete env fs (URL ep) (targetOf d ep) = false ->
  EvDownload (URL ep) (targetOf d ep) ∈ snd (Rev1.worker env d ep fs).
Proof.
  intros Hinc. unfold Rev1.worker. fold (targetOf d ep). rewrite Hinc.
  destruct (downloadFile env fs (URL ep) (targetOf d ep)) as [fs' [e|]].
  { right. left. }
  destruct (tagEpisode env fs' (targetOf d ep) (Join (OutputDir d) "cover.jpg"))
    as [fs'' [e|]]; right; left.
Qed.

(** X20: When the server declares no content length, the checker of revision 1
    accepts no file at all, and its worker fetches the episode in every
    run. *)
Theorem rev1_unknown_length (env : Env) (d : Downloader) (ep : Episode) (fs : FS)
    (resp : http.Response) :
  remote env !! URL ep = Some resp ->
  http.ContentLength resp < 0 ->
  Rev1.fileComplete env fs (URL ep) (targetOf d ep) = false
  /\ EvDownload (URL ep) (targetOf d ep) ∈ snd (Rev1.worker env d ep fs).
Proof.
  intros Hresp Hneg.
  assert (Hinc : Rev1.fileComplete env fs (URL ep) (targetOf d ep) = false).
  { unfold Rev1.fileComplete, os.Stat.
    destruct (fs !! targetOf d ep); [|reflexivity]. rewrite Hresp.
    apply Z.eqb_neq. lia. }
  split; [exact Hinc | by apply rev1_incomplete_fetches].
Qed.

Lemma rev1_unknown_length_witness :
  Rev1.fileComplete chunkedEnv untaggedFS (URL ep07) (targetOf exampleDownloader ep07) = false
  /\ EvDownload (URL ep07) (targetOf exampleDownloader ep07)
       ∈ snd (Rev1.worker chunkedEnv exampleDownloader ep07 untaggedFS).
Proof.
  apply (rev1_unknown_length chunkedEnv exampleDownloader ep07 untaggedFS
           {| http.ContentLength := -1;
              http.Body := {| container := NoTag; audio := otherAudio |};
              http.BodyErr := false |}).
  - reflexivity.
  - reflexivity.
Defined.

(** X21: When revision 1 has fetched and tagged untagged audio of the declared
    length, the file has grown by the tag, so its checker does not accept the
    very file it has just produced: the next run fetches the episode again.
    This needs the encoding of a tag with a picture to be non-empty. *)
Theorem rev1_refetches (env : Env) (d : Downloader) (ep : Episode) (fs fs1 : FS)
    (evs : list Event) (resp : http.Response) :
  remote env !! URL ep = Some resp ->
  container (http.Body resp) = NoTag ->
  http.ContentLength resp = Z.of_nat (length (audio (http.Body resp))) ->
  (forall t, id3v2.pictures t <> [] -> tagBytes env t <> []) ->
  Rev1.worker env d ep fs = (fs1, evs) ->
  EvLog (LogProcessed (fileNameOf ep)) ∈ evs ->
  Rev1.fileComplete env fs1 (URL ep) (targetOf d ep) = false
  /\ EvDownload (URL ep) (targetOf d ep) ∈ snd (Rev1.worker env d ep fs1).
Proof.
  intros Hresp Hnotag Hlen Htag Hrun Hlog.
  assert (Hinc : Rev1.fileComplete env fs1 (URL ep) (targetOf d ep) = false).
  { revert Hrun. unfold Rev1.worker. fold (targetOf d ep).
    destruct (Rev1.fileComplete env fs (URL ep) (targetOf d ep)).
    { intros [= <- <-]. exfalso.
      apply elem_of_cons in Hlog as [Hlog|Hlog]; [discriminate|].
      by apply elem_of_nil in Hlog. }
    destruct (downloadFile env fs (URL ep) (targetOf d ep)) as [fs' [e|]] eqn:Ed.
    { intros [= <- <-]. exfalso. cbn in Hlog.
      repeat (apply elem_of_cons in Hlog as [Hlog|Hlog]; [discriminate|]).
      by apply elem_of_nil in Hlog. }
    destruct (tagEpisode env fs' (targetOf d ep) (Join (OutputDir d) "cover.jpg"))
      as [fs'' [e|]] eqn:Et.
    { intros [= <- <-]. exfalso. cbn in Hlog.
      repeat (apply elem_of_cons in Hlog as [Hlog|Hlog]; [discriminate|]).
      by apply elem_of_nil in Hlog. }
    intros [= <- <-].
    assert (Hbody : fs' !! targetOf d ep = Some (http.Body resp)).
    { revert Ed. unfold downloadFile, os.Create. rewrite Hresp.
      destruct (decide (targetOf d ep ∈ readonly env)); [discriminate|].
      intros [= <- _]. apply lookup_insert_eq. }
    destruct (tagEpisode_ok _ _ _ _ _ Et) as (f & t & cover & Hf & Ho & Hr & Hw & ->).
    rewrite Hbody in Hf. injection Hf as <-.
    unfold Rev1.fileComplete, os.Stat. rewrite lookup_insert_eq, Hresp.
    cbn [fileBytes container audio]. rewrite length_app, Hlen.
    apply Z.eqb_neq.
    assert (Hpos : (0 < length (tagBytes env
               (id3v2.AddAttachedPicture (id3v2.SetAlbum t albumName)
                  (coverFrame cover))))%nat).
    { destruct (tagBytes env _) eqn:Eb; [|cbn; lia].
      exfalso. revert Eb. apply Htag. rewrite tagged_pictures.
      intros Hnil.
      pose proof (addToSequence_new (coverFrame cover) (id3v2.pictures t)) as Hin.
      rewrite Hnil in Hin. by apply elem_of_nil in Hin. }
    lia. }
  split; [exact Hinc | by apply rev1_incomplete_fetches].
Qed.

Lemma rev1_refetches_witness :
  Rev1.fileComplete headerEnv
    (fst (Rev1.worker headerEnv exampleDownloader ep07 coverOnlyFS))
    (URL ep07) (targetOf exampleDownloader ep07) = false
  /\ EvDownload (URL ep07) (targetOf exampleDownloader ep07)
       ∈ snd (Rev1.worker headerEnv exampleDownloader ep07
                (fst (Rev1.worker headerEnv exampleDownloader ep07 coverOnlyFS))).
Proof.
  apply (rev1_refetches headerEnv exampleDownloader ep07 coverOnlyFS _
           (snd (Rev1.worker headerEnv exampleDownloader ep07 coverOnlyFS)) response07').
  - reflexivity.
  - reflexivity.
  - reflexivity.
  - intros t _. discriminate.
  - apply surjective_pairing.
  - vm_compute. do 3 right. left.
Defined.

(** ** The set-up and the pipeline together *)

Lemma fetchCover_exists (env : Env) (fs fs1 : FS) (d : Downloader) (log : list LogLine) :
  fetchCover env fs d = (fs1, None, log) ->
  is_Some (fs1 !! Join (OutputDir d) "cover.jpg").
Proof.
  unfold fetchCover, os.Stat, os.Create.
  destruct (fs !! Join (OutputDir d) "cover.jpg") as [f|] eqn:Ef; cbn [isNil].
  - intros [= <- _]. rewrite Ef. eauto.
  - destruct (remote env !! CoverURL d) as [resp|]; [|discriminate].
    destruct (decide (_ ∈ readonly env)); [discriminate|].
    destruct (http.BodyErr resp); [discriminate|].
    intros [= <- _]. rewrite lookup_insert_eq. eauto.
Qed.

(** X18: After a successful set-up the cover file is there, and it is there,
    unchanged, in every state of the pipeline: no tagging can fail for lack
    of the cover. *)
Theorem cover_available (env : Env) (fs fs1 : FS) (args : list string)
    (d : Downloader) (s : Rev3.State) :
  Rev3.mainSetup env fs args = inl (d, fs1) ->
  Rev3.reachable env d (Rev3.init d fs1) s ->
  is_Some (fs1 !! Rev3.coverPath d)
  /\ Rev3.files s !! Rev3.coverPath d = fs1 !! Rev3.coverPath d
  /\ isNil (os.ReadFile env (Rev3.files s) (Rev3.coverPath d)) = true.
Proof.
  intros Hsetup Hreach.
  assert (Hex : is_Some (fs1 !! Rev3.coverPath d)).
  { revert Hsetup. unfold Rev3.mainSetup.
    destruct (flag.Parse args) as [positional| | |]; try discriminate.
    set (d0 := newDownloader _ _ _).
    destruct (prepareOutput env fs d0); [discriminate|].
    destruct (fetchCover env fs d0) as [[fs' [e|]] lg] eqn:Ec; [discriminate|].
    apply fetchCover_exists in Ec.
    unfold loadEpisodes.
    destruct (feeds env !! FeedURL d0) as [feed|]; [|discriminate].
    destruct (fold_left loadItem (gofeed.Items feed) (Episodes d0, [])) as [eps lg'].
    intros [= <- <-]. exact Ec. }
  assert (Hsame : Rev3.files s !! Rev3.coverPath d = fs1 !! Rev3.coverPath d).
  { eapply reachable_files; [exact Hreach|].
    intros ep _ H. by apply (target_not_cover d ep). }
  split; [exact Hex|]. split; [exact Hsame|].
  unfold os.ReadFile. rewrite Hsame. by destruct Hex as [c ->].
Qed.

Lemma cover_available_witness :
  is_Some (coverOnlyFS !! Rev3.coverPath loadedDownloader)
  /\ Rev3.files (runSchedule fullEnv loadedDownloader 12
                   (Rev3.init loadedDownloader coverOnlyFS))
       !! Rev3.coverPath loadedDownloader
     = coverOnlyFS !! Rev3.coverPath loadedDownloader
  /\ isNil (os.ReadFile fullEnv
              (Rev3.files (runSchedule fullEnv loadedDownloader 12
                             (Rev3.init loadedDownloader coverOnlyFS)))
              (Rev3.coverPath loadedDownloader)) = true.
Proof.
  apply (cover_available fullEnv ∅ coverOnlyFS ["out"] loadedDownloader).
  - vm_compute. reflexivity.
  - apply runSchedule_reachable, Rev3.reach_init.
Defined.

(** X19: In every state of a run the tasks started so far are those of a prefix
    of the episode list, in list order, and the episodes still in the loop
    are the rest of the list: no episode is dispatched twice or skipped. *)
Theorem dispatch_in_order (env : Env) (d : Downloader) (fs : FS) (s : Rev3.State) :
  Rev3.reachable env d (Rev3.init d fs) s ->
  Episodes d = (fst <$> Rev3.workers s) ++ Rev3.pending (Rev3.disp s)
  /\ (length (Rev3.workers s) <= length (Episodes d))%nat
  /\ forall i ep g, Rev3.workers s !! i = Some (ep, g) -> Episodes d !! i = Some ep.
Proof.
  intros Hreach.
  destruct (Inv_reachable _ _ _ _ Hreach) as (_ & _ & _ & _ & Heps).
  split; [by rewrite Heps|]. split.
  - rewrite <- Heps, length_app, length_fmap. lia.
  - intros i ep g Hi. rewrite <- Heps. apply lookup_app_l_Some.
    by rewrite list_lookup_fmap, Hi.
Qed.

Lemma dispatch_in_order_witness :
  Episodes fourEpisodes = (fst <$> Rev3.workers busyState) ++ Rev3.pending (Rev3.disp busyState)
  /\ (length (Rev3.workers busyState) <= length (Episodes fourEpisodes))%nat
  /\ forall i ep g,
       Rev3.workers busyState !! i = Some (ep, g) -> Episodes fourEpisodes !! i = Some ep.
Proof.
  apply (dispatch_in_order fullEnv fourEpisodes coverOnlyFS busyState).
  apply runSchedule_reachable, Rev3.reach_init.
Defined.

(** ** The goroutine body and its phases *)

Lemma workerRun_Finished (env : Env) (d : Downloader) (cover : string) (ep : Episode)
    (n : nat) (o : Rev3.Outcome) (fs : FS) :
  Rev3.workerRun env d cover ep n (Rev3.Finished o) fs = (Rev3.Finished o, fs, []).
Proof. induction n as [|n IH]; cbn; [reflexivity | by rewrite IH]. Qed.

Lemma workerRun_add (env : Env) (d : Downloader) (cover : string) (ep : Episode)
    (n m : nat) :
  forall ph fs,
    Rev3.workerRun env d cover ep (n + m) ph fs
    = let '(ph1, fs1, ev1) := Rev3.workerRun env d cover ep n ph fs in
      let '(ph2, fs2, ev2) := Rev3.workerRun env d cover ep m ph1 fs1 in
      (ph2, fs2, ev1 ++ ev2).
Proof.
  induction n as [|n IH]; intros ph fs; cbn [Nat.add Rev3.workerRun].
  - by destruct (Rev3.workerRun env d cover ep m ph fs) as [[ph2 fs2] ev2].
  - destruct (Rev3.workerStep env d cover ep ph fs) as [[ph1 fs1] ev1].
    rewrite IH.
    destruct (Rev3.workerRun env d cover ep n ph1 fs1) as [[ph2 fs2] ev2].
    destruct (Rev3.workerRun env d cover ep m ph2 fs2) as [[ph3 fs3] ev3].
    by rewrite app_assoc.
Qed.

(** X22: The body of the goroutine of revision 3 is the run of its phases: three
    blocking operations (check, fetch, tag) always suffice to reach a
    terminal outcome, with the file system and the sequence of log lines and
    calls of the body, and nothing happens after that. *)
Theorem worker_body_is_phases (env : Env) (d : Downloader) (cover : string)
    (ep : Episode) (fs : FS) (n : nat) :
  (3 <= n)%nat ->
  exists o,
    Rev3.workerRun env d cover ep n Rev3.Checking fs
    = (Rev3.Finished o, fst (Rev3.worker env d cover ep fs),
       snd (Rev3.worker env d cover ep fs)).
Proof.
  intros Hn. destruct (worker_phases env d cover ep fs) as [o Ho].
  exists o. replace n with (3 + (n - 3))%nat by lia.
  rewrite workerRun_add, Ho, workerRun_Finished. by rewrite app_nil_r.
Qed.

Lemma worker_body_is_phases_witness :
  exists o,
    Rev3.workerRun fullEnv loadedDownloader cover07 ep07 5 Rev3.Checking coverOnlyFS
    = (Rev3.Finished o, fst (Rev3.worker fullEnv loadedDownloader cover07 ep07 coverOnlyFS),
       snd (Rev3.worker fullEnv loadedDownloader cover07 ep07 coverOnlyFS)).
Proof.
  apply (worker_body_is_phases fullEnv loadedDownloader cover07 ep07 coverOnlyFS 5).
  lia.
Defined.
